(** * Sarathi: the Gemini service layer (backend/app/services/gemini_service.py)

    A shallow embedding of [GeminiService]: the six use-case methods, the
    clean-up and parsing of the model's response text, the numeric
    normalisation of the trip record and the preparation of images, followed
    by the properties the specification states about them.

    The service is a thin layer over library calls, so the development first
    embeds the library functions the methods call, each after its CPython 3.11
    definition: [str.strip], [str.replace], [re.search] for the one pattern
    used, [float], [json.loads] (default decoder), the float arithmetic of
    Pillow's [Image.thumbnail] size rule and the size check of
    [Image.open]. *)

From Stdlib Require Import ZArith NArith List String Ascii Bool Lia.
From stdpp Require Import base option list gmap.
Import ListNotations.

Set Default Proof Using "Type".
Set Warnings "-register-all".
Local Open Scope N_scope.

(** ** Python strings

    A [str] is a sequence of Unicode code points. *)

Abbreviation char := N (only parsing).
Abbreviation str := (list N) (only parsing).

(** [lit "abc"] is the Python literal ['abc'] (ASCII literals only). *)
Definition lit (s : string) : str :=
  map (fun a : ascii => N_of_ascii a) (list_ascii_of_string s).

Definition char_eqb (a b : char) : bool := N.eqb a b.

Fixpoint str_eqb (a b : str) : bool :=
  match a, b with
  | [], [] => true
  | x :: a', y :: b' => char_eqb x y && str_eqb a' b'
  | _, _ => false
  end.

(** [s.startswith(p)] *)
Fixpoint startswith (p s : str) : bool :=
  match p, s with
  | [], _ => true
  | x :: p', y :: s' => char_eqb x y && startswith p' s'
  | _ :: _, [] => false
  end.

(** [p in s] for two strings: [p] occurs as a contiguous substring. *)
Fixpoint str_contains (p s : str) : bool :=
  startswith p s ||
  match s with
  | [] => false
  | _ :: s' => str_contains p s'
  end.

(** [str.isspace] on one code point (Py_UNICODE_ISSPACE). *)
Definition py_isspace (c : char) : bool :=
  ((9 <=? c) && (c <=? 13)) || ((28 <=? c) && (c <=? 32))
  || (c =? 133) || (c =? 160) || (c =? 5760)
  || ((8192 <=? c) && (c <=? 8202))
  || (c =? 8232) || (c =? 8233) || (c =? 8239) || (c =? 8287) || (c =? 12288).

Fixpoint lstrip (s : str) : str :=
  match s with
  | c :: s' => if py_isspace c then lstrip s' else s
  | [] => []
  end.

Definition rstrip (s : str) : str := rev (lstrip (rev s)).

(** [s.strip()] *)
Definition strip (s : str) : str := rstrip (lstrip s).

(** [s.replace(old, new)]: the occurrences of [old] are taken leftmost first
    and do not overlap.  [skip] counts the characters of a matched occurrence
    still to be dropped. *)
Fixpoint replace_from (old new : str) (skip : nat) (s : str) : str :=
  match s with
  | [] => []
  | c :: s' =>
      match skip with
      | S k => replace_from old new k s'
      | O =>
          if startswith old s
          then new ++ replace_from old new (Nat.pred (length old)) s'
          else c :: replace_from old new O s'
      end
  end.

Definition str_replace (old new s : str) : str :=
  match old with
  | [] => new ++ flat_map (fun c => c :: new) s
  | _ :: _ => replace_from old new O s
  end.

(** [re.search(r"\{[\s\S]*\}", s)]: the leftmost match starts at the first
    ['{'] that has a ['}'] somewhere after it, and the greedy star extends it
    to the last ['}'] of the text.  If the first ['{'] has no ['}'] after it,
    no later one has.  The result is [group(0)]. *)
Definition lbrace : char := 123.
Definition rbrace : char := 125.

Fixpoint drop_until (c : char) (s : str) : str :=
  match s with
  | [] => []
  | x :: s' => if char_eqb x c then s else drop_until c s'
  end.

Definition re_search_braces (s : str) : option str :=
  match drop_until lbrace s with
  | [] => None
  | b :: rest =>
      match drop_until rbrace (rev rest) with
      | [] => None
      | r => Some (b :: rev r)
      end
  end.

(** ** Python values as [json.loads] builds them *)

(** A binary64 float: [FFinite neg m e] is (-1)^neg * m * 2^e, with
    2^52 <= m < 2^53 and -1074 <= e <= 971 for normal numbers, m < 2^52 and
    e = -1074 for subnormal ones, and m = 0, e = 0 for the two zeros. *)
Inductive pyfloat :=
| FFinite (neg : bool) (m : N) (e : Z)
| FInf (neg : bool)
| FNaN.

Inductive value :=
| VNone
| VBool (b : bool)
| VInt (z : Z)
| VFloat (f : pyfloat)
| VStr (s : str)
| VList (l : list value)
| VDict (d : gmap (list N) value).

Definition fzero : pyfloat := FFinite false 0 0.

(** ** [float]: decimal to binary64 conversion

    CPython converts decimal text and integers to the nearest binary64,
    ties to even.  [round_ratio neg p q] rounds the positive rational p/q. *)

Local Open Scope Z_scope.

Definition round_ratio (neg : bool) (p q : Z) : pyfloat :=
  if p =? 0 then FFinite neg 0%N 0 else
  let scaled (k : Z) := if k <=? 0 then (p * 2 ^ (- k), q) else (p, q * 2 ^ k) in
  let k0 := Z.log2 p - Z.log2 q - 52 in
  let k1 := let '(n, d) := scaled k0 in if n / d <? 2 ^ 52 then k0 - 1 else k0 in
  let k := Z.max k1 (-1074) in
  let '(n, d) := scaled k in
  let quo := n / d in
  let r := n mod d in
  let up := (d <? 2 * r) || ((d =? 2 * r) && Z.odd quo) in
  let m := if up then quo + 1 else quo in
  let '(m, k) := if m =? 2 ^ 53 then (2 ^ 52, k + 1) else (m, k) in
  if 971 <? k then FInf neg
  else if m =? 0 then FFinite neg 0%N 0
  else FFinite neg (Z.to_N m) k.

(** The float nearest to m * 10^e.  Exponents far outside the binary64 range
    are settled without computing the power: above 10^400 the value
    overflows, and below 2^-1076 it rounds to zero. *)
Definition float_of_decimal (neg : bool) (m : N) (e : Z) : pyfloat :=
  let m := Z.of_N m in
  if m =? 0 then FFinite neg 0%N 0
  else if 400 <? e then FInf neg
  else if 3 * e + Z.log2 m <? -1077 then FFinite neg 0%N 0
  else if 0 <=? e then round_ratio neg (m * 10 ^ e) 1
  else round_ratio neg m (10 ^ (- e)).

(** [float(n)] for an [int]: [None] stands for OverflowError
    ("int too large to convert to float"). *)
Definition float_of_int (z : Z) : option pyfloat :=
  match round_ratio (z <? 0) (Z.abs z) 1 with
  | FInf _ => None
  | f => Some f
  end.

Local Open Scope N_scope.

(** Code points with the Unicode property Decimal_Number come in runs of ten,
    one per script; these are the code points of the zeros (Unicode 14, the
    database of CPython 3.11). *)
Definition decimal_zeros : list N :=
  [48; 1632; 1776; 1984; 2406; 2534; 2662; 2790; 2918; 3046; 3174; 3302;
   3430; 3558; 3664; 3792; 3872; 4160; 4240; 6112; 6160; 6470; 6608; 6784;
   6800; 6992; 7088; 7232; 7248; 42528; 43216; 43264; 43472; 43504; 43600;
   44016; 65296; 66720; 68912; 69734; 69872; 69942; 70096; 70384; 70736;
   70864; 71248; 71360; 71472; 71904; 72016; 72784; 73040; 73120; 92768;
   92864; 93008; 120782; 120792; 120802; 120812; 120822; 123200; 123632;
   125264; 130032].

(** Py_UNICODE_TODECIMAL *)
Definition unicode_decimal (c : char) : option N :=
  match filter (fun z => (z <=? c) && (c <? z + 10)) decimal_zeros with
  | z :: _ => Some (c - z)
  | [] => None
  end.

(** _PyUnicode_TransformDecimalAndSpaceToASCII, one code point: ASCII stays,
    spaces become [' '], decimal digits become ASCII digits, anything else
    becomes ['?'] (which no number contains). *)
Definition to_ascii_decimal (c : char) : char :=
  if c <? 127 then c
  else if py_isspace c then 32
  else match unicode_decimal c with
       | Some d => 48 + d
       | None => 63
       end.

(** Py_ISSPACE: the ASCII white space. *)
Definition c_isspace (c : char) : bool := ((9 <=? c) && (c <=? 13)) || (c =? 32).

Definition is_digit (c : char) : bool := (48 <=? c) && (c <=? 57).

Fixpoint c_lstrip (s : str) : str :=
  match s with
  | c :: s' => if c_isspace c then c_lstrip s' else s
  | [] => []
  end.

(** _Py_string_to_number_with_underscores: an underscore is dropped when it
    stands between two digits and is an error anywhere else.  [prev] is the
    character before [s] (0 at the start). *)
Fixpoint drop_underscores (prev : char) (s : str) : option str :=
  match s with
  | [] => if prev =? 95 then None else Some []
  | c :: s' =>
      if c =? 95 then
        if is_digit prev then drop_underscores c s' else None
      else if (prev =? 95) && negb (is_digit c) then None
      else option_map (cons c) (drop_underscores c s')
  end.

(** The digits at the front of [s], as a number and a count, and the rest. *)
Fixpoint take_digits (acc : N) (n : nat) (s : str) : N * nat * str :=
  match s with
  | c :: s' => if is_digit c then take_digits (10 * acc + (c - 48)) (S n) s'
               else (acc, n, s)
  | [] => (acc, n, s)
  end.

Definition lower (c : char) : char :=
  if (65 <=? c) && (c <=? 90) then c + 32 else c.

(** _Py_parse_inf_or_nan, after the sign: "inf", "infinity" or "nan" in any
    case; the result is the float and the unread rest. *)
Definition parse_inf_or_nan (neg : bool) (s : str) : option (pyfloat * str) :=
  let l := map lower s in
  if startswith (lit "inf") l then
    if startswith (lit "inity") (drop 3 l)
    then Some (FInf neg, drop 8 s) else Some (FInf neg, drop 3 s)
  else if startswith (lit "nan") l then Some (FNaN, drop 3 s)
  else None.

(** The exponent part [[eE][+-]?digits]; it is read only when at least one
    digit follows. *)
Definition parse_exponent (s : str) : Z * str :=
  match s with
  | c :: s1 =>
      if (c =? 101) || (c =? 69) then
        let '(neg, s2) :=
          match s1 with
          | d :: s2 => if d =? 45 then (true, s2)
                       else if d =? 43 then (false, s2) else (false, s1)
          | [] => (false, s1)
          end in
        let '(e, n, rest) := take_digits 0 O s2 in
        match n with
        | O => (0%Z, s)
        | S _ => ((if neg then - Z.of_N e else Z.of_N e)%Z, rest)
        end
      else (0%Z, s)
  | [] => (0%Z, s)
  end.

(** PyOS_string_to_double on text without white space or underscores: the
    whole text must be a sign, then inf, nan or a decimal number with at
    least one digit before or after the point.  [None] is ValueError. *)
Definition parse_float_text (s : str) : option pyfloat :=
  let '(neg, s1) :=
    match s with
    | c :: s' => if c =? 45 then (true, s')
                 else if c =? 43 then (false, s') else (false, s)
    | [] => (false, s)
    end in
  match parse_inf_or_nan neg s1 with
  | Some (f, []) => Some f
  | Some (_, _ :: _) => None
  | None =>
      let '(ip, ni, s2) := take_digits 0 O s1 in
      let '(m, nf, s3) :=
        match s2 with
        | c :: s' => if c =? 46 then
                       let '(m, nf, s3) := take_digits ip O s' in (m, nf, s3)
                     else (ip, O, s2)
        | [] => (ip, O, s2)
        end in
      match (ni + nf)%nat with
      | O => None
      | S _ =>
          match parse_exponent s3 with
          | (e, []) => Some (float_of_decimal neg m (e - Z.of_nat nf))
          | (_, _ :: _) => None
          end
      end
  end.

(** [float(s)] for a [str]. *)
Definition float_of_str (s : str) : option pyfloat :=
  let a := map to_ascii_decimal s in
  let t := rev (c_lstrip (rev (c_lstrip a))) in
  match t with
  | [] => None
  | _ :: _ => match drop_underscores 0 t with
              | Some u => parse_float_text u
              | None => None
              end
  end.

(** ** Exceptions and outcomes

    An exception is observed through its class, through [str(e)] and through
    its [__context__], the exception that was being handled when it was
    raised; the traceback is not part of the model.  No [raise] of the service
    has a [from] clause, so [__cause__] is [None] in every exception the
    service raises.  Every class below derives from [Exception], so
    [except Exception] catches all of them. *)

Inductive exn_class :=
| Exception
| ValueError
| JSONDecodeError
| TypeError
| OverflowError
| OtherError (name : str).

Inductive exn := mk_exn {
  exn_cls : exn_class;
  exn_str : str;
  exn_context : option exn
}.

(** An exception raised while [handled] is being handled: the interpreter
    stores [handled] in its [__context__]. *)
Definition during (handled e : exn) : exn :=
  mk_exn (exn_cls e) (exn_str e) (Some handled).

Inductive outcome (A : Type) :=
| Return (a : A)
| Raise (e : exn).
Arguments Return {A} a.
Arguments Raise {A} e.

#[global] Instance outcome_ret : MRet outcome := @Return.

#[global] Instance outcome_bind : MBind outcome := fun A B k m =>
  match m with
  | Return a => k a
  | Raise e => Raise e
  end.

(** ** Decimal rendering of a number, as ['%d'] prints it *)

Fixpoint dec_digits (fuel : nat) (n : N) (acc : str) : str :=
  match fuel with
  | O => acc
  | S fuel' =>
      let acc' := (48 + n mod 10) :: acc in
      if n <? 10 then acc' else dec_digits fuel' (n / 10) acc'
  end.

Definition dec_of_N (n : N) : str := dec_digits (S (N.to_nat (N.log2 n))) n [].
Definition dec_of_nat (n : nat) : str := dec_of_N (N.of_nat n).

(** ** [json.loads]

    The default decoder with the C scanner ([_json]), which is what
    [json.loads] runs in CPython.  A scanning function takes the text that is
    still unread and returns the value with the text left after it.  An error
    remembers how much text was unread where it arose, which gives its
    position in the document.  The interpreter's recursion limit is not
    modelled: nesting may be arbitrarily deep. *)

Inductive scan (A : Type) :=
| Scanned (a : A) (rest : str)
| ScanError (msg : str) (unread : nat)
| IntTooLong (digits : nat)
| OutOfFuel.
Arguments Scanned {A} a rest.
Arguments ScanError {A} msg unread.
Arguments IntTooLong {A} digits.
Arguments OutOfFuel {A}.

(** IS_WHITESPACE *)
Definition json_ws (c : char) : bool :=
  (c =? 32) || (c =? 9) || (c =? 10) || (c =? 13).

Fixpoint skip_ws (s : str) : str :=
  match s with
  | c :: s' => if json_ws c then skip_ws s' else s
  | [] => []
  end.

Definition hex_digit (c : char) : option N :=
  if (48 <=? c) && (c <=? 57) then Some (c - 48)
  else if (97 <=? c) && (c <=? 102) then Some (c - 87)
  else if (65 <=? c) && (c <=? 70) then Some (c - 55)
  else None.

(** Four hexadecimal digits at the front of [s]. *)
Definition hex4 (s : str) : option (N * str) :=
  match s with
  | a :: b :: c :: d :: rest =>
      match hex_digit a, hex_digit b, hex_digit c, hex_digit d with
      | Some x, Some y, Some z, Some w => Some (((x * 16 + y) * 16 + z) * 16 + w, rest)
      | _, _, _, _ => None
      end
  | _ => None
  end.

(** The one-letter escapes: quote, backslash, slash, b, f, n, r, t. *)
Definition escape_char (c : char) : option char :=
  if c =? 34 then Some 34
  else if c =? 92 then Some 92
  else if c =? 47 then Some 47
  else if c =? 98 then Some 8
  else if c =? 102 then Some 12
  else if c =? 110 then Some 10
  else if c =? 114 then Some 13
  else if c =? 116 then Some 9
  else None.

Definition is_high_surrogate (c : N) : bool := (55296 <=? c) && (c <=? 56319).
Definition is_low_surrogate (c : N) : bool := (56320 <=? c) && (c <=? 57343).
Definition join_surrogates (hi lo : N) : N :=
  65536 + (N.lor (N.shiftl (hi - 55296) 10) (lo - 56320)).

Definition unterminated : str := lit "Unterminated string starting at".
Definition invalid_uXXXX : str := lit "Invalid \uXXXX escape".

(** scanstring_unicode, strict mode; [s] starts after the opening quote and
    [begin] is the amount of text unread at that quote. *)
Fixpoint scanstring (fuel : nat) (begin : nat) (s : str) : scan str :=
  match fuel with
  | O => OutOfFuel
  | S fuel' =>
      let continue c rest :=
        match scanstring fuel' begin rest with
        | Scanned x r => Scanned (c :: x) r
        | other => other
        end in
      match s with
      | [] => ScanError unterminated begin
      | c :: s1 =>
          if c =? 34 then Scanned [] s1
          else if c =? 92 then
            match s1 with
            | [] => ScanError unterminated begin
            | e :: s2 =>
                if e =? 117 then
                  match hex4 s2 with
                  | None => ScanError invalid_uXXXX (length s1)
                  | Some (u, s3) =>
                      match s3 with
                      | [] => ScanError invalid_uXXXX (length s1)
                      | b :: v :: s4 =>
                          if is_high_surrogate u && (7 <=? length s3)%nat
                             && (b =? 92) && (v =? 117)
                          then match hex4 s4 with
                               | None => ScanError invalid_uXXXX (S (length s4))
                               | Some (u2, s5) =>
                                   if is_low_surrogate u2
                                   then continue (join_surrogates u u2) s5
                                   else continue u s3
                               end
                          else continue u s3
                      | _ => continue u s3
                      end
                  end
                else
                  match escape_char e with
                  | Some x => continue x s2
                  | None => ScanError (lit "Invalid \escape") (length s)
                  end
            end
          else if c <=? 31 then
            ScanError (lit "Invalid control character at") (length s)
          else continue c s1
      end
  end.

Definition expecting_value : str := lit "Expecting value".

(** _match_number_unicode.  An integer of more than 4300 digits is refused by
    [int] (sys.get_int_max_str_digits), a float is [float] of the matched
    text. *)
Definition match_number (s : str) : scan value :=
  let '(neg, s1) :=
    match s with
    | c :: s' => if c =? 45 then (true, s') else (false, s)
    | [] => (false, s)
    end in
  let int_part : option (N * nat * str) :=
    match s1 with
    | c :: s' =>
        if (49 <=? c) && (c <=? 57) then Some (take_digits 0 O s1)
        else if c =? 48 then Some (0, 1%nat, s')
        else None
    | [] => None
    end in
  match int_part with
  | None => ScanError expecting_value (length s)
  | Some (ip, ni, s2) =>
      let '(m, nf, s3) :=
        match s2 with
        | c :: d :: _ =>
            if (c =? 46) && is_digit d then take_digits ip O (tl s2) else (ip, O, s2)
        | _ => (ip, O, s2)
        end in
      let '(e, s4) := parse_exponent s3 in
      if (0 <? nf)%nat || negb (length s4 =? length s3)%nat then
        Scanned (VFloat (float_of_decimal neg m (e - Z.of_nat nf))) s4
      else if (4300 <? ni)%nat then IntTooLong ni
      else Scanned (VInt (if neg then - Z.of_N ip else Z.of_N ip)%Z) s4
  end.

Definition expecting_name : str :=
  lit "Expecting property name enclosed in double quotes".
Definition expecting_colon : str := lit "Expecting ':' delimiter".
Definition expecting_comma : str := lit "Expecting ',' delimiter".

(** scan_once_unicode with _parse_object_unicode and _parse_array_unicode.
    [scan_members] and [scan_elements] are the bodies of the two loops, one
    round each; a repeated key keeps its last value, as [dict] does. *)
Fixpoint scan_once (fuel : nat) (s : str) : scan value :=
  match fuel with
  | O => OutOfFuel
  | S fuel' =>
      match s with
      | [] => ScanError expecting_value O
      | c :: s1 =>
          if c =? 34 then
            match scanstring (S (length s1)) (length s) s1 with
            | Scanned x rest => Scanned (VStr x) rest
            | ScanError msg n => ScanError msg n
            | IntTooLong n => IntTooLong n
            | OutOfFuel => OutOfFuel
            end
          else if c =? 123 then
            match skip_ws s1 with
            | 125 :: rest => Scanned (VDict ∅) rest
            | s2 => scan_members fuel' ∅ s2
            end
          else if c =? 91 then
            match skip_ws s1 with
            | 93 :: rest => Scanned (VList []) rest
            | s2 => scan_elements fuel' s2
            end
          else if startswith (lit "null") s then Scanned VNone (drop 4 s)
          else if startswith (lit "true") s then Scanned (VBool true) (drop 4 s)
          else if startswith (lit "false") s then Scanned (VBool false) (drop 5 s)
          else if startswith (lit "NaN") s then Scanned (VFloat FNaN) (drop 3 s)
          else if startswith (lit "Infinity") s then
            Scanned (VFloat (FInf false)) (drop 8 s)
          else if startswith (lit "-Infinity") s then
            Scanned (VFloat (FInf true)) (drop 9 s)
          else match_number s
      end
  end
with scan_members (fuel : nat) (acc : gmap (list N) value) (s : str) : scan value :=
  match fuel with
  | O => OutOfFuel
  | S fuel' =>
      match s with
      | 34 :: s1 =>
          match scanstring (S (length s1)) (length s) s1 with
          | Scanned key s2 =>
              match skip_ws s2 with
              | 58 :: s3 =>
                  match scan_once fuel' (skip_ws s3) with
                  | Scanned v s4 =>
                      let acc' := <[key := v]> acc in
                      match skip_ws s4 with
                      | 125 :: rest => Scanned (VDict acc') rest
                      | 44 :: s5 => scan_members fuel' acc' (skip_ws s5)
                      | s5 => ScanError expecting_comma (length s5)
                      end
                  | other => other
                  end
              | s3 => ScanError expecting_colon (length s3)
              end
          | ScanError msg n => ScanError msg n
          | IntTooLong n => IntTooLong n
          | OutOfFuel => OutOfFuel
          end
      | _ => ScanError expecting_name (length s)
      end
  end
with scan_elements (fuel : nat) (s : str) : scan value :=
  match fuel with
  | O => OutOfFuel
  | S fuel' =>
      match scan_once fuel' s with
      | Scanned v s1 =>
          match skip_ws s1 with
          | 93 :: rest => Scanned (VList [v]) rest
          | 44 :: s2 =>
              match scan_elements fuel' (skip_ws s2) with
              | Scanned (VList l) rest => Scanned (VList (v :: l)) rest
              | other => other
              end
          | s2 => ScanError expecting_comma (length s2)
          end
      | other => other
      end
  end.

(** The scanner signals that no value starts at [pos] with StopIteration(pos). *)
Definition stop_iteration (pos : nat) : exn :=
  mk_exn (OtherError (lit "StopIteration")) (dec_of_nat pos) None.

(** JSONDecodeError(msg, doc, pos): the text of the exception names the line
    and the column of [pos].  [raw_decode] raises "Expecting value" in the
    handler of the scanner's StopIteration, which therefore is its
    [__context__]; the other errors are raised where they are found. *)
Definition count_newlines (s : str) : nat :=
  length (filter (fun c => c =? 10) s).

Fixpoint since_newline (s : str) : nat :=
  match s with
  | [] => O
  | c :: s' => if c =? 10 then O else S (since_newline s')
  end.

Definition json_decode_error (msg doc : str) (pos : nat) : exn :=
  let before := take pos doc in
  let lineno := S (count_newlines before) in
  let colno := S (since_newline (rev before)) in
  mk_exn JSONDecodeError
    (msg ++ lit ": line " ++ dec_of_nat lineno ++ lit " column " ++ dec_of_nat colno
         ++ lit " (char " ++ dec_of_nat pos ++ lit ")")
    (if str_eqb msg expecting_value then Some (stop_iteration pos) else None).

Definition int_too_long (digits : nat) : exn :=
  mk_exn ValueError
    (lit "Exceeds the limit (4300 digits) for integer string conversion: value has "
     ++ dec_of_nat digits
     ++ lit " digits; use sys.set_int_max_str_digits() to increase the limit")
    None.

Definition recursion_error : exn :=
  mk_exn (OtherError (lit "RecursionError"))
         (lit "maximum recursion depth exceeded while decoding a JSON document")
         None.

(** [json.loads(s)] for a [str]: a byte-order mark is refused, white space
    around the document is skipped, and anything else after the document is
    an error.  The fuel bounds the recursion of the scanner; twice the length
    of the text is always enough ([json_loads_total] below), so the last
    case never arises. *)
Definition json_loads (s : str) : outcome value :=
  if startswith [65279] s then
    Raise (json_decode_error
             (lit "Unexpected UTF-8 BOM (decode using utf-8-sig)") s O)
  else
    match scan_once (2 * length s + 2) (skip_ws s) with
    | Scanned v rest =>
        match skip_ws rest with
        | [] => Return v
        | extra => Raise (json_decode_error (lit "Extra data") s (length s - length extra))
        end
    | ScanError msg unread => Raise (json_decode_error msg s (length s - unread))
    | IntTooLong n => Raise (int_too_long n)
    | OutOfFuel => Raise recursion_error
    end.

(** ** The operations of the normalisation loop

    [key in obj], [obj[key]], [obj[key] = v] and [float(v)] for a text key.
    [None] stands for a raised exception (TypeError, KeyError, ValueError or
    OverflowError): every call site of these is inside a [try] whose handler
    is [except Exception:] and does not look at the exception. *)

Definition field_present (key : str) (obj : value) : option bool :=
  match obj with
  | VDict d => Some (bool_decide (is_Some (d !! key)))
  | VList l =>
      Some (existsb (fun v => match v with VStr s => str_eqb s key | _ => false end) l)
  | VStr s => Some (str_contains key s)
  | VNone | VBool _ | VInt _ | VFloat _ => None
  end.

Definition get_item (obj : value) (key : str) : option value :=
  match obj with
  | VDict d => d !! key
  | _ => None
  end.

Definition set_item (obj : value) (key : str) (v : value) : option value :=
  match obj with
  | VDict d => Some (VDict (<[key := v]> d))
  | _ => None
  end.

Definition fone : pyfloat := FFinite false 4503599627370496 (-52).

Definition py_float (v : value) : option pyfloat :=
  match v with
  | VFloat f => Some f
  | VInt z => float_of_int z
  | VBool b => Some (if b then fone else fzero)
  | VStr s => float_of_str s
  | VNone | VList _ | VDict _ => None
  end.

Definition is_none (v : value) : bool :=
  match v with VNone => true | _ => false end.

Definition or_else {A} (m : option A) (h : option A) : option A :=
  match m with
  | Some a => Some a
  | None => h
  end.

(** The body of the loop over the numeric fields (lines 155-159):
<<
    if num_field in result:
        try:
            result[num_field] = float(result[num_field]) if result[num_field] is not None else 0.0
        except Exception:
            result[num_field] = 0.0
>>
    The record is updated in place; the function returns the updated
    record. *)
Definition normalize_field (result : value) (num_field : str) : option value :=
  present ← field_present num_field result;
  if present : bool then
    or_else
      (current ← get_item result num_field;
       x ← (if negb (is_none current)
            then v ← get_item result num_field; py_float v
            else Some fzero);
       set_item result num_field (VFloat x))
      (set_item result num_field (VFloat fzero))
  else Some result.

Definition numeric_fields : list (list N) :=
  [lit "earnings"; lit "fuel_cost"; lit "toll_cost"; lit "other_expenses"].

Fixpoint normalize_fields (fields : list (list N)) (result : value) : option value :=
  match fields with
  | [] => Some result
  | f :: fields' =>
      result' ← normalize_field result f;
      normalize_fields fields' result'
  end.

(** The two clean-ups of the response text: [.strip()] and the removal of
    the fence markers. *)
Definition fence_json : str := lit "```json".
Definition fence : str := lit "```".

Definition remove_fences (s : str) : str :=
  str_replace fence [] (str_replace fence_json [] s).

(** [response.text.strip().replace('```json', '').replace('```', '')] *)
Definition clean (text : str) : str := remove_fences (strip text).

(** The record returned when nothing can be parsed (lines 179-189). *)
Definition default_trip : value :=
  VDict (list_to_map
    [ (lit "start_location", VNone);
      (lit "end_location", VNone);
      (lit "earnings", VFloat fzero);
      (lit "fuel_cost", VFloat fzero);
      (lit "toll_cost", VFloat fzero);
      (lit "other_expenses", VFloat fzero);
      (lit "platform", VNone);
      (lit "trip_type", VStr (lit "ride_hailing"));
      (lit "notes", VStr []) ]).

(** [json.loads(text)] followed by the loop over the numeric fields, as the
    body of a [try] with [except Exception:]. *)
Definition parse_trip (text : str) : option value :=
  match json_loads text with
  | Return result => normalize_fields numeric_fields result
  | Raise _ => None
  end.

(** Lines 149-189 of [extract_trip_info], from the response text on: the
    result and whether the warning is logged. *)
Definition trip_from_text (text : str) : value * bool :=
  let response_text := strip text in
  match parse_trip (remove_fences response_text) with
  | Some result => (result, false)
  | None =>
      let found :=
        match re_search_braces response_text with
        | Some block => parse_trip block
        | None => None
        end in
      match found with
      | Some result => (result, false)
      | None => (default_trip, true)
      end
  end.

(** ** Images (Pillow)

    An image is its mode, its size and the history of its pixel data; the
    pixel values themselves play no part in the service. *)

(** Image.Resampling *)
Inductive resampling := NEAREST | BILINEAR | BICUBIC | LANCZOS.

Inductive pixels :=
| Decoded (src : list Byte.byte)
| Converted (mode : list N) (p : pixels)
| Resampled (resample : resampling) (width height : positive) (p : pixels).

Record image := mk_image {
  im_mode : list N;
  im_width : positive;
  im_height : positive;
  im_pixels : pixels
}.

(** [img.convert(mode)] *)
Definition convert (img : image) (mode : str) : image :=
  mk_image mode (im_width img) (im_height img) (Converted mode (im_pixels img)).

Local Open Scope Z_scope.

(** ** Arithmetic on floats

    The float operations that [Image.thumbnail] uses.  Each result is the
    exact result rounded to the nearest binary64, ties to even; the exact
    result is a fraction of two integers. *)

(** A finite float is the fraction [float_num / float_den]. *)
Definition float_num (neg : bool) (m : N) (e : Z) : Z :=
  (if neg then - Z.of_N m else Z.of_N m) * 2 ^ Z.max e 0.

Definition float_den (e : Z) : Z := 2 ^ Z.max (- e) 0.

(** A float in units of 2^-1074, the smallest positive float, and the
    range of the mantissa and the exponent of a finite binary64. *)
Definition float_units (m : N) (e : Z) : Z := Z.of_N m * 2 ^ (e + 1074).

Definition binary64_range (m : N) (e : Z) : Prop :=
  Z.of_N m < 2 ^ 53 /\ - 1074 <= e <= 971.

(** The float nearest to n/d, for d > 0; a zero takes the sign [zero_neg]. *)
Definition round_fraction (zero_neg : bool) (n d : Z) : pyfloat :=
  if n =? 0 then FFinite zero_neg 0%N 0 else round_ratio (n <? 0) (Z.abs n) d.

Definition float_is_zero (f : pyfloat) : bool :=
  match f with
  | FFinite _ m _ => (m =? 0)%N
  | _ => false
  end.

(** [a - b] *)
Definition float_sub (a b : pyfloat) : pyfloat :=
  match a, b with
  | FNaN, _ | _, FNaN => FNaN
  | FInf na, FInf nb => if Bool.eqb na nb then FNaN else FInf na
  | FInf na, FFinite _ _ _ => FInf na
  | FFinite _ _ _, FInf nb => FInf (negb nb)
  | FFinite na ma ea, FFinite nb mb eb =>
      round_fraction (na && negb nb)
        (float_num na ma ea * float_den eb - float_num nb mb eb * float_den ea)
        (float_den ea * float_den eb)
  end.

(** [a * b] *)
Definition float_mul (a b : pyfloat) : pyfloat :=
  match a, b with
  | FNaN, _ | _, FNaN => FNaN
  | FInf na, FInf nb => FInf (xorb na nb)
  | FInf na, FFinite nb mb _ => if (mb =? 0)%N then FNaN else FInf (xorb na nb)
  | FFinite na ma _, FInf nb => if (ma =? 0)%N then FNaN else FInf (xorb na nb)
  | FFinite na ma ea, FFinite nb mb eb =>
      round_fraction (xorb na nb)
        (float_num na ma ea * float_num nb mb eb) (float_den ea * float_den eb)
  end.

Definition zero_division (message : str) : exn :=
  mk_exn (OtherError (lit "ZeroDivisionError")) message None.

(** [a / b]: a zero divisor raises. *)
Definition float_div (a b : pyfloat) : outcome pyfloat :=
  if float_is_zero b then Raise (zero_division (lit "float division by zero"))
  else
    Return
      match a, b with
      | FNaN, _ | _, FNaN => FNaN
      | FInf na, FInf nb => FNaN
      | FInf na, FFinite nb _ _ => FInf (xorb na nb)
      | FFinite na _ _, FInf nb => FFinite (xorb na nb) 0%N 0
      | FFinite na ma ea, FFinite nb mb eb =>
          round_fraction (xorb na nb)
            (float_num (xorb na nb) ma ea * float_den eb)
            (float_den ea * float_num false mb eb)
      end.

Definition float_abs (a : pyfloat) : pyfloat :=
  match a with
  | FFinite _ m e => FFinite false m e
  | FInf _ => FInf false
  | FNaN => FNaN
  end.

(** [a < b]; a comparison with NaN is false. *)
Definition float_ltb (a b : pyfloat) : bool :=
  match a, b with
  | FNaN, _ | _, FNaN => false
  | FInf na, FInf nb => na && negb nb
  | FInf na, FFinite _ _ _ => na
  | FFinite _ _ _, FInf nb => negb nb
  | FFinite na ma ea, FFinite nb mb eb =>
      float_num na ma ea * float_den eb <? float_num nb mb eb * float_den ea
  end.

(** [a <= b] *)
Definition float_leb (a b : pyfloat) : bool :=
  match a, b with
  | FNaN, _ | _, FNaN => false
  | FInf na, FInf nb => na || negb nb
  | FInf na, FFinite _ _ _ => na
  | FFinite _ _ _, FInf nb => negb nb
  | FFinite na ma ea, FFinite nb mb eb =>
      float_num na ma ea * float_den eb <=? float_num nb mb eb * float_den ea
  end.

(** [a / b] for two [int]s: the quotient rounded once. *)
Definition int_truediv (a b : Z) : outcome pyfloat :=
  if b =? 0 then Raise (zero_division (lit "division by zero"))
  else
    match round_fraction (b <? 0) (if b <? 0 then - a else a) (Z.abs b) with
    | FInf _ =>
        Raise (mk_exn OverflowError
                 (lit "integer division result too large for a float") None)
    | f => Return f
    end.

(** [float(n)] where an [int] meets a float in an operation. *)
Definition int_to_float (z : Z) : outcome pyfloat :=
  match float_of_int z with
  | Some f => Return f
  | None => Raise (mk_exn OverflowError (lit "int too large to convert to float") None)
  end.

Definition float_to_int_error (f : pyfloat) : exn :=
  match f with
  | FNaN => mk_exn ValueError (lit "cannot convert float NaN to integer") None
  | _ => mk_exn OverflowError (lit "cannot convert float infinity to integer") None
  end.

(** [math.floor(a)] and [math.ceil(a)] *)
Definition math_floor (a : pyfloat) : outcome Z :=
  match a with
  | FFinite neg m e => Return (float_num neg m e / float_den e)
  | _ => Raise (float_to_int_error a)
  end.

Definition math_ceil (a : pyfloat) : outcome Z :=
  match a with
  | FFinite neg m e => Return (- ((- float_num neg m e) / float_den e))
  | _ => Raise (float_to_int_error a)
  end.

(** round_aspect in [Image.thumbnail]:
    [max(min(math.floor(number), math.ceil(number), key=key), 1)];
    [min] returns its first argument unless the key of the second is
    smaller. *)
Definition round_aspect (number : pyfloat) (key : Z -> outcome pyfloat) : outcome Z :=
  lo ← math_floor number;
  hi ← math_ceil number;
  key_lo ← key lo;
  key_hi ← key hi;
  Return (Z.max (if float_ltb key_hi key_lo then hi else lo) 1).

(** preserve_aspect_ratio in [Image.thumbnail] for the requested size
    (x, y): [None] when the image already fits.
<<
    aspect = self.width / self.height
    if x / y >= aspect:
        x = round_aspect(y * aspect, key=lambda n: abs(aspect - n / y))
    else:
        y = round_aspect(
            x / aspect, key=lambda n: 0 if n == 0 else abs(aspect - x / n))
>>  *)
Definition thumbnail_size (width height : positive) (x y : Z)
  : outcome (option (Z * Z)) :=
  let w := Z.pos width in
  let h := Z.pos height in
  if (w <=? x) && (h <=? y) then Return None
  else
    aspect ← int_truediv w h;
    ratio ← int_truediv x y;
    if float_leb aspect ratio then
      fy ← int_to_float y;
      x' ← round_aspect (float_mul fy aspect)
             (fun n => q ← int_truediv n y; Return (float_abs (float_sub aspect q)));
      Return (Some (x', y))
    else
      fx ← int_to_float x;
      number ← float_div fx aspect;
      y' ← round_aspect number
             (fun n => if n =? 0 then Return fzero
                       else q ← int_truediv x n;
                            Return (float_abs (float_sub aspect q)));
      Return (Some (x, y')).

(** [img.thumbnail((x, y), resample)]: the image is resized in place to the
    size computed above, unless it fits or already has that size. *)
Definition thumbnail (img : image) (x y : Z) (resample : resampling)
  : outcome image :=
  size ← thumbnail_size (im_width img) (im_height img) x y;
  Return
    match size with
    | None => img
    | Some (x', y') =>
        let w' := Z.to_pos x' in
        let h' := Z.to_pos y' in
        if Pos.eqb w' (im_width img) && Pos.eqb h' (im_height img) then img
        else mk_image (im_mode img) w' h' (Resampled resample w' h' (im_pixels img))
    end.

Local Open Scope N_scope.

(** ** The generative model and the world around a call *)

Inductive payload :=
| AudioData (bytes : list Byte.byte)
| JpegData (img : image).

Record part := mk_part { mime_type : list N; data : payload }.

(** The prompt of each use case: its fixed template and the values put into
    the template. *)
Inductive prompt :=
| TranscribePrompt
| VehiclePrompt (context : option (list N))
| TripPrompt (transcription : list N)
| EarningsPrompt (trip_history user_context : value)
| FatiguePrompt (work_pattern : value)
| PlanPrompt (user_profile goals current_finances : value).

Record request := mk_request { req_prompt : prompt; req_parts : list part }.

(** [self.model] and [self.chat_model] *)
Inductive model_id := Model | ChatModel.

(** What the service does not own: the answer of the generative model to a
    request, that is the value of [generate_content(...).text] or the
    exception it ends in, and what Pillow's format plugins find in the bytes
    of an image: an image, or the exception that [Image.open] ends in when no
    plugin accepts the bytes. *)
Record backend := mk_backend {
  generate_content : model_id -> request -> outcome (list N);
  image_plugin : list Byte.byte -> outcome image
}.

(** [Image.MAX_IMAGE_PIXELS]; the service leaves it as Pillow sets it,
    [int(1024 * 1024 * 1024 // 4 // 3)]. *)
Definition MAX_IMAGE_PIXELS : Z := 89478485.

Definition decompression_bomb (pixels : Z) : exn :=
  mk_exn (OtherError (lit "DecompressionBombError"))
    (lit "Image size (" ++ dec_of_N (Z.to_N pixels)
       ++ lit " pixels) exceeds limit of "
       ++ dec_of_N (Z.to_N (2 * MAX_IMAGE_PIXELS))
       ++ lit " pixels, could be decompression bomb DOS attack.")
    None.

(** [Image.open(fp)]: the image that the plugin found, once its size has
    passed [_decompression_bomb_check]: more than twice MAX_IMAGE_PIXELS
    pixels raise, more than MAX_IMAGE_PIXELS only warn. *)
Definition image_open (be : backend) (fp : list Byte.byte) : outcome image :=
  im ← image_plugin be fp;
  let pixels := (Z.pos (im_width im) * Z.pos (im_height im))%Z in
  if (2 * MAX_IMAGE_PIXELS <? pixels)%Z then Raise (decompression_bomb pixels)
  else Return im.

Inductive log_level := INFO | WARNING | ERROR.

Record world := mk_world {
  calls : list (model_id * request);
  log : list (log_level * list N)
}.

(** A method body: it runs in a world and ends with a value or a raised
    exception. *)
Definition M (A : Type) : Type := world -> outcome A * world.

#[global] Instance M_ret : MRet M := fun A a w => (Return a, w).

#[global] Instance M_bind : MBind M := fun A B k m w =>
  match m w with
  | (Return a, w') => k a w'
  | (Raise e, w') => (Raise e, w')
  end.

Definition raise {A} (e : exn) : M A := fun w => (Raise e, w).

Definition lift {A} (o : outcome A) : M A := fun w => (o, w).

(** [try: m  except Exception as e: h e]; what [m] did to the world before it
    raised stays done, and an exception that leaves the handler was raised
    during the handling of [e]. *)
Definition try_M {A} (m : M A) (h : exn -> M A) : M A := fun w =>
  match m w with
  | (Return a, w') => (Return a, w')
  | (Raise e, w') =>
      match h e w' with
      | (Return a, w'') => (Return a, w'')
      | (Raise e', w'') => (Raise (during e e'), w'')
      end
  end.

Definition call (be : backend) (id : model_id) (req : request) : M (list N) :=
  fun w => (generate_content be id req,
            mk_world (calls w ++ [(id, req)]) (log w)).

Definition logger (level : log_level) (message : str) : M unit :=
  fun w => (Return tt, mk_world (calls w) (log w ++ [(level, message)])).

Definition Exception_ (message : str) : exn := mk_exn Exception message None.

(** ** The methods of [GeminiService] *)

Definition rgb : str := lit "RGB".
Definition max_size : Z := 1024.

(** The body of the loop over [images] (lines 95-113): decode, convert to
    RGB if necessary, shrink if too large, encode as JPEG. *)
Definition prepare_image (be : backend) (img_bytes : list Byte.byte) : outcome part :=
  img ← image_open be img_bytes;
  let img := if negb (str_eqb (im_mode img) rgb) then convert img rgb else img in
  img ← (if (max_size <? Z.max (Z.pos (im_width img)) (Z.pos (im_height img)))%Z
         then thumbnail img max_size max_size LANCZOS
         else Return img);
  mret (mk_part (lit "image/jpeg") (JpegData img)).

Fixpoint prepare_images (be : backend) (images : list (list Byte.byte))
  : outcome (list part) :=
  match images with
  | [] => mret []
  | img_bytes :: images' =>
      p ← prepare_image be img_bytes;
      ps ← prepare_images be images';
      mret (p :: ps)
  end.

Definition transcribe_audio (be : backend) (audio_data : list Byte.byte) : M (list N) :=
  try_M
    (_ ← logger INFO (lit "Transcribing audio of size " ++ dec_of_nat (length audio_data));
     text ← call be Model
              (mk_request TranscribePrompt
                 [mk_part (lit "audio/wav") (AudioData audio_data)]);
     _ ← logger INFO (lit "Transcription response received. Length="
                        ++ dec_of_nat (length text));
     mret text)
    (fun e =>
       _ ← logger ERROR (lit "Audio transcription failed: " ++ exn_str e);
       raise (Exception_ (lit "Audio transcription failed: " ++ exn_str e))).

(** [if context: prompt += ...]: an empty context counts as none. *)
Definition vehicle_context (context : option (list N)) : option (list N) :=
  match context with
  | Some (c :: s) => Some (c :: s)
  | Some [] | None => None
  end.

Definition analyze_vehicle_images (be : backend) (images : list (list Byte.byte))
    (context : option (list N)) : M value :=
  try_M
    (image_parts ← lift (prepare_images be images);
     text ← call be Model
              (mk_request (VehiclePrompt (vehicle_context context)) image_parts);
     lift (json_loads (clean text)))
    (fun e => raise (Exception_ (lit "Vehicle image analysis failed: " ++ exn_str e))).

Definition extract_trip_info (be : backend) (transcription : list N) : M value :=
  try_M
    (text ← call be ChatModel (mk_request (TripPrompt transcription) []);
     let '(result, warn) := trip_from_text text in
     if warn : bool then
       _ ← logger WARNING
             (lit "Failed to parse JSON from Gemini extract_trip_info output: "
                ++ strip text);
       mret result
     else mret result)
    (fun e => raise (Exception_ (lit "Trip info extraction failed: " ++ exn_str e))).

Definition analyze_earnings_pattern (be : backend) (trip_history user_context : value)
  : M value :=
  try_M
    (text ← call be ChatModel
              (mk_request (EarningsPrompt trip_history user_context) []);
     lift (json_loads (clean text)))
    (fun e => raise (Exception_ (lit "Earnings pattern analysis failed: " ++ exn_str e))).

Definition detect_fatigue (be : backend) (work_pattern : value) : M value :=
  try_M
    (text ← call be ChatModel (mk_request (FatiguePrompt work_pattern) []);
     lift (json_loads (clean text)))
    (fun e => raise (Exception_ (lit "Fatigue detection failed: " ++ exn_str e))).

Definition generate_financial_plan (be : backend)
    (user_profile goals current_finances : value) : M value :=
  try_M
    (text ← call be ChatModel
              (mk_request (PlanPrompt user_profile goals current_finances) []);
     lift (json_loads (clean text)))
    (fun e => raise (Exception_ (lit "Financial plan generation failed: " ++ exn_str e))).

Definition world0 : world := mk_world [] [].

(** The response text [t] inside a fence: [```json] before and [```] after. *)
Definition fenced (t : str) : str := fence_json ++ t ++ fence.

(** ** The six operations, side by side

    The methods have one shape: build a request, call the model, treat the
    text, and wrap any exception into [Exception(label + str(e))].  To state
    a property of several methods at once, [perform] runs the method an
    [operation] names (the transcript comes back as a [str] value),
    [request_for] is the call that method makes, which for the vehicle
    analysis exists only once every image has been prepared, and [label] is
    the text its handler puts before [str(e)]. *)
Inductive operation :=
| Transcribe (audio_data : list Byte.byte)
| VehicleImages (images : list (list Byte.byte)) (context : option (list N))
| TripInfo (transcription : list N)
| EarningsPattern (trip_history user_context : value)
| Fatigue (work_pattern : value)
| FinancialPlan (user_profile goals current_finances : value).

Definition perform (be : backend) (op : operation) : M value :=
  match op with
  | Transcribe audio_data => text ← transcribe_audio be audio_data; mret (VStr text)
  | VehicleImages images context => analyze_vehicle_images be images context
  | TripInfo transcription => extract_trip_info be transcription
  | EarningsPattern trip_history user_context =>
      analyze_earnings_pattern be trip_history user_context
  | Fatigue work_pattern => detect_fatigue be work_pattern
  | FinancialPlan user_profile goals current_finances =>
      generate_financial_plan be user_profile goals current_finances
  end.

Definition request_for (be : backend) (op : operation) : outcome (model_id * request) :=
  match op with
  | Transcribe audio_data =>
      Return (Model, mk_request TranscribePrompt
                       [mk_part (lit "audio/wav") (AudioData audio_data)])
  | VehicleImages images context =>
      image_parts ← prepare_images be images;
      Return (Model, mk_request (VehiclePrompt (vehicle_context context)) image_parts)
  | TripInfo transcription => Return (ChatModel, mk_request (TripPrompt transcription) [])
  | EarningsPattern trip_history user_context =>
      Return (ChatModel, mk_request (EarningsPrompt trip_history user_context) [])
  | Fatigue work_pattern =>
      Return (ChatModel, mk_request (FatiguePrompt work_pattern) [])
  | FinancialPlan user_profile goals current_finances =>
      Return (ChatModel,
              mk_request (PlanPrompt user_profile goals current_finances) [])
  end.

Definition label (op : operation) : str :=
  match op with
  | Transcribe _ => lit "Audio transcription failed: "
  | VehicleImages _ _ => lit "Vehicle image analysis failed: "
  | TripInfo _ => lit "Trip info extraction failed: "
  | EarningsPattern _ _ => lit "Earnings pattern analysis failed: "
  | Fatigue _ => lit "Fatigue detection failed: "
  | FinancialPlan _ _ _ => lit "Financial plan generation failed: "
  end.

(** The use cases that return [json.loads] of the cleaned text as it is:
    every structured one but trip info. *)
Definition parses_plainly (op : operation) : bool :=
  match op with
  | VehicleImages _ _ | EarningsPattern _ _ | Fatigue _ | FinancialPlan _ _ _ => true
  | Transcribe _ | TripInfo _ => false
  end.

(** Backends for the examples: the model gives every request the same
    answer, or the same exception, and the decoder gives every image the same
    outcome. *)
Definition unidentified_image : exn :=
  mk_exn (OtherError (lit "UnidentifiedImageError")) (lit "cannot identify image file")
         None.

Definition answering (text : str) : backend :=
  mk_backend (fun _ _ => Return text) (fun _ => Raise unidentified_image).

Definition failing (e : exn) : backend :=
  mk_backend (fun _ _ => Raise e) (fun _ => Raise unidentified_image).

Definition decoding (img : image) (answer : outcome (list N)) : backend :=
  mk_backend (fun _ _ => answer) (fun _ => Return img).

(** A scan result that either failed or left strictly less text than it was
    given, and did not run out of fuel. *)
Definition consumes {A} (r : scan A) (s : list N) : Prop :=
  match r with
  | Scanned _ rest => (length rest < length s)%nat
  | OutOfFuel => False
  | _ => True
  end.

(** What the loop stores for a field that is present with value [v]:
    [float(v) if v is not None else 0.0], and [0.0] when [float] raises. *)
Definition float_or_zero (v : value) : pyfloat :=
  if is_none v then fzero else default fzero (py_float v).

(** The loop on a [dict]: each numeric field that is present is replaced by
    its float, nothing else changes. *)
Definition normalize_entry (d : gmap (list N) value) (num_field : list N)
  : gmap (list N) value :=
  match d !! num_field with
  | Some v => <[num_field := VFloat (float_or_zero v)]> d
  | None => d
  end.

Definition normalize_dict (d : gmap (list N) value) : gmap (list N) value :=
  foldl normalize_entry d numeric_fields.

(** [jlit s] is [lit s] with every apostrophe read as a double quote, to
    write JSON text. *)
Definition jlit (s : string) : list N :=
  map (fun c => if c =? 39 then 34 else c) (lit s).

(** Sample data for the examples. *)
Definition quota_exceeded : exn :=
  mk_exn (OtherError (lit "ResourceExhausted")) (lit "429 quota exceeded") None.

Definition sample_trip_text : list N :=
  jlit "{'earnings': '250.5', 'fuel_cost': null, 'notes': 'airport run'}".

Definition prose_trip_text : list N :=
  jlit "Here you go: {'earnings': '5', 'notes': 'x'} hope it helps".

Definition escaped_trip_text : list N :=
  jlit "{'earnings': '12.5', 'notes': 'caf\u00e9'}".

Definition reserialized_trip_text : list N :=
  jlit "{'earnings': 12.5, 'notes': 'caf\u00e9'}".

Definition photo_4000x3000 : image :=
  mk_image (lit "RGBA") 4000 3000 (Decoded []).

Definition photo_800x600 : image :=
  mk_image rgb 800 600 (Decoded [Byte.x01]).

(** A backend whose decoder refuses empty data and reads any other data as
    the given image. *)
Definition decoding_nonempty (img : image) (text : str) : backend :=
  mk_backend (fun _ _ => Return text)
             (fun img_bytes => match img_bytes with
                               | [] => Raise unidentified_image
                               | _ :: _ => Return img
                               end).

(** The result of a scan of [s] that did not look at the text [tail] when
    [tail] stands after [s]; a scan that stopped with an error; a scan that
    gave no value. *)
Definition with_tail {A} (tail : str) (r : scan A) : scan A :=
  match r with
  | Scanned a rest => Scanned a (rest ++ tail)
  | ScanError msg unread => ScanError msg (unread + length tail)
  | other => other
  end.

Definition failed {A} (r : scan A) : Prop :=
  match r with
  | ScanError _ _ | IntTooLong _ => True
  | Scanned _ _ | OutOfFuel => False
  end.

Definition no_value {A} (r : scan A) : Prop :=
  match r with
  | Scanned _ _ => False
  | _ => True
  end.

(** * Properties *)

(** ** The embedded library functions on small inputs *)

Example strip_removes_form_feed : strip (12 :: lit " [1] " ++ [160]) = lit "[1]".
Proof. reflexivity. Qed.

Example replace_is_leftmost : str_replace (lit "aa") (lit "b") (lit "aaaaa") = lit "bba".
Proof. reflexivity. Qed.

Example clean_fenced_answer :
  clean (lit "```json" ++ [10] ++ lit "{}" ++ [10] ++ lit "```") = [10] ++ lit "{}" ++ [10].
Proof. reflexivity. Qed.

(** Removing [```json] can bring three backticks together with what follows;
    the second removal takes them away, the tag stays. *)
Example clean_leaves_tag : clean (lit "``````jsonjson") = lit "json".
Proof. reflexivity. Qed.

Example search_is_greedy :
  re_search_braces (lit "a {b} c {d} e") = Some (lit "{b} c {d}").
Proof. reflexivity. Qed.

Example search_needs_closing_brace : re_search_braces (lit "} {") = None.
Proof. reflexivity. Qed.

Example float_of_tenth :
  float_of_str (lit " 0.1 ") = Some (FFinite false 7205759403792794 (-56)).
Proof. vm_compute. reflexivity. Qed.

Example float_of_underscores : float_of_str (lit "1_000") = float_of_str (lit "1e3").
Proof. vm_compute. reflexivity. Qed.

Example float_of_rupees : float_of_str (lit "Rs 500") = None.
Proof. vm_compute. reflexivity. Qed.

Example float_of_large_int : float_of_int (10 ^ 400) = None.
Proof. vm_compute. reflexivity. Qed.

Example loads_object :
  json_loads (jlit "{'a': [1, 2.5, null], 'a': true}")
  = Return (VDict {[ lit "a" := VBool true ]}).
Proof. vm_compute. reflexivity. Qed.

Example loads_surrogate_pair :
  json_loads (jlit "'\ud83d\ude00'") = Return (VStr [128512]).
Proof. vm_compute. reflexivity. Qed.

Example loads_trailing_comma :
  json_loads (lit "[1,]")
  = Raise (mk_exn JSONDecodeError (lit "Expecting value: line 1 column 4 (char 3)")
             (Some (stop_iteration 3))).
Proof. vm_compute. reflexivity. Qed.

Example loads_extra_data :
  json_loads (lit "{} x")
  = Raise (mk_exn JSONDecodeError (lit "Extra data: line 1 column 4 (char 3)") None).
Proof. vm_compute. reflexivity. Qed.

Example trip_number_falls_to_default : trip_from_text (lit "5") = (default_trip, true).
Proof. vm_compute. reflexivity. Qed.

Example thumbnail_4000x3000 :
  thumbnail_size 4000 3000 1024 1024 = Return (Some (1024, 768)%Z).
Proof. vm_compute. reflexivity. Qed.

Example thumbnail_1025x1 :
  thumbnail_size 1025 1 1024 1024 = Return (Some (1024, 1)%Z).
Proof. vm_compute. reflexivity. Qed.

(** The two candidate heights 5 and 6 are equally far from 1024 * 15 / 2816
    in exact arithmetic; the rounded keys make it 6. *)
Example thumbnail_2816x15 :
  thumbnail_size 2816 15 1024 1024 = Return (Some (1024, 6)%Z).
Proof. vm_compute. reflexivity. Qed.

Example thumbnail_fits : thumbnail_size 1024 768 1024 1024 = Return None.
Proof. reflexivity. Qed.

Example image_open_bomb :
  image_open (decoding (mk_image rgb 20000 10000 (Decoded [])) (Return [])) []
  = Raise (mk_exn (OtherError (lit "DecompressionBombError"))
             (lit "Image size (200000000 pixels) exceeds limit of 178956970 pixels, could be decompression bomb DOS attack.")
             None).
Proof. vm_compute. reflexivity. Qed.

(** ** Running a method *)

Section Methods.
Context (be : backend).

(** A structured use case other than trip info: one call, then
    [json.loads] of the cleaned text, inside one [try]. *)
Lemma run_parse_method (id : model_id) (req : request) (label : list N) (w : world) :
  try_M (text ← call be id req; lift (json_loads (clean text)))
        (fun e => raise (Exception_ (label ++ exn_str e))) w
  = (match generate_content be id req with
     | Return text =>
         match json_loads (clean text) with
         | Return v => Return v
         | Raise e => Raise (during e (Exception_ (label ++ exn_str e)))
         end
     | Raise e => Raise (during e (Exception_ (label ++ exn_str e)))
     end,
     mk_world (calls w ++ [(id, req)]) (log w)).
Proof.
  unfold try_M, mbind, M_bind, call, lift, raise.
  destruct (generate_content be id req) as [text|e]; [|reflexivity].
  destruct (json_loads (clean text)); reflexivity.
Qed.
Lemma run_earnings (trip_history user_context : value) (w : world) :
  analyze_earnings_pattern be trip_history user_context w
  = (match generate_content be ChatModel
             (mk_request (EarningsPrompt trip_history user_context) []) with
     | Return text =>
         match json_loads (clean text) with
         | Return v => Return v
         | Raise e =>
             Raise (during e (Exception_ (lit "Earnings pattern analysis failed: " ++ exn_str e)))
         end
     | Raise e =>
         Raise (during e (Exception_ (lit "Earnings pattern analysis failed: " ++ exn_str e)))
     end,
     mk_world (calls w ++ [(ChatModel,
                 mk_request (EarningsPrompt trip_history user_context) [])]) (log w)).
Proof. apply run_parse_method. Qed.

Lemma run_fatigue (work_pattern : value) (w : world) :
  detect_fatigue be work_pattern w
  = (match generate_content be ChatModel
             (mk_request (FatiguePrompt work_pattern) []) with
     | Return text =>
         match json_loads (clean text) with
         | Return v => Return v
         | Raise e => Raise (during e (Exception_ (lit "Fatigue detection failed: " ++ exn_str e)))
         end
     | Raise e => Raise (during e (Exception_ (lit "Fatigue detection failed: " ++ exn_str e)))
     end,
     mk_world (calls w ++ [(ChatModel,
                 mk_request (FatiguePrompt work_pattern) [])]) (log w)).
Proof. apply run_parse_method. Qed.

Lemma run_plan (user_profile goals current_finances : value) (w : world) :
  generate_financial_plan be user_profile goals current_finances w
  = (match generate_content be ChatModel
             (mk_request (PlanPrompt user_profile goals current_finances) []) with
     | Return text =>
         match json_loads (clean text) with
         | Return v => Return v
         | Raise e =>
             Raise (during e (Exception_ (lit "Financial plan generation failed: " ++ exn_str e)))
         end
     | Raise e =>
         Raise (during e (Exception_ (lit "Financial plan generation failed: " ++ exn_str e)))
     end,
     mk_world (calls w ++ [(ChatModel,
                 mk_request (PlanPrompt user_profile goals current_finances) [])])
              (log w)).
Proof. apply run_parse_method. Qed.

Lemma run_vehicle (images : list (list Byte.byte)) (context : option (list N))
    (w : world) :
  analyze_vehicle_images be images context w
  = match prepare_images be images with
    | Return image_parts =>
        let req := mk_request (VehiclePrompt (vehicle_context context)) image_parts in
        (match generate_content be Model req with
         | Return text =>
             match json_loads (clean text) with
             | Return v => Return v
             | Raise e =>
                 Raise (during e (Exception_ (lit "Vehicle image analysis failed: " ++ exn_str e)))
             end
         | Raise e =>
             Raise (during e (Exception_ (lit "Vehicle image analysis failed: " ++ exn_str e)))
         end,
         mk_world (calls w ++ [(Model, req)]) (log w))
    | Raise e =>
        (Raise (during e (Exception_ (lit "Vehicle image analysis failed: " ++ exn_str e))), w)
    end.
Proof.
  unfold analyze_vehicle_images, try_M, mbind, M_bind, call, lift, raise.
  destruct (prepare_images be images) as [parts|e]; [|reflexivity].
  cbn zeta.
  destruct (generate_content be Model _) as [text|e]; [|reflexivity].
  destruct (json_loads (clean text)); reflexivity.
Qed.

Lemma run_trip (transcription : list N) (w : world) :
  extract_trip_info be transcription w
  = let req := mk_request (TripPrompt transcription) [] in
    match generate_content be ChatModel req with
    | Return text =>
        (Return (fst (trip_from_text text)),
         mk_world (calls w ++ [(ChatModel, req)])
           (if snd (trip_from_text text)
            then log w ++ [(WARNING,
                   lit "Failed to parse JSON from Gemini extract_trip_info output: "
                     ++ strip text)]
            else log w))
    | Raise e =>
        (Raise (during e (Exception_ (lit "Trip info extraction failed: " ++ exn_str e))),
         mk_world (calls w ++ [(ChatModel, req)]) (log w))
    end.
Proof.
  unfold extract_trip_info, try_M, mbind, M_bind, call, lift, raise, logger, mret, M_ret.
  cbn zeta.
  destruct (generate_content be ChatModel _) as [text|e]; [|reflexivity].
  destruct (trip_from_text text) as [result [|]]; reflexivity.
Qed.

Lemma run_transcribe (audio_data : list Byte.byte) (w : world) :
  transcribe_audio be audio_data w
  = let req := mk_request TranscribePrompt
                 [mk_part (lit "audio/wav") (AudioData audio_data)] in
    let started := (INFO, lit "Transcribing audio of size "
                            ++ dec_of_nat (length audio_data)) in
    match generate_content be Model req with
    | Return text =>
        (Return text,
         mk_world (calls w ++ [(Model, req)])
           ((log w ++ [started])
              ++ [(INFO, lit "Transcription response received. Length="
                           ++ dec_of_nat (length text))]))
    | Raise e =>
        (Raise (during e (Exception_ (lit "Audio transcription failed: " ++ exn_str e))),
         mk_world (calls w ++ [(Model, req)])
           ((log w ++ [started])
              ++ [(ERROR, lit "Audio transcription failed: " ++ exn_str e)]))
    end.
Proof.
  unfold transcribe_audio, try_M, mbind, M_bind, call, lift, raise, logger, mret, M_ret.
  cbn zeta. cbn [calls log].
  destruct (generate_content be Model _) as [text|e]; reflexivity.
Qed.
End Methods.

(** ** [json.loads] is total: the fuel it starts with is never used up *)

Lemma skip_ws_length (s : list N) : (length (skip_ws s) <= length s)%nat.
Proof.
  induction s as [|c s IH]; simpl; [lia|].
  destruct (json_ws c); simpl; lia.
Qed.

Lemma take_digits_length (s : list N) : forall acc n m n' r,
  take_digits acc n s = (m, n', r) ->
  (length r + n' = length s + n)%nat /\ (n <= n')%nat.
Proof.
  induction s as [|c s IH]; simpl; intros acc n m n' r H.
  - injection H as <- <- <-. simpl. lia.
  - destruct (is_digit c).
    + apply IH in H. lia.
    + injection H as <- <- <-. simpl. lia.
Qed.

Lemma parse_exponent_length (s : list N) e r :
  parse_exponent s = (e, r) -> (length r <= length s)%nat.
Proof.
  unfold parse_exponent. destruct s as [|c s1]; [intros [= <- <-]; simpl; lia|].
  destruct ((c =? 101) || (c =? 69)); [|intros [= <- <-]; lia].
  destruct (match s1 with
            | [] => (false, s1)
            | d :: s2 => if d =? 45 then (true, s2)
                         else if d =? 43 then (false, s2) else (false, s1)
            end) as [neg s2] eqn:Hsign.
  assert (length s2 <= length s1)%nat as Hs2.
  { destruct s1 as [|d s1']; [injection Hsign as <- <-; lia|].
    destruct (d =? 45); [injection Hsign as <- <-; simpl; lia|].
    destruct (d =? 43); injection Hsign as <- <-; simpl; lia. }
  destruct (take_digits 0 0 s2) as [[e' n] rest] eqn:Hd.
  apply take_digits_length in Hd.
  destruct n; intros [= <- <-]; simpl; lia.
Qed.

Lemma match_number_consumes (s : list N) : consumes (match_number s) s.
Proof.
  unfold match_number.
  destruct (match s with
            | [] => (false, s)
            | c :: s' => if c =? 45 then (true, s') else (false, s)
            end) as [neg s1] eqn:Hsign.
  assert (length s1 <= length s)%nat as Hs1.
  { destruct s as [|c s']; [injection Hsign as <- <-; lia|].
    destruct (c =? 45); injection Hsign as <- <-; simpl; lia. }
  destruct (match s1 with
            | [] => None
            | c :: s' =>
                if (49 <=? c) && (c <=? 57) then Some (take_digits 0 0%nat s1)
                else if c =? 48 then Some (0, 1%nat, s') else None
            end) as [[[ip ni] s2]|] eqn:Hint; [|exact I].
  assert (length s2 < length s1)%nat as Hs2.
  { destruct s1 as [|c s']; [discriminate|].
    destruct ((49 <=? c) && (c <=? 57)) eqn:Hc.
    - injection Hint as Hint. simpl in Hint.
      assert (is_digit c = true) as Hd.
      { unfold is_digit. apply andb_true_iff in Hc as [H1 H2].
        apply andb_true_iff. split; [|exact H2].
        apply N.leb_le in H1. apply N.leb_le. lia. }
      rewrite Hd in Hint.
      apply take_digits_length in Hint. simpl. lia.
    - destruct (c =? 48); [|discriminate].
      injection Hint as <- <- <-. simpl. lia. }
  destruct (match s2 with
            | c :: d :: _ =>
                if (c =? 46) && is_digit d then take_digits ip 0%nat (tl s2)
                else (ip, 0%nat, s2)
            | _ => (ip, 0%nat, s2)
            end) as [[m nf] s3] eqn:Hfrac.
  assert (length s3 <= length s2)%nat as Hs3.
  { destruct s2 as [|c [|d s2']]; try (injection Hfrac as <- <- <-; lia).
    destruct ((c =? 46) && is_digit d).
    - apply take_digits_length in Hfrac. simpl in *. lia.
    - injection Hfrac as <- <- <-. lia. }
  destruct (parse_exponent s3) as [e s4] eqn:Hexp.
  apply parse_exponent_length in Hexp.
  destruct ((0 <? nf)%nat || negb (length s4 =? length s3)%nat); [simpl; lia|].
  destruct (4300 <? ni)%nat; simpl; [exact I|lia].
Qed.

Lemma hex4_length (s : list N) u r :
  hex4 s = Some (u, r) -> length s = (4 + length r)%nat.
Proof.
  unfold hex4. destruct s as [|a [|b [|c [|d rest]]]]; try discriminate.
  destruct (hex_digit a), (hex_digit b), (hex_digit c), (hex_digit d); try discriminate.
  intros [= <- <-]. reflexivity.
Qed.

Lemma consumes_shorter {A} (r : scan A) (s s' : list N) :
  consumes r s -> (length s <= length s')%nat -> consumes r s'.
Proof. destruct r; simpl; lia. Qed.

Lemma scanstring_consumes (fuel : nat) : forall begin s,
  (length s < fuel)%nat -> consumes (scanstring fuel begin s) s.
Proof.
  induction fuel as [|fuel IH]; intros begin s Hlen; [lia|].
  assert (forall c rest, (length rest < length s)%nat ->
            consumes (match scanstring fuel begin rest with
                      | Scanned x r => Scanned (c :: x) r
                      | other => other
                      end) s) as Hcont.
  { intros c rest Hrest. pose proof (IH begin rest ltac:(lia)) as Hr.
    destruct (scanstring fuel begin rest); simpl in *; auto; lia. }
  simpl. destruct s as [|c s1]; [exact I|].
  destruct (c =? 34); [simpl; lia|].
  destruct (c =? 92); [|destruct (c <=? 31); [exact I|apply Hcont; simpl; lia]].
  destruct s1 as [|e s2]; [exact I|].
  destruct (e =? 117).
  - destruct (hex4 s2) as [[u s3]|] eqn:Hu; [|exact I].
    apply hex4_length in Hu.
    destruct s3 as [|b [|v s4]]; [exact I|apply Hcont; simpl in *; lia|].
    match goal with
    | |- consumes (if ?cond then _ else _) _ =>
        destruct cond; [|apply Hcont; simpl in *; lia]
    end.
    destruct (hex4 s4) as [[u2 s5]|] eqn:Hu2; [|exact I].
    apply hex4_length in Hu2.
    destruct (is_low_surrogate u2); apply Hcont; simpl in *; lia.
  - destruct (escape_char e); [apply Hcont; simpl; lia|exact I].
Qed.

Lemma consumes_startswith {A} (p s : list N) (a : A) :
  p <> [] -> startswith p s = true -> consumes (Scanned a (drop (length p) s)) s.
Proof.
  intros Hp Hs. simpl.
  assert (length p <= length s)%nat.
  { clear Hp. revert s Hs. induction p as [|x p IH]; intros s Hs; simpl; [lia|].
    destruct s as [|y s]; [discriminate|]. simpl in Hs.
    apply andb_true_iff in Hs as [_ Hs]. apply IH in Hs. simpl. lia. }
  rewrite length_drop. destruct p; [congruence|]. simpl in *. lia.
Qed.

Lemma scan_once_S (fuel : nat) (s : list N) :
  scan_once (S fuel) s =
  match s with
  | [] => ScanError expecting_value O
  | c :: s1 =>
      if c =? 34 then
        match scanstring (S (length s1)) (length s) s1 with
        | Scanned x rest => Scanned (VStr x) rest
        | ScanError msg n => ScanError msg n
        | IntTooLong n => IntTooLong n
        | OutOfFuel => OutOfFuel
        end
      else if c =? 123 then
        match skip_ws s1 with
        | 125 :: rest => Scanned (VDict ∅) rest
        | s2 => scan_members fuel ∅ s2
        end
      else if c =? 91 then
        match skip_ws s1 with
        | 93 :: rest => Scanned (VList []) rest
        | s2 => scan_elements fuel s2
        end
      else if startswith (lit "null") s then Scanned VNone (drop 4 s)
      else if startswith (lit "true") s then Scanned (VBool true) (drop 4 s)
      else if startswith (lit "false") s then Scanned (VBool false) (drop 5 s)
      else if startswith (lit "NaN") s then Scanned (VFloat FNaN) (drop 3 s)
      else if startswith (lit "Infinity") s then
        Scanned (VFloat (FInf false)) (drop 8 s)
      else if startswith (lit "-Infinity") s then
        Scanned (VFloat (FInf true)) (drop 9 s)
      else match_number s
  end.
Proof. reflexivity. Qed.

Lemma scan_members_S (fuel : nat) (acc : gmap (list N) value) (s : list N) :
  scan_members (S fuel) acc s =
  match s with
  | 34 :: s1 =>
      match scanstring (S (length s1)) (length s) s1 with
      | Scanned key s2 =>
          match skip_ws s2 with
          | 58 :: s3 =>
              match scan_once fuel (skip_ws s3) with
              | Scanned v s4 =>
                  let acc' := <[key := v]> acc in
                  match skip_ws s4 with
                  | 125 :: rest => Scanned (VDict acc') rest
                  | 44 :: s5 => scan_members fuel acc' (skip_ws s5)
                  | s5 => ScanError expecting_comma (length s5)
                  end
              | other => other
              end
          | s3 => ScanError expecting_colon (length s3)
          end
      | ScanError msg n => ScanError msg n
      | IntTooLong n => IntTooLong n
      | OutOfFuel => OutOfFuel
      end
  | _ => ScanError expecting_name (length s)
  end.
Proof. reflexivity. Qed.

Lemma scan_elements_S (fuel : nat) (s : list N) :
  scan_elements (S fuel) s =
  match scan_once fuel s with
  | Scanned v s1 =>
      match skip_ws s1 with
      | 93 :: rest => Scanned (VList [v]) rest
      | 44 :: s2 =>
          match scan_elements fuel (skip_ws s2) with
          | Scanned (VList l) rest => Scanned (VList (v :: l)) rest
          | other => other
          end
      | s2 => ScanError expecting_comma (length s2)
      end
  | other => other
  end.
Proof. reflexivity. Qed.

(** Settle a match on a character that is known to differ from the one
    matched. *)
Ltac other_char c tac :=
  let p := fresh "p" in
  destruct c as [|p]; [tac|];
  repeat (destruct p as [p|p|]; try tac); congruence.

(** A character is the given one or another one. *)
Ltac split_char c n :=
  let H := fresh "Hc" in
  destruct (N.eq_dec c n) as [->|H];
  [|assert (N.eqb c n = false) by (apply N.eqb_neq; exact H)].

Lemma scan_consumes (fuel : nat) :
  (forall s, (2 * length s + 1 <= fuel)%nat -> consumes (scan_once fuel s) s)
  /\ (forall acc s, (2 * length s + 2 <= fuel)%nat -> consumes (scan_members fuel acc s) s)
  /\ (forall s, (2 * length s + 2 <= fuel)%nat -> consumes (scan_elements fuel s) s).
Proof.
  induction fuel as [|fuel (IHonce & IHmembers & IHelements)].
  { repeat split; intros; lia. }
  repeat split.
  - intros s Hlen. rewrite scan_once_S.
    destruct s as [|c s1]; [exact I|]. cbn [length] in Hlen.
    destruct (c =? 34).
    { pose proof (scanstring_consumes (S (length s1)) (length (c :: s1)) s1
                    ltac:(lia)) as Hs.
      destruct (scanstring (S (length s1)) (length (c :: s1)) s1);
        cbn [consumes length] in *; try exact I; [lia|exact Hs]. }
    pose proof (skip_ws_length s1) as Hws.
    destruct (c =? 123).
    { assert (consumes (scan_members fuel ∅ (skip_ws s1)) (c :: s1)) as Hm.
      { apply consumes_shorter with (skip_ws s1); [apply IHmembers|]; cbn [length]; lia. }
      destruct (skip_ws s1) as [|d s2] eqn:Hskip; [exact Hm|].
      split_char d 125; [cbn [consumes length] in *; lia|].
      other_char d ltac:(exact Hm). }
    destruct (c =? 91).
    { assert (consumes (scan_elements fuel (skip_ws s1)) (c :: s1)) as Hm.
      { apply consumes_shorter with (skip_ws s1); [apply IHelements|]; cbn [length]; lia. }
      destruct (skip_ws s1) as [|d s2] eqn:Hskip; [exact Hm|].
      split_char d 93; [cbn [consumes length] in *; lia|].
      other_char d ltac:(exact Hm). }
    repeat match goal with
           | |- consumes (if startswith ?p ?s then _ else _) _ =>
               let H := fresh in
               destruct (startswith p s) eqn:H;
               [exact (consumes_startswith p s _ ltac:(discriminate) H)|]
           end.
    apply match_number_consumes.
  - intros acc s Hlen. rewrite scan_members_S.
    destruct s as [|c s1]; [exact I|].
    split_char c 34.
    2:{ other_char c ltac:(exact I). }
    pose proof (scanstring_consumes (S (length s1)) (length (34 :: s1)) s1 ltac:(lia)) as Hs.
    destruct (scanstring (S (length s1)) (length (34 :: s1)) s1) as [key s2| | |];
      try exact I; [|destruct Hs].
    cbn [consumes length] in Hs, Hlen.
    pose proof (skip_ws_length s2) as Hws2.
    destruct (skip_ws s2) as [|d s3]; [exact I|].
    split_char d 58.
    2:{ other_char d ltac:(exact I). }
    pose proof (skip_ws_length s3) as Hws3. cbn [length] in Hws2.
    pose proof (IHonce (skip_ws s3) ltac:(lia)) as Hv.
    destruct (scan_once fuel (skip_ws s3)) as [v s4| | |]; try exact I; [|destruct Hv].
    cbn [consumes] in Hv. cbn zeta.
    pose proof (skip_ws_length s4) as Hws4.
    destruct (skip_ws s4) as [|e s5]; [exact I|]. cbn [length] in Hws4.
    split_char e 125; [cbn [consumes length]; lia|].
    split_char e 44.
    + pose proof (skip_ws_length s5) as Hws5.
      apply consumes_shorter with (skip_ws s5); [apply IHmembers|]; cbn [length]; lia.
    + other_char e ltac:(exact I).
  - intros s Hlen. rewrite scan_elements_S.
    pose proof (IHonce s ltac:(lia)) as Hv.
    destruct (scan_once fuel s) as [v s1| | |]; try exact I; [|destruct Hv].
    cbn [consumes] in Hv.
    pose proof (skip_ws_length s1) as Hws1.
    destruct (skip_ws s1) as [|e s2]; [exact I|]. cbn [length] in Hws1.
    split_char e 93; [cbn [consumes length]; lia|].
    split_char e 44.
    + pose proof (skip_ws_length s2) as Hws2.
      pose proof (IHelements (skip_ws s2) ltac:(lia)) as Hr.
      destruct (scan_elements fuel (skip_ws s2)) as [[] rest| | |];
        cbn [consumes] in *; try exact I; lia.
    + other_char e ltac:(exact I).
Qed.

(** [json.loads] never runs out of fuel. *)
Lemma json_loads_total (s : list N) :
  scan_once (2 * length s + 2) (skip_ws s) <> OutOfFuel.
Proof.
  pose proof (skip_ws_length s) as Hws.
  pose proof (proj1 (scan_consumes (2 * length s + 2)) (skip_ws s) ltac:(lia)) as H.
  intros Heq. rewrite Heq in H. exact H.
Qed.

Lemma json_loads_no_recursion_error (s : list N) : json_loads s <> Raise recursion_error.
Proof.
  unfold json_loads. pose proof (json_loads_total s) as Htotal.
  destruct (startswith [65279] s); [discriminate|].
  destruct (scan_once (2 * length s + 2) (skip_ws s)) as [v rest| | |];
    try discriminate; [|congruence].
  destruct (skip_ws rest); discriminate.
Qed.

(** A document that starts with a brace parses to a [dict] or not at all. *)
Lemma scan_members_dict (fuel : nat) : forall acc s v rest,
  scan_members fuel acc s = Scanned v rest -> exists d, v = VDict d.
Proof.
  induction fuel as [|fuel IH]; intros acc s v rest; [discriminate|].
  rewrite scan_members_S.
  destruct s as [|c s1]; [discriminate|].
  split_char c 34; [|other_char c ltac:(discriminate)].
  destruct (scanstring _ _ s1) as [key s2| | |]; try discriminate.
  destruct (skip_ws s2) as [|d s3]; [discriminate|].
  split_char d 58; [|other_char d ltac:(discriminate)].
  destruct (scan_once fuel (skip_ws s3)) as [v' s4| | |]; try discriminate.
  cbn zeta. destruct (skip_ws s4) as [|e s5]; [discriminate|].
  split_char e 125; [intros [= <- <-]; eauto|].
  split_char e 44; [apply IH|other_char e ltac:(discriminate)].
Qed.

Lemma scan_once_brace_dict (fuel : nat) (s : list N) (v : value) (rest : list N) :
  scan_once fuel (lbrace :: s) = Scanned v rest -> exists d, v = VDict d.
Proof.
  destruct fuel as [|fuel]; [discriminate|].
  rewrite scan_once_S.
  change (lbrace =? 34) with false. change (lbrace =? 123) with true. cbn iota.
  destruct (skip_ws s) as [|d s2]; [apply scan_members_dict|].
  split_char d 125; [intros [= <- <-]; eauto|].
  other_char d ltac:(apply scan_members_dict).
Qed.

Lemma json_loads_brace_dict (s : list N) (v : value) :
  json_loads (lbrace :: s) = Return v -> exists d, v = VDict d.
Proof.
  unfold json_loads.
  change (startswith [65279] (lbrace :: s)) with false.
  change (skip_ws (lbrace :: s)) with (lbrace :: s).
  destruct (scan_once _ (lbrace :: s)) as [v' rest| | |] eqn:Hs; try discriminate.
  apply scan_once_brace_dict in Hs as [d ->].
  destruct (skip_ws rest); [intros [= <-]; eauto|discriminate].
Qed.

(** ** The normalisation loop *)

Lemma normalize_field_dict (d : gmap (list N) value) (f : list N) :
  normalize_field (VDict d) f = Some (VDict (normalize_entry d f)).
Proof.
  unfold normalize_field, normalize_entry, float_or_zero.
  cbn [field_present get_item set_item].
  destruct (d !! f) as [v|] eqn:Hv.
  - rewrite bool_decide_eq_true_2 by eauto. cbn.
    destruct (is_none v); cbn; [reflexivity|].
    destruct (py_float v); reflexivity.
  - rewrite bool_decide_eq_false_2 by (intros [? ?]; discriminate). reflexivity.
Qed.

Lemma normalize_fields_dict (fs : list (list N)) : forall d,
  normalize_fields fs (VDict d) = Some (VDict (foldl normalize_entry d fs)).
Proof.
  induction fs as [|f fs IH]; intros d; [reflexivity|].
  cbn [normalize_fields foldl]. rewrite normalize_field_dict. cbn. apply IH.
Qed.

Lemma normalize_entry_lookup (d : gmap (list N) value) (f k : list N) :
  normalize_entry d f !! k
  = if decide (k = f) then (fun v => VFloat (float_or_zero v)) <$> d !! k else d !! k.
Proof.
  unfold normalize_entry. destruct (decide (k = f)) as [->|Hne].
  - destruct (d !! f) as [v|] eqn:Hv; [rewrite lookup_insert_eq|rewrite Hv]; reflexivity.
  - destruct (d !! f); [rewrite lookup_insert_ne by congruence|]; reflexivity.
Qed.

Lemma float_or_zero_float (x : pyfloat) : float_or_zero (VFloat x) = x.
Proof. reflexivity. Qed.

Lemma foldl_normalize_lookup (fs : list (list N)) : forall d k,
  foldl normalize_entry d fs !! k
  = if decide (k ∈ fs) then (fun v => VFloat (float_or_zero v)) <$> d !! k else d !! k.
Proof.
  induction fs as [|f fs IH]; intros d k; cbn [foldl].
  - destruct (decide (k ∈ [])) as [Hin|_]; [inversion Hin|reflexivity].
  - rewrite IH, normalize_entry_lookup.
    destruct (decide (k = f)) as [->|Hne].
    + destruct (decide (f ∈ f :: fs)) as [_|Hnin]; [|exfalso; apply Hnin; left].
      destruct (decide (f ∈ fs)); [|reflexivity].
      destruct (d !! f); reflexivity.
    + destruct (decide (k ∈ fs)) as [Hin|Hnin].
      * destruct (decide (k ∈ f :: fs)) as [_|Hnin']; [reflexivity|].
        exfalso. apply Hnin'. right. exact Hin.
      * destruct (decide (k ∈ f :: fs)) as [Hin'|_]; [|reflexivity].
        apply elem_of_cons in Hin' as [?|?]; congruence.
Qed.

Lemma normalize_dict_lookup (d : gmap (list N) value) (k : list N) :
  normalize_dict d !! k
  = if decide (k ∈ numeric_fields)
    then (fun v => VFloat (float_or_zero v)) <$> d !! k else d !! k.
Proof. apply foldl_normalize_lookup. Qed.

Lemma normalize_dict_idempotent (d : gmap (list N) value) :
  normalize_dict (normalize_dict d) = normalize_dict d.
Proof.
  apply map_eq. intros k. rewrite !normalize_dict_lookup.
  destruct (decide (k ∈ numeric_fields)); [|reflexivity].
  destruct (d !! k); reflexivity.
Qed.

(** On anything but a [dict] the loop either raises or changes nothing. *)
Lemma normalize_field_other (v r : value) (f : list N) :
  (forall d, v <> VDict d) -> normalize_field v f = Some r -> r = v.
Proof.
  intros Hv. unfold normalize_field.
  destruct v as [| | | |s|l|d]; cbn; try discriminate.
  - destruct (str_contains f s); cbn; [discriminate|congruence].
  - destruct (existsb _ l); cbn; [discriminate|congruence].
  - destruct (Hv d eq_refl).
Qed.

Lemma normalize_fields_other (fs : list (list N)) (v r : value) :
  (forall d, v <> VDict d) -> normalize_fields fs v = Some r -> r = v.
Proof.
  intros Hv. induction fs as [|f fs IH]; cbn; [congruence|].
  destruct (normalize_field v f) as [v'|] eqn:Hf; cbn; [|discriminate].
  apply normalize_field_other in Hf as ->; assumption.
Qed.

(** What the loop returns, it leaves as it is. *)
Lemma normalize_fields_fixpoint (v r : value) :
  normalize_fields numeric_fields v = Some r ->
  normalize_fields numeric_fields r = Some r.
Proof.
  intros H.
  assert ((exists d, v = VDict d) \/ (forall d, v <> VDict d)) as [[d ->]|Hv].
  { destruct v; eauto; right; discriminate. }
  - rewrite normalize_fields_dict in H. injection H as <-.
    rewrite normalize_fields_dict. do 2 f_equal.
    exact (normalize_dict_idempotent d).
  - pose proof (normalize_fields_other _ _ _ Hv H) as ->. exact H.
Qed.

Lemma normalize_default_trip :
  normalize_fields numeric_fields default_trip = Some default_trip.
Proof. vm_compute. reflexivity. Qed.

(** ** Strings: fences, braces and white space *)

Lemma fence_json_chars : fence_json = [96; 96; 96; 106; 115; 111; 110].
Proof. reflexivity. Qed.

Lemma fence_chars : fence = [96; 96; 96].
Proof. reflexivity. Qed.

Lemma char_eqb_eq (a b : N) : char_eqb a b = true <-> a = b.
Proof. apply N.eqb_eq. Qed.

Lemma startswith_length (p s : list N) :
  startswith p s = true -> (length p <= length s)%nat.
Proof.
  revert s. induction p as [|x p IH]; intros s H; cbn; [lia|].
  destruct s as [|y s]; [discriminate|]. cbn in H.
  apply andb_true_iff in H as [_ H]. apply IH in H. cbn. lia.
Qed.

Lemma startswith_app (p s t : list N) :
  startswith p s = true -> startswith p (s ++ t) = true.
Proof.
  revert s. induction p as [|x p IH]; intros s H; [reflexivity|].
  destruct s as [|y s]; [discriminate|]. cbn in *.
  apply andb_true_iff in H as [-> H]. apply IH in H. rewrite H. reflexivity.
Qed.

(** Case analysis on whether a character is the backtick. *)
Ltac backtick c :=
  let H := fresh "Hc" in
  destruct (N.eqb_spec 96 c) as [<-|H].

(** The closing fence cannot complete an occurrence of [```json]. *)
Lemma startswith_fence_json_app (s : list N) :
  startswith fence_json (s ++ fence) = startswith fence_json s.
Proof.
  rewrite fence_json_chars, fence_chars.
  destruct s as [|c0 [|c1 [|c2 [|c3 [|c4 [|c5 [|c6 s]]]]]]]; cbn [startswith app];
    unfold char_eqb;
    repeat match goal with
           | |- context [N.eqb ?a ?b] => is_var b; destruct (N.eqb a b); cbn [andb]
           end; reflexivity.
Qed.

Lemma remove_fence_json_app (t : list N) : forall k,
  (k <= length t)%nat ->
  replace_from fence_json [] k (t ++ fence) = replace_from fence_json [] k t ++ fence.
Proof.
  induction t as [|c t IH]; intros k Hk.
  - cbn in Hk. replace k with O by lia. reflexivity.
  - destruct k as [|k].
    + cbn [replace_from app].
      change (startswith fence_json (c :: t ++ fence))
        with (startswith fence_json ((c :: t) ++ fence)).
      rewrite startswith_fence_json_app.
      destruct (startswith fence_json (c :: t)) eqn:Hs.
      * apply startswith_length in Hs. cbn in Hs. cbn [app]. apply IH. cbn. lia.
      * cbn [app]. f_equal. apply IH. lia.
    + cbn [replace_from app]. apply IH. cbn in Hk. lia.
Qed.

Lemma startswith_fence_app_inv (s : list N) :
  startswith fence (s ++ fence) = true ->
  startswith fence s = true \/ s = [] \/ s = [96] \/ s = [96; 96].
Proof.
  rewrite fence_chars.
  destruct s as [|c0 [|c1 [|c2 s]]]; cbn [startswith app]; unfold char_eqb.
  - auto.
  - backtick c0; cbn [andb]; [auto|intros; discriminate].
  - backtick c0; cbn [andb]; [|intros; discriminate].
    backtick c1; cbn [andb]; [auto|intros; discriminate].
  - auto.
Qed.

Lemma remove_fence_app (u : list N) : forall k,
  (k <= length u)%nat ->
  replace_from fence [] k (u ++ fence) = replace_from fence [] k u.
Proof.
  induction u as [|c u IH]; intros k Hk.
  - cbn in Hk. replace k with O by lia. reflexivity.
  - destruct k as [|k]; [|cbn [replace_from app]; apply IH; cbn in Hk; lia].
    cbn [replace_from app].
    change (startswith fence (c :: u ++ fence)) with (startswith fence ((c :: u) ++ fence)).
    destruct (startswith fence (c :: u)) eqn:Hs.
    + rewrite (startswith_app _ _ _ Hs).
      apply startswith_length in Hs. cbn in Hs. cbn [app]. apply IH. cbn. lia.
    + destruct (startswith fence ((c :: u) ++ fence)) eqn:Hs'.
      * apply startswith_fence_app_inv in Hs' as [Hs'|[Hs'|[Hs'|Hs']]];
          [congruence|discriminate| |]; injection Hs' as -> ->; reflexivity.
      * f_equal. apply IH. lia.
Qed.

Lemma str_replace_fence_json (s : list N) :
  str_replace fence_json [] s = replace_from fence_json [] 0 s.
Proof. reflexivity. Qed.

Lemma str_replace_fence (s : list N) :
  str_replace fence [] s = replace_from fence [] 0 s.
Proof. reflexivity. Qed.

Lemma remove_fence_json_prefix (s : list N) :
  replace_from fence_json [] 0 (fence_json ++ s) = replace_from fence_json [] 0 s.
Proof. reflexivity. Qed.

(** The clean-up does not see the fence around a text. *)
Lemma remove_fences_fenced (t : list N) : remove_fences (fenced t) = remove_fences t.
Proof.
  unfold remove_fences, fenced.
  rewrite !str_replace_fence_json, !str_replace_fence.
  rewrite remove_fence_json_prefix, remove_fence_json_app by lia.
  apply remove_fence_app. lia.
Qed.

Lemma lstrip_nonspace (c : N) (s : list N) :
  py_isspace c = false -> lstrip (c :: s) = c :: s.
Proof. intros H. cbn. rewrite H. reflexivity. Qed.

Lemma strip_fenced (t : list N) : strip (fenced t) = fenced t.
Proof.
  unfold strip, rstrip.
  assert (lstrip (fenced t) = fenced t) as -> by reflexivity.
  assert (fenced t = (fence_json ++ t ++ [96; 96]) ++ [96]) as ->.
  { unfold fenced. rewrite fence_chars, <- !app_assoc. reflexivity. }
  rewrite rev_app_distr. cbn [rev app]. rewrite lstrip_nonspace by reflexivity.
  cbn [rev]. rewrite rev_involutive. reflexivity.
Qed.

Lemma drop_until_app (c : N) (a b : list N) :
  drop_until c (a ++ b)
  = match drop_until c a with
    | [] => drop_until c b
    | x :: r => (x :: r) ++ b
    end.
Proof.
  induction a as [|x a IH]; [reflexivity|]. cbn.
  destruct (char_eqb x c); [reflexivity|]. exact IH.
Qed.

Lemma drop_until_absent (c : N) (a : list N) : c ∉ a -> drop_until c a = [].
Proof.
  induction a as [|x a IH]; intros Hc; [reflexivity|]. cbn.
  destruct (char_eqb x c) eqn:Hx.
  - apply char_eqb_eq in Hx as ->. destruct Hc. left.
  - apply IH. intros Hin. apply Hc. right. exact Hin.
Qed.

Lemma drop_until_head (c : N) (s : list N) (x : N) (r : list N) :
  drop_until c s = x :: r -> x = c.
Proof.
  induction s as [|y s IH]; [discriminate|]. cbn.
  destruct (char_eqb y c) eqn:Hy; [|exact IH].
  apply char_eqb_eq in Hy as ->. congruence.
Qed.

Lemma re_search_braces_head (s block : list N) :
  re_search_braces s = Some block -> exists rest, block = lbrace :: rest.
Proof.
  unfold re_search_braces. destruct (drop_until lbrace s) as [|b rest] eqn:Hd; [discriminate|].
  apply drop_until_head in Hd as ->.
  destruct (drop_until rbrace (rev rest)); [discriminate|]. intros [= <-]. eauto.
Qed.

(** The pattern finds a brace block between text without an opening brace
    and text without a closing brace. *)
Lemma re_search_braces_block (pre mid post : list N) :
  lbrace ∉ pre -> rbrace ∉ post ->
  re_search_braces (pre ++ (lbrace :: mid ++ [rbrace]) ++ post)
  = Some (lbrace :: mid ++ [rbrace]).
Proof.
  intros Hpre Hpost. unfold re_search_braces.
  rewrite drop_until_app, (drop_until_absent _ _ Hpre). cbn [app drop_until].
  change (char_eqb lbrace lbrace) with true. cbn iota.
  rewrite <- app_assoc, rev_app_distr, rev_app_distr. cbn [rev app].
  assert (rbrace ∉ rev post) as Hrev.
  { intros Hin. apply Hpost. apply list_elem_of_In, in_rev, list_elem_of_In. exact Hin. }
  rewrite <- app_assoc, drop_until_app, (drop_until_absent _ _ Hrev).
  cbn [app drop_until]. change (char_eqb rbrace rbrace) with true. cbn iota.
  rewrite rev_involutive. reflexivity.
Qed.

Lemma re_search_braces_fenced (t : list N) :
  re_search_braces (fenced t) = re_search_braces t.
Proof.
  unfold re_search_braces, fenced.
  rewrite fence_json_chars. cbn [app drop_until].
  change (char_eqb 96 lbrace) with false. change (char_eqb 106 lbrace) with false.
  change (char_eqb 115 lbrace) with false. change (char_eqb 111 lbrace) with false.
  change (char_eqb 110 lbrace) with false. cbn iota.
  rewrite drop_until_app.
  destruct (drop_until lbrace t) as [|b rest]; [reflexivity|].
  cbn [app]. rewrite rev_app_distr. rewrite fence_chars. cbn [rev app drop_until].
  change (char_eqb 96 rbrace) with false. cbn iota. reflexivity.
Qed.

(** After the removal no fence marker is left.  A text that does not start
    with two backticks still does not after the removal. *)
Lemma replace_from_nomatch (old new : list N) (c : N) (s : list N) :
  startswith old (c :: s) = false ->
  replace_from old new 0 (c :: s) = c :: replace_from old new 0 s.
Proof. intros H. cbn [replace_from]. rewrite H. reflexivity. Qed.

Lemma startswith_cons_ne (x c : N) (p s : list N) :
  c <> x -> startswith (x :: p) (c :: s) = false.
Proof.
  intros H. cbn [startswith]. unfold char_eqb.
  rewrite (proj2 (N.eqb_neq x c)) by congruence. reflexivity.
Qed.

Lemma remove_fence_two_backticks (s : list N) :
  startswith [96; 96] s = false ->
  startswith [96; 96] (replace_from fence [] 0 s) = false.
Proof.
  rewrite fence_chars.
  destruct s as [|c1 s]; [reflexivity|].
  destruct (N.eq_dec c1 96) as [->|H1].
  2:{ intros _. rewrite replace_from_nomatch by (apply startswith_cons_ne; exact H1).
      apply startswith_cons_ne. exact H1. }
  destruct s as [|c2 s]; [reflexivity|].
  destruct (N.eq_dec c2 96) as [->|H2]; [discriminate|]. intros _.
  assert (startswith [96; 96; 96] (96 :: c2 :: s) = false) as Hno.
  { cbn [startswith]. unfold char_eqb.
    rewrite (proj2 (N.eqb_neq 96 c2)) by congruence. reflexivity. }
  rewrite (replace_from_nomatch _ _ _ _ Hno).
  rewrite replace_from_nomatch by (apply startswith_cons_ne; exact H2).
  cbn [startswith]. unfold char_eqb.
  rewrite (proj2 (N.eqb_neq 96 c2)) by congruence. reflexivity.
Qed.

Lemma remove_fence_no_fence (s : list N) : forall k,
  str_contains fence (replace_from fence [] k s) = false.
Proof.
  induction s as [|c s IH]; intros k; [destruct k; reflexivity|].
  destruct k as [|k]; [|cbn [replace_from]; apply IH].
  cbn [replace_from]. destruct (startswith fence (c :: s)) eqn:Hs; [apply IH|].
  cbn [app str_contains]. rewrite IH, orb_false_r.
  revert Hs. rewrite fence_chars. cbn [startswith]. unfold char_eqb.
  backtick c; cbn [andb]; [|reflexivity].
  intros Hs. apply (remove_fence_two_backticks s Hs).
Qed.

Lemma clean_no_fence (s : list N) : str_contains fence (clean s) = false.
Proof.
  unfold clean, remove_fences. rewrite str_replace_fence. apply remove_fence_no_fence.
Qed.

(** A text without a fence marker is left as it is. *)
Lemma startswith_fence_json_fence (s : list N) :
  startswith fence_json s = true -> startswith fence s = true.
Proof.
  rewrite fence_json_chars, fence_chars.
  destruct s as [|c0 [|c1 [|c2 s]]]; cbn [startswith]; try discriminate;
    try (rewrite !andb_false_r; discriminate).
  intros H. apply andb_true_iff in H as [-> H]. apply andb_true_iff in H as [-> H].
  apply andb_true_iff in H as [-> H]. reflexivity.
Qed.

Lemma remove_fences_id (s : list N) :
  str_contains fence s = false -> remove_fences s = s.
Proof.
  intros Hs. unfold remove_fences.
  rewrite str_replace_fence_json, str_replace_fence.
  assert (replace_from fence_json [] 0 s = s) as ->.
  { induction s as [|c s IH]; [reflexivity|].
    cbn [str_contains] in Hs. apply orb_false_iff in Hs as [Hhere Hrest].
    cbn [replace_from]. destruct (startswith fence_json (c :: s)) eqn:Hj.
    - apply startswith_fence_json_fence in Hj. congruence.
    - rewrite (IH Hrest). reflexivity. }
  induction s as [|c s IH]; [reflexivity|].
  cbn [str_contains] in Hs. apply orb_false_iff in Hs as [Hhere Hrest].
  cbn [replace_from]. rewrite Hhere, (IH Hrest). reflexivity.
Qed.

(** ** One statement for the four plain use cases *)

Lemma perform_plain (be : backend) (op : operation) (id : model_id) (req : request)
    (w : world) :
  parses_plainly op = true ->
  request_for be op = Return (id, req) ->
  perform be op w
  = (match generate_content be id req with
     | Return text =>
         match json_loads (clean text) with
         | Return v => Return v
         | Raise e => Raise (during e (Exception_ (label op ++ exn_str e)))
         end
     | Raise e => Raise (during e (Exception_ (label op ++ exn_str e)))
     end,
     mk_world (calls w ++ [(id, req)]) (log w)).
Proof.
  intros Hop Hreq. destruct op; try discriminate Hop; cbn [perform request_for label] in *.
  - rewrite run_vehicle.
    destruct (prepare_images be images) as [parts|e]; [|discriminate].
    cbn in Hreq. injection Hreq as <- <-. reflexivity.
  - injection Hreq as <- <-. apply run_earnings.
  - injection Hreq as <- <-. apply run_fatigue.
  - injection Hreq as <- <-. apply run_plan.
Qed.

(** When the call to the model raises, every method raises the wrapped
    exception after that one call. *)
Lemma perform_upstream (be : backend) (op : operation) (id : model_id) (req : request)
    (e : exn) (w : world) :
  request_for be op = Return (id, req) ->
  generate_content be id req = Raise e ->
  fst (perform be op w) = Raise (during e (Exception_ (label op ++ exn_str e)))
  /\ calls (snd (perform be op w)) = calls w ++ [(id, req)].
Proof.
  intros Hreq Hgen.
  destruct (parses_plainly op) eqn:Hop.
  - rewrite (perform_plain be op id req w Hop Hreq), Hgen. split; reflexivity.
  - destruct op; try discriminate Hop; cbn [perform request_for label] in *;
      injection Hreq as <- <-.
    + unfold mbind, M_bind. rewrite run_transcribe. cbn zeta. rewrite Hgen.
      split; reflexivity.
    + rewrite run_trip. cbn zeta. rewrite Hgen. split; reflexivity.
Qed.

(** ** C1 *)



(** Whatever the model answers, [extract_trip_info] returns a value. *)
Lemma trip_info_never_raises (be : backend) (transcription text : list N) (w : world) :
  generate_content be ChatModel (mk_request (TripPrompt transcription) []) = Return text ->
  fst (extract_trip_info be transcription w) = Return (fst (trip_from_text text)).
Proof. intros Hgen. rewrite run_trip. cbn zeta. rewrite Hgen. reflexivity. Qed.

(** ** C5 *)

(** C5.  Vehicle images, earnings pattern, fatigue and financial plan: when
    the model call returns a text on which [json.loads] raises [e], the
    method raises [Exception] with the label of its use case followed by
    [str(e)]; no value is returned. *)
Theorem parse_failure_raises_labelled (be : backend) (op : operation) (id : model_id)
    (req : request) (text : list N) (e : exn) (w : world) :
  parses_plainly op = true ->
  request_for be op = Return (id, req) ->
  generate_content be id req = Return text ->
  json_loads (clean text) = Raise e ->
  fst (perform be op w) = Raise (during e (Exception_ (label op ++ exn_str e))).
Proof.
  intros Hop Hreq Hgen Hparse.
  rewrite (perform_plain be op id req w Hop Hreq), Hgen, Hparse. reflexivity.
Qed.

Lemma parse_failure_raises_labelled_witness :
  fst (perform (answering (lit "You look tired.")) (Fatigue VNone) world0)
  = Raise (during (json_decode_error expecting_value (lit "You look tired.") 0)
             (Exception_
                (label (Fatigue VNone)
                   ++ exn_str (json_decode_error expecting_value
                                 (lit "You look tired.") 0)))).
Proof.
  apply (parse_failure_raises_labelled (answering (lit "You look tired.")) (Fatigue VNone)
           ChatModel (mk_request (FatiguePrompt VNone) []) (lit "You look tired.")
           (json_decode_error expecting_value (lit "You look tired.") 0) world0).
  - reflexivity.
  - reflexivity.
  - reflexivity.
  - vm_compute. reflexivity.
Defined.

(** ** C8 *)

(** C8.  Every use case: when the call to the model raises [e], the method
    raises [Exception] with the label of its use case followed by [str(e)],
    and it has made exactly that one call: nothing is retried and no value
    is returned. *)
Theorem upstream_failure_propagates (be : backend) (op : operation) (id : model_id)
    (req : request) (e : exn) (w : world) :
  request_for be op = Return (id, req) ->
  generate_content be id req = Raise e ->
  fst (perform be op w) = Raise (during e (Exception_ (label op ++ exn_str e)))
  /\ calls (snd (perform be op w)) = calls w ++ [(id, req)].
Proof. apply perform_upstream. Qed.

Lemma upstream_failure_propagates_witness :
  fst (perform (failing quota_exceeded) (Transcribe []) world0)
  = Raise (during quota_exceeded (Exception_ (label (Transcribe []) ++ exn_str quota_exceeded)))
  /\ calls (snd (perform (failing quota_exceeded) (Transcribe []) world0))
     = calls world0
       ++ [(Model, mk_request TranscribePrompt [mk_part (lit "audio/wav") (AudioData [])])].
Proof.
  apply (upstream_failure_propagates (failing quota_exceeded) (Transcribe []) Model
           (mk_request TranscribePrompt [mk_part (lit "audio/wav") (AudioData [])])
           quota_exceeded world0).
  - reflexivity.
  - reflexivity.
Defined.

(** ** C10 *)

(** C10, as the code has it.  Vehicle images, earnings pattern, fatigue and
    financial plan: a parse failure and an upstream failure both reach the
    caller as an exception of the one class [Exception] whose text is the
    label of the use case followed by the text of the cause, so class and
    text do not tell which of the two happened.  The handler raises inside
    [except]: the exception carries the cause as its [__context__], the
    exception of [json.loads] after a parse failure and the exception of the
    call after an upstream failure, and the caller receives the same
    exception in the two runs only if the two causes are the same. *)
Theorem parse_and_upstream_failures_differ_in_context (be be' : backend) (op : operation)
    (id : model_id) (req : request) (text : list N) (e e' : exn) (w : world) :
  parses_plainly op = true ->
  request_for be op = Return (id, req) ->
  request_for be' op = Return (id, req) ->
  generate_content be id req = Return text ->
  json_loads (clean text) = Raise e ->
  generate_content be' id req = Raise e' ->
  exists x x',
    fst (perform be op w) = Raise x /\ fst (perform be' op w) = Raise x'
    /\ exn_cls x = Exception /\ exn_cls x' = Exception
    /\ exn_str x = label op ++ exn_str e /\ exn_str x' = label op ++ exn_str e'
    /\ exn_context x = Some e /\ exn_context x' = Some e'
    /\ (x = x' <-> e = e').
Proof.
  intros Hop Hreq Hreq' Hgen Hparse Hgen'.
  rewrite (perform_plain be op id req w Hop Hreq), Hgen, Hparse.
  rewrite (perform_plain be' op id req w Hop Hreq'), Hgen'.
  cbn [fst]. eexists _, _. split; [reflexivity|]. split; [reflexivity|].
  cbn [during exn_cls exn_str exn_context Exception_].
  repeat (split; [reflexivity|]).
  split; [intros [= _ ->]; reflexivity|intros ->; reflexivity].
Qed.

Lemma parse_and_upstream_failures_differ_in_context_witness :
  let be := answering (lit "not json") in
  let e' := mk_exn (OtherError (lit "InternalServerError")) (lit "503 unavailable") None in
  let be' := failing e' in
  let e := json_decode_error expecting_value (lit "not json") 0 in
  let op := EarningsPattern (VList []) (VDict ∅) in
  exists x x',
    fst (perform be op world0) = Raise x /\ fst (perform be' op world0) = Raise x'
    /\ exn_cls x = Exception /\ exn_cls x' = Exception
    /\ exn_str x = label op ++ exn_str e /\ exn_str x' = label op ++ exn_str e'
    /\ exn_context x = Some e /\ exn_context x' = Some e'
    /\ (x = x' <-> e = e').
Proof.
  cbv zeta.
  apply (parse_and_upstream_failures_differ_in_context _ _ _ ChatModel
           (mk_request (EarningsPrompt (VList []) (VDict ∅)) []) (lit "not json")).
  - reflexivity.
  - reflexivity.
  - reflexivity.
  - reflexivity.
  - vm_compute. reflexivity.
  - reflexivity.
Defined.

(** C10 fails as stated: the caller can tell a parse failure from an
    upstream failure.  In the two runs below the causes have the same text,
    so the two exceptions have the same class and the same text; their
    [__context__] is a JSONDecodeError in one run and the exception of the
    call in the other. *)
Lemma failure_kinds_told_apart_by_context :
  let upstream := mk_exn (OtherError (lit "InternalServerError"))
                    (lit "Expecting value: line 1 column 1 (char 0)") None in
  let op := EarningsPattern (VList []) (VDict ∅) in
  exists x x',
    fst (perform (answering (lit "not json")) op world0) = Raise x
    /\ fst (perform (failing upstream) op world0) = Raise x'
    /\ exn_cls x = exn_cls x' /\ exn_str x = exn_str x'
    /\ exn_cls <$> exn_context x = Some JSONDecodeError
    /\ exn_cls <$> exn_context x' = Some (OtherError (lit "InternalServerError"))
    /\ x <> x'.
Proof.
  cbv zeta. eexists _, _. split; [vm_compute; reflexivity|].
  split; [vm_compute; reflexivity|].
  repeat (split; [vm_compute; reflexivity|]). discriminate.
Qed.

(** ** C2 *)

Lemma str_eqb_eq (a b : list N) : str_eqb a b = true <-> a = b.
Proof.
  revert b. induction a as [|x a IH]; intros [|y b]; cbn; try (split; congruence).
  unfold char_eqb. rewrite andb_true_iff, N.eqb_eq, IH. split.
  - intros [-> ->]. reflexivity.
  - intros [= -> ->]. auto.
Qed.

Lemma trip_from_dict (text : list N) (d : gmap (list N) value) :
  json_loads (clean text) = Return (VDict d) ->
  trip_from_text text = (VDict (normalize_dict d), false).
Proof.
  intros H. unfold trip_from_text, parse_trip. fold (clean text). rewrite H.
  rewrite normalize_fields_dict. reflexivity.
Qed.

(** C2, as the code has it.  Trip info: when the cleaned text parses to an
    object, the result is that object in which each of the four numeric
    fields that is present holds a float: the parsed float for a numeric
    string, 0.0 for null and for a value [float] refuses.  A numeric field
    that is absent from the text stays absent. *)
Theorem trip_info_numeric_fields_coerced (be : backend) (transcription text : list N)
    (d : gmap (list N) value) (num_field : list N) (w : world) :
  generate_content be ChatModel (mk_request (TripPrompt transcription) []) = Return text ->
  json_loads (clean text) = Return (VDict d) ->
  num_field ∈ numeric_fields ->
  exists d',
    fst (extract_trip_info be transcription w) = Return (VDict d')
    /\ (d !! num_field = None -> d' !! num_field = None)
    /\ (forall v, d !! num_field = Some v -> exists x, d' !! num_field = Some (VFloat x))
    /\ (d !! num_field = Some VNone -> d' !! num_field = Some (VFloat fzero))
    /\ (forall s x, d !! num_field = Some (VStr s) -> float_of_str s = Some x ->
                    d' !! num_field = Some (VFloat x))
    /\ (forall v, d !! num_field = Some v -> py_float v = None ->
                  d' !! num_field = Some (VFloat fzero)).
Proof.
  intros Hgen Hparse Hin. exists (normalize_dict d).
  rewrite run_trip. cbn zeta. rewrite Hgen, (trip_from_dict text d Hparse).
  split; [reflexivity|].
  rewrite normalize_dict_lookup. destruct (decide (num_field ∈ numeric_fields)); [|tauto].
  repeat split.
  - intros ->. reflexivity.
  - intros v ->. eexists. reflexivity.
  - intros ->. reflexivity.
  - intros s x -> Hx. cbn. unfold float_or_zero. cbn. rewrite Hx. reflexivity.
  - intros v -> Hv. cbn. unfold float_or_zero. rewrite Hv. destruct (is_none v); reflexivity.
Qed.

Lemma trip_info_numeric_fields_coerced_witness :
  exists d',
    fst (extract_trip_info (answering sample_trip_text) [] world0) = Return (VDict d')
    /\ d' !! lit "earnings" = Some (VFloat (FFinite false 8813685208252416 (-45)))
    /\ d' !! lit "fuel_cost" = Some (VFloat fzero)
    /\ d' !! lit "toll_cost" = None.
Proof.
  destruct (trip_info_numeric_fields_coerced (answering sample_trip_text) []
              sample_trip_text
              (list_to_map [(lit "earnings", VStr (lit "250.5"));
                            (lit "fuel_cost", VNone);
                            (lit "notes", VStr (lit "airport run"))])
              (lit "earnings") world0) as (d' & Hres & _ & _ & _ & Hstr & _).
  - reflexivity.
  - vm_compute. reflexivity.
  - vm_compute. left.
  - exists d'. split; [exact Hres|].
    split; [apply (Hstr (lit "250.5")); vm_compute; reflexivity|].
    vm_compute in Hres. injection Hres as <-. vm_compute. split; reflexivity.
Defined.

(** C2 fails as stated: an absent numeric field is not defaulted to 0.0
    (trip info on the text [{}]), and the earnings use case stores a numeric
    string as it is. *)
Lemma absent_numeric_field_not_defaulted :
  (json_loads (clean (lit "{}")) = Return (VDict ∅)
   /\ fst (extract_trip_info (answering (lit "{}")) [] world0) = Return (VDict ∅)
   /\ ~ (exists x, (∅ : gmap (list N) value) !! lit "earnings" = Some (VFloat x)))
  /\ (fst (analyze_earnings_pattern (answering (jlit "{'total_earnings': '12'}"))
             (VList []) (VDict ∅) world0)
      = Return (VDict {[ lit "total_earnings" := VStr (lit "12") ]})).
Proof.
  split; [split; [|split]|].
  - vm_compute. reflexivity.
  - vm_compute. reflexivity.
  - intros [x Hx]. vm_compute in Hx. discriminate.
  - vm_compute. reflexivity.
Qed.

(** ** C9 *)

Lemma normalize_fields_list (l : list value) :
  (forall f, f ∈ numeric_fields -> VStr f ∉ l) ->
  normalize_fields numeric_fields (VList l) = Some (VList l).
Proof.
  intros Hl.
  assert (forall f, f ∈ numeric_fields ->
            normalize_field (VList l) f = Some (VList l)) as Hf.
  { intros f Hin. unfold normalize_field. cbn [field_present].
    destruct (existsb _ l) eqn:Hex; [|reflexivity].
    apply existsb_exists in Hex as (v & Hv & Heq).
    destruct v; try discriminate. apply str_eqb_eq in Heq as ->.
    destruct (Hl f Hin). apply list_elem_of_In. exact Hv. }
  revert Hf. generalize numeric_fields as fs.
  induction fs as [|f fs IH]; intros Hf; [reflexivity|].
  cbn [normalize_fields]. rewrite Hf by left. cbn.
  apply IH. intros g Hg. apply Hf. right. exact Hg.
Qed.

(** C9, as the code has it.  No result is checked against a schema.  For
    vehicle images, earnings pattern, fatigue and financial plan the value
    [json.loads] returns for the cleaned text is returned as it is, whatever
    its shape.  For trip info, an object comes back with its numeric fields
    coerced where present and every other entry, present or absent, as it
    was; an array comes back as it is when none of its elements is the name
    of a numeric field. *)
Theorem parsed_value_returned_unvalidated (be : backend) (op : operation) (id : model_id)
    (req : request) (text : list N) (v : value) (w : world) :
  request_for be op = Return (id, req) ->
  generate_content be id req = Return text ->
  json_loads (clean text) = Return v ->
  (parses_plainly op = true -> fst (perform be op w) = Return v)
  /\ (forall transcription d, op = TripInfo transcription -> v = VDict d ->
        exists d',
          fst (perform be op w) = Return (VDict d')
          /\ forall k, d' !! k = if decide (k ∈ numeric_fields)
                                 then (fun x => VFloat (float_or_zero x)) <$> d !! k
                                 else d !! k)
  /\ (forall transcription l, op = TripInfo transcription -> v = VList l ->
        (forall f, f ∈ numeric_fields -> VStr f ∉ l) ->
        fst (perform be op w) = Return (VList l)).
Proof.
  intros Hreq Hgen Hparse. split; [|split].
  - intros Hop. rewrite (perform_plain be op id req w Hop Hreq), Hgen, Hparse. reflexivity.
  - intros transcription d -> ->. injection Hreq as <- <-.
    exists (normalize_dict d). cbn [perform]. rewrite run_trip. cbn zeta.
    rewrite Hgen, (trip_from_dict text d Hparse).
    split; [reflexivity|]. apply normalize_dict_lookup.
  - intros transcription l -> -> Hl. injection Hreq as <- <-.
    cbn [perform]. rewrite run_trip. cbn zeta. rewrite Hgen.
    unfold trip_from_text, parse_trip. fold (clean text). rewrite Hparse.
    rewrite (normalize_fields_list l Hl). reflexivity.
Qed.

Lemma parsed_value_returned_unvalidated_witness :
  let be := answering (jlit "[1, {'risk': 'high', 'extra': null}]") in
  let v := VList [VInt 1; VDict (list_to_map [(lit "risk", VStr (lit "high"));
                                              (lit "extra", VNone)])] in
  let op := Fatigue VNone in
  (parses_plainly op = true -> fst (perform be op world0) = Return v)
  /\ (forall transcription d, op = TripInfo transcription -> v = VDict d ->
        exists d',
          fst (perform be op world0) = Return (VDict d')
          /\ forall k, d' !! k = if decide (k ∈ numeric_fields)
                                 then (fun x => VFloat (float_or_zero x)) <$> d !! k
                                 else d !! k)
  /\ (forall transcription l, op = TripInfo transcription -> v = VList l ->
        (forall f, f ∈ numeric_fields -> VStr f ∉ l) ->
        fst (perform be op world0) = Return (VList l)).
Proof.
  cbv zeta.
  apply (parsed_value_returned_unvalidated _ _ ChatModel
           (mk_request (FatiguePrompt VNone) [])
           (jlit "[1, {'risk': 'high', 'extra': null}]")).
  - reflexivity.
  - reflexivity.
  - vm_compute. reflexivity.
Defined.

(** C9 fails as stated for trip info: the array [["earnings"]] and the
    number [5] both parse, and the method returns the default record instead
    of the parsed value. *)
Lemma trip_info_drops_some_parsed_values :
  (json_loads (clean (jlit "['earnings']")) = Return (VList [VStr (lit "earnings")])
   /\ fst (extract_trip_info (answering (jlit "['earnings']")) [] world0)
      = Return default_trip
   /\ default_trip <> VList [VStr (lit "earnings")])
  /\ (json_loads (clean (lit "5")) = Return (VInt 5)
      /\ fst (extract_trip_info (answering (lit "5")) [] world0) = Return default_trip
      /\ default_trip <> VInt 5).
Proof.
  split; (split; [|split]); try (vm_compute; reflexivity); discriminate.
Qed.

(** ** C3 *)

Lemma trip_from_block (text block : list N) (d : gmap (list N) value) :
  (exists e, json_loads (clean text) = Raise e) ->
  re_search_braces (strip text) = Some block ->
  json_loads block = Return (VDict d) ->
  trip_from_text text = (VDict (normalize_dict d), false).
Proof.
  intros [e Hstrict] Hblock Hparse.
  unfold trip_from_text. fold (clean text). unfold parse_trip at 1. rewrite Hstrict.
  rewrite Hblock. unfold parse_trip. rewrite Hparse, normalize_fields_dict. reflexivity.
Qed.

(** C3, as the code has it.  Trip info only: when [json.loads] raises on the
    cleaned text, the method takes the stretch of the stripped text from its
    first opening brace to its last closing brace; if that block parses, the
    result is the parsed object with its numeric fields coerced.  In
    particular a block that parses, standing between text without an opening
    brace and text without a closing brace, is the one that is read. *)
Theorem trip_info_reads_brace_block (be : backend) (transcription text : list N)
    (w : world) :
  generate_content be ChatModel (mk_request (TripPrompt transcription) []) = Return text ->
  (exists e, json_loads (clean text) = Raise e) ->
  (forall block v,
      re_search_braces (strip text) = Some block ->
      json_loads block = Return v ->
      exists d, v = VDict d
        /\ fst (extract_trip_info be transcription w) = Return (VDict (normalize_dict d)))
  /\ (forall pre mid post v,
        strip text = pre ++ (lbrace :: mid ++ [rbrace]) ++ post ->
        lbrace ∉ pre -> rbrace ∉ post ->
        json_loads (lbrace :: mid ++ [rbrace]) = Return v ->
        exists d, v = VDict d
          /\ fst (extract_trip_info be transcription w)
             = Return (VDict (normalize_dict d))).
Proof.
  intros Hgen Hstrict.
  assert (forall block v,
             re_search_braces (strip text) = Some block ->
             json_loads block = Return v ->
             exists d, v = VDict d
               /\ fst (extract_trip_info be transcription w)
                  = Return (VDict (normalize_dict d))) as Hblock.
  { intros block v Hsearch Hparse.
    destruct (re_search_braces_head _ _ Hsearch) as [rest ->].
    destruct (json_loads_brace_dict _ _ Hparse) as [d ->].
    exists d. split; [reflexivity|].
    rewrite run_trip. cbn zeta.
    rewrite Hgen, (trip_from_block text _ d Hstrict Hsearch Hparse). reflexivity. }
  split; [exact Hblock|].
  intros pre mid post v Htext Hpre Hpost Hparse.
  apply (Hblock (lbrace :: mid ++ [rbrace])); [|exact Hparse].
  rewrite Htext. apply re_search_braces_block; assumption.
Qed.

(** A character does not occur in a given text. *)
Ltac absent_char :=
  let H := fresh in
  intros H; apply list_elem_of_In in H; vm_compute in H;
  repeat (destruct H as [H|H]; [discriminate|]); exact H.

Lemma trip_info_reads_brace_block_witness :
  fst (extract_trip_info (answering prose_trip_text) [] world0)
  = Return (VDict (normalize_dict
                     (list_to_map [(lit "earnings", VStr (lit "5"));
                                   (lit "notes", VStr (lit "x"))]))).
Proof.
  destruct (trip_info_reads_brace_block (answering prose_trip_text) [] prose_trip_text
              world0) as [_ H].
  - reflexivity.
  - eexists. vm_compute. reflexivity.
  - destruct (H (lit "Here you go: ") (jlit "'earnings': '5', 'notes': 'x'")
                (lit " hope it helps")
                (VDict (list_to_map [(lit "earnings", VStr (lit "5"));
                                     (lit "notes", VStr (lit "x"))])))
      as (d & Hd & Hres).
    + vm_compute. reflexivity.
    + absent_char.
    + absent_char.
    + vm_compute. reflexivity.
    + injection Hd as <-. exact Hres.
Defined.

(** C3 fails as stated outside trip info: fatigue detection has no second
    attempt.  The answer below holds a block that the pattern finds and that
    parses, and the method raises. *)
Lemma fatigue_has_no_brace_fallback :
  let text := jlit "Sure: {'fatigue_level': 'low'} take care" in
  re_search_braces (strip text) = Some (jlit "{'fatigue_level': 'low'}")
  /\ json_loads (jlit "{'fatigue_level': 'low'}")
     = Return (VDict {[ lit "fatigue_level" := VStr (lit "low") ]})
  /\ fst (detect_fatigue (answering text) VNone world0)
     = Raise (during (json_decode_error expecting_value text 0)
                (Exception_
                   (lit "Fatigue detection failed: Expecting value: line 1 column 1 (char 0)"))).
Proof. cbv zeta. repeat split; vm_compute; reflexivity. Qed.

(** ** C4 *)

Lemma clean_fenced (t : list N) : strip t = t -> clean (fenced t) = clean t.
Proof.
  intros Ht. unfold clean. rewrite strip_fenced, remove_fences_fenced, Ht. reflexivity.
Qed.

Lemma trip_from_fenced (t : list N) :
  strip t = t -> trip_from_text (fenced t) = trip_from_text t.
Proof.
  intros Ht. unfold trip_from_text.
  rewrite strip_fenced, remove_fences_fenced, re_search_braces_fenced, Ht. reflexivity.
Qed.

(** C4, as the code has it.  For a text [t] without white space at its ends,
    every structured use case returns for the fenced text what it returns
    for [t] itself.  After the clean-up no [```] marker is left in any text,
    wherever the markers stood. *)
Theorem fenced_answer_same_result (be be' : backend) (op : operation) (id : model_id)
    (req : request) (t : list N) (w : world) :
  strip t = t ->
  (forall audio_data, op <> Transcribe audio_data) ->
  request_for be op = Return (id, req) ->
  request_for be' op = Return (id, req) ->
  generate_content be id req = Return (fenced t) ->
  generate_content be' id req = Return t ->
  fst (perform be op w) = fst (perform be' op w)
  /\ (forall s, str_contains fence (clean s) = false).
Proof.
  intros Ht Hop Hreq Hreq' Hgen Hgen'. split; [|apply clean_no_fence].
  destruct (parses_plainly op) eqn:Hplain.
  - rewrite (perform_plain be op id req w Hplain Hreq), Hgen.
    rewrite (perform_plain be' op id req w Hplain Hreq'), Hgen'.
    rewrite (clean_fenced t Ht). reflexivity.
  - destruct op; try discriminate Hplain; [destruct (Hop audio_data eq_refl)|].
    cbn [perform request_for] in *. injection Hreq as <- <-.
    rewrite !run_trip. cbn zeta. rewrite Hgen, Hgen', (trip_from_fenced t Ht). reflexivity.
Qed.

Lemma fenced_answer_same_result_witness :
  let t := jlit "{'earnings': 5}" in
  fst (perform (answering (fenced t)) (TripInfo []) world0)
  = fst (perform (answering t) (TripInfo []) world0)
  /\ (forall s, str_contains fence (clean s) = false).
Proof.
  cbv zeta.
  apply (fenced_answer_same_result _ _ _ ChatModel (mk_request (TripPrompt []) [])
           (jlit "{'earnings': 5}")).
  - vm_compute. reflexivity.
  - discriminate.
  - reflexivity.
  - reflexivity.
  - reflexivity.
  - reflexivity.
Defined.

(** C4 fails as stated: [strip] removes a form feed at the front of the bare
    text but not inside the fence, where [json.loads] then refuses it.  Trip
    info returns the array for the bare text and the default record for the
    fenced one; the earnings analysis returns the object for the bare text
    and raises for the fenced one. *)
Lemma fence_changes_result_after_form_feed :
  (let t := 12 :: lit "[1]" in
   fst (extract_trip_info (answering t) [] world0) = Return (VList [VInt 1])
   /\ fst (extract_trip_info (answering (fenced t)) [] world0) = Return default_trip)
  /\ (let t := 12 :: lit "{}" in
      fst (analyze_earnings_pattern (answering t) (VList []) (VDict ∅) world0)
      = Return (VDict ∅)
      /\ fst (analyze_earnings_pattern (answering (fenced t)) (VList []) (VDict ∅) world0)
         = Raise (during (json_decode_error expecting_value t 0)
                    (Exception_
                       (lit "Earnings pattern analysis failed: Expecting value: line 1 column 1 (char 0)")))).
Proof. cbv zeta. repeat split; vm_compute; reflexivity. Qed.

(** ** C7 *)

Lemma trip_result_fixpoint (text : list N) :
  normalize_fields numeric_fields (fst (trip_from_text text))
  = Some (fst (trip_from_text text)).
Proof.
  assert (forall x r, parse_trip x = Some r ->
                      normalize_fields numeric_fields r = Some r) as Hparse.
  { intros x r. unfold parse_trip. destruct (json_loads x); [|discriminate].
    apply normalize_fields_fixpoint. }
  unfold trip_from_text.
  destruct (parse_trip (remove_fences (strip text))) as [r|] eqn:H1; [exact (Hparse _ _ H1)|].
  destruct (re_search_braces (strip text)) as [block|]; [|exact normalize_default_trip].
  destruct (parse_trip block) as [r|] eqn:H2; [exact (Hparse _ _ H2)|].
  exact normalize_default_trip.
Qed.

(** C7, as the code has it.  Let [r] be a result a structured use case
    returned, and let [s] be a serialization of [r]: a text without white
    space at its ends that [json.loads] reads back as [r], as
    [json.dumps(r)] is.  If [s] holds no [```] marker, the use case returns
    [r] again for [s]. *)
Theorem reextraction_returns_same_result (be be' : backend) (op : operation)
    (id : model_id) (req : request) (s : list N) (r : value) (w : world) :
  (forall audio_data, op <> Transcribe audio_data) ->
  request_for be op = Return (id, req) ->
  request_for be' op = Return (id, req) ->
  fst (perform be op w) = Return r ->
  json_loads s = Return r ->
  strip s = s ->
  str_contains fence s = false ->
  generate_content be' id req = Return s ->
  fst (perform be' op w) = Return r.
Proof.
  intros Hop Hreq Hreq' Hres Hparse Hstrip Hfence Hgen'.
  assert (clean s = s) as Hclean.
  { unfold clean. rewrite Hstrip. apply remove_fences_id. exact Hfence. }
  destruct (parses_plainly op) eqn:Hplain.
  - rewrite (perform_plain be' op id req w Hplain Hreq'), Hgen', Hclean, Hparse.
    reflexivity.
  - destruct op; try discriminate Hplain; [destruct (Hop audio_data eq_refl)|].
    cbn [perform request_for] in *. injection Hreq as <- <-.
    rewrite run_trip in Hres. cbn zeta in Hres. rewrite run_trip. cbn zeta. rewrite Hgen'.
    destruct (generate_content be ChatModel _) as [text|e]; [|discriminate].
    cbn [fst] in *. injection Hres as <-.
    unfold trip_from_text at 1. fold (clean s). rewrite Hclean.
    unfold parse_trip at 1. rewrite Hparse, trip_result_fixpoint. reflexivity.
Qed.

Lemma reextraction_returns_same_result_witness :
  let r := VDict (list_to_map [(lit "earnings", VFloat (FFinite false 7036874417766400 (-49)));
                               (lit "notes", VStr (lit "caf" ++ [233]))]) in
  fst (perform (answering reserialized_trip_text) (TripInfo []) world0) = Return r.
Proof.
  cbv zeta.
  apply (reextraction_returns_same_result (answering escaped_trip_text)
           (answering reserialized_trip_text) (TripInfo []) ChatModel
           (mk_request (TripPrompt []) []) reserialized_trip_text _ world0).
  - discriminate.
  - reflexivity.
  - reflexivity.
  - vm_compute. reflexivity.
  - vm_compute. reflexivity.
  - vm_compute. reflexivity.
  - vm_compute. reflexivity.
  - reflexivity.
Defined.

(** C7 fails as stated: a result with [```] inside a text value does not
    survive.  The first text parses to [r]; [s] is [json.dumps(r)] and parses
    to [r]; extraction of [s] returns the record with the value emptied. *)
Lemma fence_in_value_breaks_round_trip :
  let text := jlit "{'notes': '\u0060\u0060\u0060'}" in
  let s := jlit "{'notes': '```'}" in
  let r := VDict {[ lit "notes" := VStr (lit "```") ]} in
  let r' := VDict {[ lit "notes" := VStr [] ]} in
  fst (extract_trip_info (answering text) [] world0) = Return r
  /\ json_loads s = Return r
  /\ fst (extract_trip_info (answering s) [] world0) = Return r'
  /\ r <> r'.
Proof.
  cbv zeta. repeat split; try (vm_compute; reflexivity).
  intros H.
  apply (f_equal (fun v => match v with
                           | VDict d => d !! lit "notes"
                           | _ => None
                           end)) in H.
  vm_compute in H. discriminate.
Qed.

(** ** C6 *)

Local Open Scope Z_scope.

(** *** Rounding to binary64 *)

Lemma pow2_pos (a : Z) : 0 <= a -> 0 < 2 ^ a.
Proof. intros. apply Z.pow_pos_nonneg; lia. Qed.

Lemma pow2_split (e : Z) (c : Z) :
  - c <= e -> 0 <= c ->
  2 ^ Z.max e 0 * 2 ^ c = 2 ^ (e + c) * 2 ^ Z.max (- e) 0.
Proof.
  intros He Hc. rewrite <- !Z.pow_add_r by lia. f_equal. lia.
Qed.

(** The steps of [round_ratio] on a positive fraction: the exponent, the
    quotient and the rounded mantissa. *)
Lemma round_ratio_core_exact (neg : bool) (p q : Z) :
  0 < p -> 0 < q ->
  exists k,
    - 1074 <= k
    /\ (- 1074 < k -> 2 ^ 52 <= (p * 2 ^ Z.max (- k) 0) / (q * 2 ^ Z.max k 0))
    /\ (p * 2 ^ Z.max (- k) 0) / (q * 2 ^ Z.max k 0) < 2 ^ 53
    /\ round_ratio neg p q
       = (let n := p * 2 ^ Z.max (- k) 0 in
          let d := q * 2 ^ Z.max k 0 in
          let quo := n / d in
          let m0 := if (d <? 2 * (n mod d)) || ((d =? 2 * (n mod d)) && Z.odd quo)
                    then quo + 1 else quo in
          let '(m, k') := if m0 =? 2 ^ 53 then (2 ^ 52, k + 1) else (m0, k) in
          if 971 <? k' then FInf neg
          else if m =? 0 then FFinite neg 0%N 0
          else FFinite neg (Z.to_N m) k').
Proof.
  intros Hp Hq. unfold round_ratio.
  assert ((p =? 0) = false) as -> by (apply Z.eqb_neq; lia).
  assert (forall k, (if k <=? 0 then (p * 2 ^ (- k), q) else (p, q * 2 ^ k))
                    = (p * 2 ^ Z.max (- k) 0, q * 2 ^ Z.max k 0)) as Hsc.
  { intros k. destruct (Z.leb_spec k 0).
    - rewrite Z.max_l, Z.max_r by lia. rewrite Z.pow_0_r, Z.mul_1_r. reflexivity.
    - rewrite Z.max_r, Z.max_l by lia. rewrite Z.pow_0_r, Z.mul_1_r. reflexivity. }
  cbv zeta. rewrite !Hsc.
  pose proof (Z.log2_spec p Hp) as [Hp1 Hp2].
  pose proof (Z.log2_spec q Hq) as [Hq1 Hq2].
  pose proof (Z.log2_nonneg p) as Hlp. pose proof (Z.log2_nonneg q) as Hlq.
  set (lp := Z.log2 p) in *. set (lq := Z.log2 q) in *.
  set (k0 := lp - lq - 52).
  (* comparisons of p/q with c * 2^k, brought to a common shift *)
  set (J := lp + lq + 1200).
  assert (forall k c, - J <= k <= J -> 0 <= c ->
            (c * (q * 2 ^ Z.max k 0) <= p * 2 ^ Z.max (- k) 0
             <-> c * q * 2 ^ (J + k) <= p * 2 ^ J)) as Hcmp.
  { intros k c Hk Hc.
    assert (2 ^ J = 2 ^ Z.max (- k) 0 * 2 ^ (J - Z.max (- k) 0)) as EJ
      by (rewrite <- Z.pow_add_r by lia; f_equal; lia).
    assert (2 ^ (J + k) = 2 ^ Z.max k 0 * 2 ^ (J - Z.max (- k) 0)) as EJk
      by (rewrite <- Z.pow_add_r by lia; f_equal; lia).
    pose proof (pow2_pos (J - Z.max (- k) 0) ltac:(lia)) as HX.
    rewrite EJ, EJk. set (X := 2 ^ (J - Z.max (- k) 0)) in *.
    set (a := 2 ^ Z.max (- k) 0). set (b := 2 ^ Z.max k 0).
    split; intros H; nia. }
  assert (forall k c, - J <= k <= J -> 0 <= c ->
            (c <= (p * 2 ^ Z.max (- k) 0) / (q * 2 ^ Z.max k 0)
             <-> c * q * 2 ^ (J + k) <= p * 2 ^ J)) as Hquo.
  { intros k c Hk Hc. rewrite <- Hcmp by assumption.
    pose proof (pow2_pos (Z.max k 0) ltac:(lia)) as Hb.
    assert (0 < q * 2 ^ Z.max k 0) as Hd by nia.
    split; intros H.
    - pose proof (Z.mul_div_le (p * 2 ^ Z.max (- k) 0) _ Hd). nia.
    - apply Z.div_le_lower_bound; [exact Hd|]. lia. }
  (* the bounds that the two logarithms give *)
  assert (2 ^ 51 * q * 2 ^ (J + k0) <= p * 2 ^ J) as Hlow.
  { assert (2 ^ 51 * 2 ^ (lq + 1) * 2 ^ (J + k0) = 2 ^ lp * 2 ^ J) as E.
    { rewrite <- !Z.pow_add_r by (unfold k0, J; lia). f_equal. unfold k0. lia. }
    pose proof (pow2_pos (J + k0) ltac:(unfold k0, J; lia)).
    pose proof (pow2_pos J ltac:(unfold J; lia)).
    replace (Z.succ lq) with (lq + 1) in Hq2 by lia. nia. }
  assert (p * 2 ^ J < 2 ^ 53 * q * 2 ^ (J + k0)) as Hhigh.
  { assert (2 ^ 53 * 2 ^ lq * 2 ^ (J + k0) = 2 ^ (lp + 1) * 2 ^ J) as E.
    { rewrite <- !Z.pow_add_r by (unfold k0, J; lia). f_equal. unfold k0. lia. }
    pose proof (pow2_pos (J + k0) ltac:(unfold k0, J; lia)).
    pose proof (pow2_pos J ltac:(unfold J; lia)).
    replace (Z.succ lp) with (lp + 1) in Hp2 by lia. nia. }
  assert (2 ^ (J + k0) = 2 * 2 ^ (J + (k0 - 1))) as Ehalf.
  { replace (J + k0) with (1 + (J + (k0 - 1))) by lia.
    rewrite Z.pow_add_r by (unfold k0, J; lia). reflexivity. }
  set (k1 := if (p * 2 ^ Z.max (- k0) 0) / (q * 2 ^ Z.max k0 0) <? 2 ^ 52
             then k0 - 1 else k0).
  assert (- J <= k1 <= J
          /\ 2 ^ 52 * q * 2 ^ (J + k1) <= p * 2 ^ J
          /\ p * 2 ^ J < 2 ^ 53 * q * 2 ^ (J + k1)) as (Hk1 & Hk1low & Hk1high).
  { unfold k1. destruct (Z.ltb_spec ((p * 2 ^ Z.max (- k0) 0) / (q * 2 ^ Z.max k0 0))
                           (2 ^ 52)) as [Hlt|Hge].
    - split; [unfold k0, J; lia|].
      assert (~ 2 ^ 52 * q * 2 ^ (J + k0) <= p * 2 ^ J) as Hn.
      { intros H. apply (Hquo k0 (2 ^ 52)) in H; [lia|unfold k0, J; lia|lia]. }
      rewrite Ehalf in *. split; lia.
    - split; [unfold k0, J; lia|].
      apply (Hquo k0 (2 ^ 52)) in Hge; [|unfold k0, J; lia|lia]. split; lia. }
  clearbody k1.
  set (k := Z.max k1 (- 1074)).
  assert (- J <= k <= J) as Hk by (unfold k, J; lia).
  assert (p * 2 ^ J < 2 ^ 53 * q * 2 ^ (J + k)) as Hkhigh.
  { assert (2 ^ (J + k1) <= 2 ^ (J + k))
      by (apply Z.pow_le_mono_r; unfold k; lia).
    nia. }
  exists k.
  split; [unfold k; lia|].
  split.
  { intros Hnc. assert (k = k1) as -> by (unfold k; lia).
    apply (Hquo k1 (2 ^ 52)); [lia|lia|exact Hk1low]. }
  split.
  { assert (~ 2 ^ 53 <= (p * 2 ^ Z.max (- k) 0) / (q * 2 ^ Z.max k 0)) as Hn; [|lia].
    intros H. apply (Hquo k (2 ^ 53)) in H; [lia|lia|lia]. }
  reflexivity.
Qed.

Lemma round_ratio_core (neg : bool) (p q : Z) :
  0 < p -> 0 < q ->
  exists k quo m0,
    - 1074 <= k
    /\ quo = (p * 2 ^ Z.max (- k) 0) / (q * 2 ^ Z.max k 0)
    /\ (m0 = quo
        \/ (m0 = quo + 1
            /\ q * 2 ^ Z.max k 0
               <= 2 * ((p * 2 ^ Z.max (- k) 0) mod (q * 2 ^ Z.max k 0))))
    /\ (- 1074 < k -> 2 ^ 52 <= quo)
    /\ quo < 2 ^ 53
    /\ round_ratio neg p q
       = (let '(m, k') := if m0 =? 2 ^ 53 then (2 ^ 52, k + 1) else (m0, k) in
          if 971 <? k' then FInf neg
          else if m =? 0 then FFinite neg 0%N 0
          else FFinite neg (Z.to_N m) k').
Proof.
  intros Hp Hq.
  destruct (round_ratio_core_exact neg p q Hp Hq) as (k & Hk & Hnorm & Hlt & Hres).
  exists k, ((p * 2 ^ Z.max (- k) 0) / (q * 2 ^ Z.max k 0)).
  set (n := p * 2 ^ Z.max (- k) 0) in *. set (d := q * 2 ^ Z.max k 0) in *.
  set (quo := n / d) in *.
  exists (if (d <? 2 * (n mod d)) || ((d =? 2 * (n mod d)) && Z.odd quo)
          then quo + 1 else quo).
  split; [exact Hk|]. split; [reflexivity|].
  split.
  { destruct ((d <? 2 * (n mod d)) || ((d =? 2 * (n mod d)) && Z.odd quo)) eqn:Hup;
      [right|left; reflexivity].
    split; [reflexivity|].
    apply orb_true_iff in Hup as [Hup|Hup].
    - apply Z.ltb_lt in Hup. lia.
    - apply andb_true_iff in Hup as [Hup _]. apply Z.eqb_eq in Hup. lia. }
  split; [exact Hnorm|]. split; [exact Hlt|]. exact Hres.
Qed.

Lemma float_den_pos (e : Z) : 0 < float_den e.
Proof. apply pow2_pos. lia. Qed.

Lemma float_num_units (m : N) (e : Z) :
  - 1074 <= e -> float_num false m e * 2 ^ 1074 = float_units m e * float_den e.
Proof.
  intros He. unfold float_num, float_units, float_den.
  rewrite <- !Z.mul_assoc. f_equal. apply pow2_split; lia.
Qed.

(** Comparing two floats as fractions is comparing their float_units. *)
Lemma float_le_units (m1 : N) (e1 : Z) (m2 : N) (e2 : Z) :
  - 1074 <= e1 -> - 1074 <= e2 ->
  (float_num false m1 e1 * float_den e2 <= float_num false m2 e2 * float_den e1
   <-> float_units m1 e1 <= float_units m2 e2).
Proof.
  intros H1 H2.
  pose proof (float_num_units m1 e1 H1) as E1.
  pose proof (float_num_units m2 e2 H2) as E2.
  pose proof (float_den_pos e1). pose proof (float_den_pos e2).
  pose proof (pow2_pos 1074 ltac:(lia)) as HC.
  set (C := 2 ^ 1074) in *.
  set (n1 := float_num false m1 e1) in *. set (n2 := float_num false m2 e2) in *.
  set (d1 := float_den e1) in *. set (d2 := float_den e2) in *.
  set (u1 := float_units m1 e1) in *. set (u2 := float_units m2 e2) in *.
  assert (n1 * d2 * C = u1 * (d1 * d2)) as F1
    by (transitivity (n1 * C * d2); [ring|rewrite E1; ring]).
  assert (n2 * d1 * C = u2 * (d1 * d2)) as F2
    by (transitivity (n2 * C * d1); [ring|rewrite E2; ring]).
  assert (0 < d1 * d2) as Hdd by (apply Z.mul_pos_pos; assumption).
  split; intros Hx.
  - apply (Z.mul_le_mono_pos_r _ _ (d1 * d2) Hdd). rewrite <- F1, <- F2.
    apply Z.mul_le_mono_nonneg_r; [lia|exact Hx].
  - apply (Z.mul_le_mono_pos_r _ _ C HC). rewrite F1, F2.
    apply Z.mul_le_mono_nonneg_r; [lia|exact Hx].
Qed.

Lemma fraction_le_units (p q : Z) (m : N) (e : Z) :
  - 1074 <= e -> 0 < q ->
  (p * float_den e <= float_num false m e * q <-> p * 2 ^ 1074 <= float_units m e * q).
Proof.
  intros He Hq. pose proof (float_num_units m e He) as E.
  pose proof (float_den_pos e). pose proof (pow2_pos 1074 ltac:(lia)) as HC.
  set (C := 2 ^ 1074) in *. set (n := float_num false m e) in *.
  set (d := float_den e) in *. set (u := float_units m e) in *.
  assert (n * q * C = u * q * d) as F
    by (transitivity (n * C * q); [ring|rewrite E; ring]).
  assert (p * d * C = p * C * d) as G by ring.
  split; intros Hx.
  - apply (Z.mul_le_mono_pos_r _ _ d H). rewrite <- F, <- G.
    apply Z.mul_le_mono_nonneg_r; [lia|exact Hx].
  - apply (Z.mul_le_mono_pos_r _ _ C HC). rewrite F, G.
    apply Z.mul_le_mono_nonneg_r; [lia|exact Hx].
Qed.

Lemma fraction_ge_units (p q : Z) (m : N) (e : Z) :
  - 1074 <= e -> 0 < q ->
  (float_num false m e * q <= p * float_den e <-> float_units m e * q <= p * 2 ^ 1074).
Proof.
  intros He Hq. pose proof (float_num_units m e He) as E.
  pose proof (float_den_pos e). pose proof (pow2_pos 1074 ltac:(lia)) as HC.
  set (C := 2 ^ 1074) in *. set (n := float_num false m e) in *.
  set (d := float_den e) in *. set (u := float_units m e) in *.
  assert (n * q * C = u * q * d) as F
    by (transitivity (n * C * q); [ring|rewrite E; ring]).
  assert (p * d * C = p * C * d) as G by ring.
  split; intros Hx.
  - apply (Z.mul_le_mono_pos_r _ _ d H). rewrite <- F, <- G.
    apply Z.mul_le_mono_nonneg_r; [lia|exact Hx].
  - apply (Z.mul_le_mono_pos_r _ _ C HC). rewrite F, G.
    apply Z.mul_le_mono_nonneg_r; [lia|exact Hx].
Qed.

(** The quotient at exponent k, in float_units. *)
Lemma quo_units (p q k : Z) :
  0 < p -> 0 < q -> - 1074 <= k ->
  0 <= (p * 2 ^ Z.max (- k) 0) / (q * 2 ^ Z.max k 0)
  /\ (p * 2 ^ Z.max (- k) 0) / (q * 2 ^ Z.max k 0) * 2 ^ (k + 1074) * q
     <= p * 2 ^ 1074
  /\ p * 2 ^ 1074
     < ((p * 2 ^ Z.max (- k) 0) / (q * 2 ^ Z.max k 0) + 1) * 2 ^ (k + 1074) * q.
Proof.
  intros Hp Hq Hk.
  pose proof (pow2_split k 1074 ltac:(lia) ltac:(lia)) as Esplit.
  pose proof (pow2_pos (Z.max k 0) ltac:(lia)) as HB.
  pose proof (pow2_pos (Z.max (- k) 0) ltac:(lia)) as HA.
  pose proof (pow2_pos (k + 1074) ltac:(lia)) as HS.
  pose proof (pow2_pos 1074 ltac:(lia)) as HC.
  set (A := 2 ^ Z.max (- k) 0) in *. set (B := 2 ^ Z.max k 0) in *.
  set (S := 2 ^ (k + 1074)) in *. set (C := 2 ^ 1074) in *.
  assert (0 < q * B) as Hd by nia.
  pose proof (Z.div_mod (p * A) (q * B) ltac:(lia)) as Hdm.
  pose proof (Z.mod_pos_bound (p * A) (q * B) Hd) as Hmod.
  set (quo := (p * A) / (q * B)) in *. set (r := (p * A) mod (q * B)) in *.
  assert (0 <= quo) as Hquo0 by (apply Z.div_pos; nia).
  split; [exact Hquo0|]. split.
  - assert (quo * S * q * A <= p * C * A); [|nia].
    replace (quo * S * q * A) with (quo * (q * B) * C)
      by (transitivity (quo * q * (B * C)); [|rewrite Esplit]; ring).
    replace (p * C * A) with (p * A * C) by ring. nia.
  - assert (p * C * A < (quo + 1) * S * q * A); [|nia].
    replace ((quo + 1) * S * q * A) with ((quo + 1) * (q * B) * C)
      by (transitivity ((quo + 1) * q * (B * C)); [|rewrite Esplit]; ring).
    replace (p * C * A) with (p * A * C) by ring. nia.
Qed.

(** [round_ratio] in float_units: the quotient, the rounded mantissa and what is
    returned. *)
Lemma round_ratio_units (neg : bool) (p q : Z) :
  0 < p -> 0 < q ->
  exists k quo m0,
    - 1074 <= k
    /\ 0 <= quo
    /\ quo * 2 ^ (k + 1074) * q <= p * 2 ^ 1074
    /\ p * 2 ^ 1074 < (quo + 1) * 2 ^ (k + 1074) * q
    /\ (m0 = quo \/ (m0 = quo + 1 /\ quo * 2 ^ (k + 1074) * q < p * 2 ^ 1074))
    /\ (- 1074 < k -> 2 ^ 52 <= quo)
    /\ quo < 2 ^ 53
    /\ ((round_ratio neg p q = FInf neg
         /\ 2 ^ 53 * 2 ^ 2045 <= m0 * 2 ^ (k + 1074))
        \/ exists m e, round_ratio neg p q = FFinite neg m e
                       /\ binary64_range m e /\ float_units m e = m0 * 2 ^ (k + 1074)).
Proof.
  intros Hp Hq.
  destruct (round_ratio_core neg p q Hp Hq) as (k & quo & m0 & Hk & Hquo & Hm0 & Hnorm & Hlt & Hres).
  exists k, quo, m0.
  pose proof (pow2_split k 1074 ltac:(lia) ltac:(lia)) as Esplit.
  pose proof (pow2_pos (Z.max k 0) ltac:(lia)) as HB.
  pose proof (pow2_pos (Z.max (- k) 0) ltac:(lia)) as HA.
  pose proof (pow2_pos (k + 1074) ltac:(lia)) as HS.
  pose proof (pow2_pos 1074 ltac:(lia)) as HC.
  set (A := 2 ^ Z.max (- k) 0) in *. set (B := 2 ^ Z.max k 0) in *.
  set (S := 2 ^ (k + 1074)) in *. set (C := 2 ^ 1074) in *.
  assert (0 < q * B) as Hd by (apply Z.mul_pos_pos; assumption).
  pose proof (Z.div_mod (p * A) (q * B) ltac:(lia)) as Hdm.
  pose proof (Z.mod_pos_bound (p * A) (q * B) Hd) as Hmod.
  destruct (quo_units p q k Hp Hq Hk) as (Hquo0 & Hfloor1 & Hfloor2).
  fold A B S C in Hquo0, Hfloor1, Hfloor2.
  rewrite <- Hquo in Hdm, Hquo0, Hfloor1, Hfloor2.
  set (r := (p * A) mod (q * B)) in *.
  split; [exact Hk|]. split; [exact Hquo0|]. split; [exact Hfloor1|].
  split; [exact Hfloor2|].
  split.
  { destruct Hm0 as [->|[-> Hup]]; [left; reflexivity|right; split; [reflexivity|]].
    assert (0 < r) as Hr by lia.
    assert (quo * S * q * A < p * C * A) as Hlt'.
    { replace (quo * S * q * A) with (quo * (q * B) * C)
        by (transitivity (quo * q * (B * C)); [|rewrite Esplit]; ring).
      replace (p * C * A) with (p * A * C) by ring.
      apply Z.mul_lt_mono_pos_r; [exact HC|]. lia. }
    apply Z.mul_lt_mono_pos_r in Hlt'; assumption. }
  split; [exact Hnorm|]. split; [exact Hlt|].
  rewrite Hres.
  assert (0 <= m0 <= 2 ^ 53) as Hm0r by (destruct Hm0 as [->|[-> _]]; lia).
  destruct (Z.eqb_spec m0 (2 ^ 53)) as [Hm|Hm].
  - (* the mantissa was rounded up to 2^53 *)
    assert (2 ^ (k + 1 + 1074) = 2 * S) as ES.
    { replace (k + 1 + 1074) with (1 + (k + 1074)) by lia.
      rewrite Z.pow_add_r by lia. reflexivity. }
    destruct (Z.ltb_spec 971 (k + 1)) as [Hbig|Hsmall].
    + left. split; [reflexivity|]. rewrite Hm.
      assert (2 ^ 2045 <= S) by (apply Z.pow_le_mono_r; lia).
      apply Z.mul_le_mono_nonneg_l; lia.
    + right. change (2 ^ 52 =? 0) with false. cbv iota.
      exists (Z.to_N (2 ^ 52)), (k + 1). split; [reflexivity|].
      split; [split; [rewrite Z2N.id by lia; lia|lia]|].
      unfold float_units. rewrite Z2N.id by lia. rewrite ES, Hm.
      change (2 ^ 53) with (2 ^ 52 * 2). ring.
  - destruct (Z.ltb_spec 971 k) as [Hbig|Hsmall].
    + left. split; [reflexivity|].
      assert (2 ^ 52 <= quo) by (apply Hnorm; lia).
      assert (2 ^ 2046 <= S) by (apply Z.pow_le_mono_r; lia).
      assert (2 ^ 52 <= m0) by (destruct Hm0 as [->|[-> _]]; lia).
      change (2 ^ 2046) with (2 * 2 ^ 2045) in *.
      change (2 ^ 53) with (2 * 2 ^ 52).
      pose proof (pow2_pos 2045 ltac:(lia)). set (T := 2 ^ 2045) in *.
      transitivity (2 ^ 52 * (2 * T)); [lia|].
      apply Z.mul_le_mono_nonneg; lia.
    + right. destruct (Z.eqb_spec m0 0) as [Hz|Hz].
      * exists 0%N, 0. split; [reflexivity|]. split; [split; [reflexivity|lia]|].
        unfold float_units. rewrite Hz. reflexivity.
      * exists (Z.to_N m0), k. split; [reflexivity|].
        split; [split; [rewrite Z2N.id by lia; lia|lia]|].
        unfold float_units. rewrite Z2N.id by lia. reflexivity.
Qed.

(** Rounding does not cross a float: a fraction that is at most (at least)
    a float is rounded to at most (at least) that float. *)
Lemma round_ratio_le (neg : bool) (p q : Z) (M : N) (K : Z) :
  0 < p -> 0 < q -> binary64_range M K ->
  p * float_den K <= float_num false M K * q ->
  exists m e, round_ratio neg p q = FFinite neg m e /\ binary64_range m e
              /\ float_num false m e * float_den K
                 <= float_num false M K * float_den e.
Proof.
  intros Hp Hq [HM HK] Hle.
  apply fraction_le_units in Hle; [|lia|exact Hq].
  destruct (round_ratio_units neg p q Hp Hq)
    as (k & quo & m0 & Hk & Hquo0 & Hf1 & Hf2 & Hm0 & Hnorm & Hlt & Hres).
  pose proof (pow2_pos (k + 1074) ltac:(lia)) as HS.
  pose proof (pow2_pos (K + 1074) ltac:(lia)) as HSK.
  assert (m0 * 2 ^ (k + 1074) <= float_units M K) as Hmain.
  { unfold float_units in *. destruct (Z_le_gt_dec k K) as [HkK|HkK].
    - assert (2 ^ (K + 1074) = 2 ^ (K - k) * 2 ^ (k + 1074)) as E
        by (rewrite <- Z.pow_add_r by lia; f_equal; lia).
      pose proof (pow2_pos (K - k) ltac:(lia)) as HX.
      rewrite E in *. set (X := 2 ^ (K - k)) in *. set (S := 2 ^ (k + 1074)) in *.
      assert (quo * (S * q) <= (Z.of_N M * X) * (S * q)) by nia.
      assert (0 < S * q) by nia.
      assert (quo <= Z.of_N M * X) by nia.
      destruct Hm0 as [->|[-> Hup]]; [nia|].
      assert (quo * (S * q) < (Z.of_N M * X) * (S * q)) by nia.
      assert (quo < Z.of_N M * X) by nia. nia.
    - exfalso. assert (2 ^ 52 <= quo) by (apply Hnorm; lia).
      assert (2 ^ (k + 1074) = 2 ^ (k - K - 1) * (2 * 2 ^ (K + 1074))) as E.
      { change 2 with (2 ^ 1) at 3. rewrite <- !Z.pow_add_r by lia. f_equal. lia. }
      pose proof (pow2_pos (k - K - 1) ltac:(lia)) as HX.
      rewrite E in *. set (X := 2 ^ (k - K - 1)) in *. set (T := 2 ^ (K + 1074)) in *.
      change (2 ^ 53) with (2 * 2 ^ 52) in HM.
      assert (Z.of_N M * T * q < 2 ^ 52 * (X * (2 * T)) * q); [|nia].
      assert (Z.of_N M * T < 2 ^ 52 * (X * (2 * T))); [|nia].
      assert (Z.of_N M < 2 ^ 52 * 2) by lia. nia. }
  destruct Hres as [[_ Hinf]|(m & e & Hr & Hgood & Hu)].
  - exfalso. unfold float_units in Hmain.
    assert (2 ^ (K + 1074) <= 2 ^ 2045) by (apply Z.pow_le_mono_r; lia).
    pose proof (pow2_pos 2045 ltac:(lia)). set (T := 2 ^ 2045) in *.
    assert (Z.of_N M * 2 ^ (K + 1074) < 2 ^ 53 * T); [|lia].
    apply Z.le_lt_trans with (Z.of_N M * T);
      [apply Z.mul_le_mono_nonneg_l; lia|apply Z.mul_lt_mono_pos_r; lia].
  - exists m, e. split; [exact Hr|]. split; [exact Hgood|].
    apply float_le_units; [destruct Hgood; lia|lia|]. lia.
Qed.

Lemma round_ratio_ge (neg s : bool) (p q : Z) (M : N) (K : Z) (m : N) (e : Z) :
  0 < p -> 0 < q -> binary64_range M K ->
  float_num false M K * q <= p * float_den K ->
  round_ratio neg p q = FFinite s m e ->
  binary64_range m e /\ s = neg
  /\ float_num false M K * float_den e <= float_num false m e * float_den K.
Proof.
  intros Hp Hq [HM HK] Hge Hround.
  apply fraction_ge_units in Hge; [|lia|exact Hq].
  destruct (round_ratio_units neg p q Hp Hq)
    as (k & quo & m0 & Hk & Hquo0 & Hf1 & Hf2 & Hm0 & Hnorm & Hlt & Hres).
  pose proof (pow2_pos (k + 1074) ltac:(lia)) as HS.
  pose proof (pow2_pos (K + 1074) ltac:(lia)) as HSK.
  assert (float_units M K <= m0 * 2 ^ (k + 1074)) as Hmain.
  { unfold float_units in *. destruct (Z_le_gt_dec k K) as [HkK|HkK].
    - assert (2 ^ (K + 1074) = 2 ^ (K - k) * 2 ^ (k + 1074)) as E
        by (rewrite <- Z.pow_add_r by lia; f_equal; lia).
      pose proof (pow2_pos (K - k) ltac:(lia)) as HX.
      rewrite E in *. set (X := 2 ^ (K - k)) in *. set (S := 2 ^ (k + 1074)) in *.
      assert ((Z.of_N M * X) * (S * q) < (quo + 1) * (S * q)) by nia.
      assert (0 < S * q) by nia.
      assert (Z.of_N M * X < quo + 1) by nia.
      destruct Hm0 as [->|[-> Hup]]; nia.
    - assert (2 ^ 52 <= quo) by (apply Hnorm; lia).
      assert (2 ^ (k + 1074) = 2 ^ (k - K - 1) * (2 * 2 ^ (K + 1074))) as E.
      { change 2 with (2 ^ 1) at 3. rewrite <- !Z.pow_add_r by lia. f_equal. lia. }
      pose proof (pow2_pos (k - K - 1) ltac:(lia)) as HX.
      rewrite E in *. set (X := 2 ^ (k - K - 1)) in *. set (T := 2 ^ (K + 1074)) in *.
      change (2 ^ 53) with (2 * 2 ^ 52) in HM.
      assert (2 ^ 52 <= m0) by (destruct Hm0 as [->|[-> _]]; lia).
      assert (0 <= Z.of_N M) by lia. nia. }
  destruct Hres as [[Hinf _]|(m' & e' & Hr & Hgood & Hu)]; [congruence|].
  rewrite Hr in Hround. injection Hround as <- <- <-.
  split; [exact Hgood|]. split; [reflexivity|].
  apply float_le_units; [lia|destruct Hgood; lia|]. lia.
Qed.

(** Two equal fractions have the same integer quotient, and their
    remainders are in the same proportion. *)
Lemma div_proportional (n d n' d' : Z) :
  0 < d -> 0 < d' -> n * d' = n' * d ->
  n / d = n' / d' /\ (n mod d) * d' = (n' mod d') * d.
Proof.
  intros Hd Hd' Heq.
  assert (n / d = n' / d') as Hquo.
  { rewrite <- (Z.div_mul_cancel_r n d d') by lia.
    rewrite <- (Z.div_mul_cancel_r n' d' d) by lia.
    rewrite Heq. f_equal. ring. }
  split; [exact Hquo|].
  rewrite !Z.mod_eq by lia. rewrite <- Hquo. set (Q := n / d).
  rewrite !Z.mul_sub_distr_r. rewrite Heq. f_equal. ring.
Qed.

(** Two fractions r/d = r'/d' compare alike with one half. *)
Lemma proportional_compare (d r d' r' : Z) :
  0 < d -> 0 < d' -> r * d' = r' * d ->
  (d <? 2 * r) = (d' <? 2 * r') /\ (d =? 2 * r) = (d' =? 2 * r').
Proof.
  intros Hd Hd' Heq.
  assert (2 * r * d' = 2 * r' * d) as Heq2.
  { rewrite <- !Z.mul_assoc. f_equal. exact Heq. }
  split.
  - destruct (Z.ltb_spec d (2 * r)) as [H|H], (Z.ltb_spec d' (2 * r')) as [H'|H'];
      try reflexivity; exfalso.
    + apply (Z.mul_lt_mono_pos_r d') in H; [|exact Hd'].
      apply (Z.mul_le_mono_pos_r _ _ d) in H'; [|exact Hd].
      rewrite Heq2 in H. rewrite (Z.mul_comm d' d) in H'. lia.
    + apply (Z.mul_le_mono_pos_r _ _ d') in H; [|exact Hd'].
      apply (Z.mul_lt_mono_pos_r d) in H'; [|exact Hd].
      rewrite Heq2 in H. rewrite (Z.mul_comm d' d) in H'. lia.
  - destruct (Z.eqb_spec d (2 * r)) as [H|H], (Z.eqb_spec d' (2 * r')) as [H'|H'];
      try reflexivity; exfalso.
    + apply H'. apply (Z.mul_cancel_r _ _ d); [lia|].
      rewrite <- Heq2, <- H. ring.
    + apply H. apply (Z.mul_cancel_r _ _ d'); [lia|].
      rewrite Heq2, <- H'. ring.
Qed.

(** The exponent that [round_ratio] settles on is decided by the value of
    the fraction. *)
Lemma exponent_order (p q p' q' k k' : Z) :
  0 < p -> 0 < q -> 0 < p' -> 0 < q' -> p * q' = p' * q ->
  - 1074 <= k -> - 1074 <= k' ->
  (p * 2 ^ Z.max (- k) 0) / (q * 2 ^ Z.max k 0) < 2 ^ 53 ->
  (- 1074 < k' -> 2 ^ 52 <= (p' * 2 ^ Z.max (- k') 0) / (q' * 2 ^ Z.max k' 0)) ->
  k' <= k.
Proof.
  intros Hp Hq Hp' Hq' Heq Hk Hk' Hlt Hnorm.
  destruct (Z_le_gt_dec k' k) as [|Hgt]; [assumption|exfalso].
  specialize (Hnorm ltac:(lia)).
  destruct (quo_units p q k Hp Hq Hk) as (_ & _ & Hup).
  destruct (quo_units p' q' k' Hp' Hq' Hk') as (_ & Hlow & _).
  set (quo := (p * 2 ^ Z.max (- k) 0) / (q * 2 ^ Z.max k 0)) in *.
  set (quo' := (p' * 2 ^ Z.max (- k') 0) / (q' * 2 ^ Z.max k' 0)) in *.
  assert (2 ^ (k' + 1074) = 2 ^ (k' - k - 1) * (2 * 2 ^ (k + 1074))) as E.
  { change 2 with (2 ^ 1) at 3. rewrite <- !Z.pow_add_r by lia. f_equal. lia. }
  pose proof (pow2_pos (k' - k - 1) ltac:(lia)) as HX.
  pose proof (pow2_pos (k + 1074) ltac:(lia)) as HS.
  pose proof (pow2_pos 1074 ltac:(lia)) as HC.
  rewrite E in Hlow.
  set (X := 2 ^ (k' - k - 1)) in *. set (S := 2 ^ (k + 1074)) in *.
  set (C := 2 ^ 1074) in *.
  change (2 ^ 53) with (2 * 2 ^ 52) in Hlt.
  (* p C < 2^53 S q   and   2^53 S q' <= p' C *)
  assert (p * C < 2 * 2 ^ 52 * (S * q)) as H1.
  { assert ((quo + 1) * (S * q) <= 2 * 2 ^ 52 * (S * q))
      by (apply Z.mul_le_mono_nonneg_r; nia).
    lia. }
  assert (2 * 2 ^ 52 * (S * q') <= p' * C) as H2.
  { assert (2 ^ 52 * (X * (2 * S)) * q' <= quo' * (X * (2 * S)) * q')
      by (apply Z.mul_le_mono_nonneg_r; [lia|apply Z.mul_le_mono_nonneg_r; nia]).
    assert (2 ^ 52 * (1 * (2 * S)) * q' <= 2 ^ 52 * (X * (2 * S)) * q').
    { apply Z.mul_le_mono_nonneg_r; [lia|].
      apply Z.mul_le_mono_nonneg_l; [lia|].
      apply Z.mul_le_mono_nonneg_r; lia. }
    lia. }
  assert (p * C * q' < 2 * 2 ^ 52 * (S * q) * q') as H3
    by (apply Z.mul_lt_mono_pos_r; assumption).
  assert (2 * 2 ^ 52 * (S * q') * q <= p' * C * q) as H4
    by (apply Z.mul_le_mono_nonneg_r; [lia|assumption]).
  assert (p' * C * q = p * C * q') as H5.
  { transitivity (p' * q * C); [ring|]. rewrite <- Heq. ring. }
  assert (2 * 2 ^ 52 * (S * q') * q = 2 * 2 ^ 52 * (S * q) * q') as H6 by ring.
  lia.
Qed.

(** [round_ratio] depends on the value of the fraction only. *)
Lemma round_ratio_proportional (neg : bool) (p q p' q' : Z) :
  0 < p -> 0 < q -> 0 < p' -> 0 < q' -> p * q' = p' * q ->
  round_ratio neg p q = round_ratio neg p' q'.
Proof.
  intros Hp Hq Hp' Hq' Heq.
  destruct (round_ratio_core_exact neg p q Hp Hq) as (k & Hk & Hnorm & Hlt & ->).
  destruct (round_ratio_core_exact neg p' q' Hp' Hq') as (k' & Hk' & Hnorm' & Hlt' & ->).
  assert (k' <= k) by (apply (exponent_order p q p' q'); assumption).
  assert (k <= k') by (apply (exponent_order p' q' p q); auto).
  assert (k' = k) as -> by lia.
  cbv zeta.
  pose proof (pow2_pos (Z.max k 0) ltac:(lia)) as HB.
  pose proof (pow2_pos (Z.max (- k) 0) ltac:(lia)) as HA.
  set (A := 2 ^ Z.max (- k) 0) in *. set (B := 2 ^ Z.max k 0) in *.
  assert (0 < q * B) as Hd by nia. assert (0 < q' * B) as Hd' by nia.
  assert (p * A * (q' * B) = p' * A * (q * B)) as Hprop.
  { transitivity (p * q' * (A * B)); [ring|]. rewrite Heq. ring. }
  destruct (div_proportional (p * A) (q * B) (p' * A) (q' * B) Hd Hd' Hprop)
    as [Hquo Hrem].
  pose proof (Z.mod_pos_bound (p * A) (q * B) Hd) as Hr.
  pose proof (Z.mod_pos_bound (p' * A) (q' * B) Hd') as Hr'.
  rewrite <- Hquo.
  set (n := p * A) in *. set (d := q * B) in *.
  set (n' := p' * A) in *. set (d' := q' * B) in *.
  set (r := n mod d) in *. set (r' := n' mod d') in *.
  destruct (proportional_compare d r d' r' Hd Hd' Hrem) as [-> ->].
  reflexivity.
Qed.

(** ** Bounds in dyadic form: M / 2^sh *)

Lemma good_dyadic (M sh : Z) :
  0 <= M < 2 ^ 53 -> 0 <= sh <= 1074 ->
  binary64_range (Z.to_N M) (- sh)
  /\ float_num false (Z.to_N M) (- sh) = M
  /\ float_den (- sh) = 2 ^ sh.
Proof.
  intros HM Hsh. unfold binary64_range, float_num, float_den.
  rewrite Z2N.id by lia. rewrite Z.opp_involutive.
  rewrite Z.max_r, Z.max_l by lia. rewrite Z.pow_0_r, Z.mul_1_r.
  repeat split; lia.
Qed.

(** A fraction that is at most 2^52 does not overflow. *)
Lemma round_ratio_finite (neg : bool) (p q : Z) :
  0 < p -> 0 < q -> p <= 2 ^ 52 * q ->
  exists m e, round_ratio neg p q = FFinite neg m e /\ binary64_range m e.
Proof.
  intros Hp Hq Hle.
  destruct (good_dyadic (2 ^ 52) 0 ltac:(lia) ltac:(lia)) as (Hg & Hn & Hd).
  destruct (round_ratio_le neg p q (Z.to_N (2 ^ 52)) (- 0) Hp Hq Hg) as (m & e & H & Hgood & _).
  { rewrite Hn, Hd. lia. }
  eauto.
Qed.

Lemma round_ratio_upper (neg s : bool) (p q : Z) (m : N) (e : Z) (M sh : Z) :
  round_ratio neg p q = FFinite s m e ->
  0 < p -> 0 < q -> 0 <= M < 2 ^ 53 -> 0 <= sh <= 1074 ->
  p * 2 ^ sh <= M * q ->
  float_num false m e * 2 ^ sh <= M * float_den e.
Proof.
  intros Hr Hp Hq HM Hsh Hle.
  destruct (good_dyadic M sh HM Hsh) as (Hg & Hn & Hd).
  destruct (round_ratio_le neg p q (Z.to_N M) (- sh) Hp Hq Hg) as (m' & e' & H & _ & Hb).
  { rewrite Hn, Hd. exact Hle. }
  rewrite H in Hr. injection Hr as _ <- <-. rewrite Hn, Hd in Hb. exact Hb.
Qed.

Lemma round_ratio_lower (neg s : bool) (p q : Z) (m : N) (e : Z) (M sh : Z) :
  round_ratio neg p q = FFinite s m e ->
  0 < p -> 0 < q -> 0 <= M < 2 ^ 53 -> 0 <= sh <= 1074 ->
  M * q <= p * 2 ^ sh ->
  M * float_den e <= float_num false m e * 2 ^ sh.
Proof.
  intros Hr Hp Hq HM Hsh Hle.
  destruct (good_dyadic M sh HM Hsh) as (Hg & Hn & Hd).
  destruct (round_ratio_ge neg s p q (Z.to_N M) (- sh) m e Hp Hq Hg) as (_ & _ & Hb).
  { rewrite Hn, Hd. exact Hle. }
  { exact Hr. }
  rewrite Hn, Hd in Hb. exact Hb.
Qed.

(** ** Floor and ceiling of a fraction *)

Lemma floor_ceil_spec (n d : Z) :
  0 < d ->
  (n / d) * d <= n < (n / d + 1) * d
  /\ (- ((- n) / d) - 1) * d < n <= - ((- n) / d) * d.
Proof.
  intros Hd.
  pose proof (Z.div_mod n d ltac:(lia)). pose proof (Z.mod_pos_bound n d Hd).
  pose proof (Z.div_mod (- n) d ltac:(lia)). pose proof (Z.mod_pos_bound (- n) d Hd).
  nia.
Qed.

Lemma floor_ceil_between (n d lo hi : Z) :
  0 < d -> lo * d <= n -> n <= hi * d ->
  lo <= n / d <= hi /\ lo <= - ((- n) / d) <= hi.
Proof.
  intros Hd Hlo Hhi. destruct (floor_ceil_spec n d Hd) as [[F1 F2] [C1 C2]].
  set (f := n / d) in *. set (c := - ((- n) / d)) in *. nia.
Qed.

(** ** [int / int] *)

Lemma int_truediv_pos (a b : Z) :
  0 < a -> 0 < b -> a <= 2 ^ 52 * b ->
  exists m e, int_truediv a b = Return (FFinite false m e)
              /\ round_ratio false a b = FFinite false m e
              /\ binary64_range m e.
Proof.
  intros Ha Hb Hle. unfold int_truediv, round_fraction.
  assert ((b =? 0) = false) as -> by lia.
  assert ((b <? 0) = false) as -> by lia.
  assert ((a =? 0) = false) as -> by lia.
  assert ((a <? 0) = false) as -> by lia.
  rewrite (Z.abs_eq a), (Z.abs_eq b) by lia.
  destruct (round_ratio_finite false a b Ha Hb Hle) as (m & e & Hr & Hg).
  rewrite Hr. eauto.
Qed.

Lemma float_num_nonneg (m : N) (e : Z) : 0 <= float_num false m e.
Proof.
  unfold float_num. pose proof (pow2_pos (Z.max e 0) ltac:(lia)).
  apply Z.mul_nonneg_nonneg; lia.
Qed.

Lemma float_num_zero (m : N) (e : Z) :
  0 < float_num false m e -> (m =? 0)%N = false.
Proof.
  intros H. apply N.eqb_neq. intros ->. unfold float_num in H.
  change (Z.of_N 0) with 0 in H. lia.
Qed.

Lemma round_fraction_pos (zero_neg : bool) (n d : Z) :
  0 < n -> round_fraction zero_neg n d = round_ratio false n d.
Proof.
  intros Hn. unfold round_fraction.
  assert ((n =? 0) = false) as -> by lia.
  assert ((n <? 0) = false) as -> by lia.
  rewrite Z.abs_eq by lia. reflexivity.
Qed.

Lemma int_truediv_nonneg (a b : Z) :
  0 <= a -> 0 < b -> a <= 2 ^ 52 * b ->
  exists f, int_truediv a b = Return f.
Proof.
  intros Ha Hb Hle. destruct (Z.eq_dec a 0) as [->|Hne].
  - unfold int_truediv, round_fraction.
    assert ((b =? 0) = false) as -> by lia.
    assert ((b <? 0) = false) as -> by lia.
    change (0 =? 0) with true. cbv iota. eauto.
  - destruct (int_truediv_pos a b ltac:(lia) Hb Hle) as (m & e & H & _). eauto.
Qed.

Lemma int_truediv_1024_1024 :
  int_truediv 1024 1024 = Return (FFinite false (Z.to_N (2 ^ 52)) (- 52)).
Proof. vm_compute. reflexivity. Qed.

Lemma int_to_float_1024 :
  int_to_float 1024 = Return (FFinite false (Z.to_N (2 ^ 52)) (- 42)).
Proof. vm_compute. reflexivity. Qed.

(** [round_aspect] on a number between two integers one apart, or equal. *)
Lemma round_aspect_between (m : N) (e : Z) (key : Z -> outcome pyfloat) (k k' : Z) :
  k * float_den e <= float_num false m e ->
  float_num false m e <= k' * float_den e ->
  (forall n, k <= n <= k' -> exists f, key n = Return f) ->
  exists r, round_aspect (FFinite false m e) key = Return r
            /\ Z.max k 1 <= r <= Z.max k' 1.
Proof.
  intros Hlo Hhi Hkey. unfold round_aspect, math_floor, math_ceil.
  cbn [mbind outcome_bind].
  destruct (floor_ceil_between (float_num false m e) (float_den e) k k'
              (float_den_pos e) Hlo Hhi) as [Hf Hc].
  destruct (Hkey _ Hf) as [klo ->]. destruct (Hkey _ Hc) as [khi ->].
  cbn [mbind outcome_bind]. eexists. split; [reflexivity|].
  destruct (float_ltb khi klo); lia.
Qed.

(** The size depends on the image through the guard and the aspect ratio. *)
Lemma thumbnail_size_same_aspect (w h w' h' : positive) (x y : Z) :
  (Z.pos w <=? x) && (Z.pos h <=? y) = (Z.pos w' <=? x) && (Z.pos h' <=? y) ->
  int_truediv (Z.pos w) (Z.pos h) = int_truediv (Z.pos w') (Z.pos h') ->
  thumbnail_size w h x y = thumbnail_size w' h' x y.
Proof. intros Hg Ha. unfold thumbnail_size. rewrite Hg, Ha. reflexivity. Qed.

Lemma int_truediv_proportional (a b a' b' : Z) :
  0 < a -> 0 < b -> 0 < a' -> 0 < b' -> a * b' = a' * b ->
  int_truediv a b = int_truediv a' b'.
Proof.
  intros Ha Hb Ha' Hb' Heq. unfold int_truediv.
  assert ((b =? 0) = false) as -> by lia.
  assert ((b' =? 0) = false) as -> by lia.
  assert ((b <? 0) = false) as -> by lia.
  assert ((b' <? 0) = false) as -> by lia.
  rewrite !round_fraction_pos by lia. rewrite (Z.abs_eq b), (Z.abs_eq b') by lia.
  rewrite (round_ratio_proportional false a b a' b') by assumption. reflexivity.
Qed.

(** The sizes 2048 x 2k, one for each whole number k of proportional
    pixels. *)
Lemma thumbnail_size_2048 (k : Z) :
  1 <= k <= 1023 ->
  thumbnail_size 2048 (Z.to_pos (2 * k)) 1024 1024 = Return (Some (1024, k)).
Proof.
  intros Hk.
  assert (forallb (fun i =>
            let k := Z.of_nat i + 1 in
            match thumbnail_size 2048 (Z.to_pos (2 * k)) 1024 1024 with
            | Return (Some (x, y)) => (x =? 1024) && (y =? k)
            | _ => false
            end) (seq 0 1023) = true) as Hall by (vm_compute; reflexivity).
  rewrite forallb_forall in Hall.
  specialize (Hall (Z.to_nat (k - 1))). cbv zeta in Hall.
  replace (Z.of_nat (Z.to_nat (k - 1)) + 1) with k in Hall by lia.
  assert (In (Z.to_nat (k - 1)) (seq 0 1023)) as Hin by (apply in_seq; lia).
  specialize (Hall Hin).
  destruct (thumbnail_size 2048 (Z.to_pos (2 * k)) 1024 1024) as [[[x y]|]|];
    try discriminate.
  apply andb_true_iff in Hall as [Hx Hy]. apply Z.eqb_eq in Hx, Hy. congruence.
Qed.

Lemma float_consts :
  float_num false (Z.to_N (2 ^ 52)) (- 52) = 2 ^ 52
  /\ float_den (- 52) = 2 ^ 52
  /\ float_num false (Z.to_N (2 ^ 52)) (- 42) = 2 ^ 52
  /\ float_den (- 42) = 2 ^ 42.
Proof. vm_compute. auto. Qed.

(** The image is at least as high as it is wide: the width follows. *)
Lemma thumbnail_size_portrait (width height : positive) :
  Z.pos width <= Z.pos height -> 1024 < Z.pos height -> Z.pos height < 2 ^ 28 ->
  exists x,
    thumbnail_size width height 1024 1024 = Return (Some (x, 1024))
    /\ 1 <= x
    /\ Z.abs (x * Z.pos height - 1024 * Z.pos width) < Z.pos height
    /\ ((1024 * Z.pos width) mod Z.pos height = 0 ->
        x * Z.pos height = 1024 * Z.pos width).
Proof.
  intros Hwh Hbig Hsmall. unfold thumbnail_size.
  set (w := Z.pos width) in *. set (h := Z.pos height) in *.
  assert (0 < w) as Hw by (unfold w; lia).
  assert ((w <=? 1024) && (h <=? 1024) = false) as ->.
  { apply andb_false_iff. rewrite !Z.leb_gt. lia. }
  destruct float_consts as (C1 & C2 & C3 & C4).
  (* aspect *)
  destruct (int_truediv_pos w h Hw ltac:(lia) ltac:(lia)) as (ma & ea & -> & Hra & Hga).
  cbn [mbind outcome_bind]. rewrite int_truediv_1024_1024. cbn [mbind outcome_bind].
  pose proof (float_den_pos ea) as HDa.
  pose proof (round_ratio_upper _ _ _ _ _ _ 1 0 Hra Hw ltac:(lia) ltac:(lia) ltac:(lia)
                ltac:(lia)) as Hone.
  pose proof (round_ratio_lower _ _ _ _ _ _ 1 28 Hra Hw ltac:(lia) ltac:(lia) ltac:(lia)
                ltac:(lia)) as Hpos.
  set (Na := float_num false ma ea) in *. set (Da := float_den ea) in *.
  assert (0 < Na) as HNa by lia.
  assert (float_leb (FFinite false ma ea) (FFinite false (Z.to_N (2 ^ 52)) (- 52)) = true)
    as ->.
  { unfold float_leb. rewrite C1, C2. fold Na Da. apply Z.leb_le. lia. }
  rewrite int_to_float_1024. cbn [mbind outcome_bind].
  (* the proportional width, between k and k' *)
  pose proof (Z.div_mod (1024 * w) h ltac:(lia)) as Hdm.
  pose proof (Z.mod_pos_bound (1024 * w) h ltac:(lia)) as Hmod.
  set (k := (1024 * w) / h) in *. set (r := (1024 * w) mod h) in *.
  assert (0 <= k) as Hk0 by (apply Z.div_pos; lia).
  assert (k <= 1024) as Hk1 by nia.
  set (k' := if r =? 0 then k else k + 1).
  assert (k' <= 1025 /\ k <= k' /\ 1024 * w <= k' * h /\ (r <> 0 -> 1024 * w < k' * h
          /\ k * h < 1024 * w /\ k' = k + 1) /\ (r = 0 -> k' = k))
    as (Hk'1 & Hkk' & Hk'h & Hinexact & Hexact).
  { unfold k'. destruct (Z.eqb_spec r 0); repeat split; try lia; nia. }
  clearbody k'.
  pose proof (round_ratio_lower _ _ _ _ _ _ k 10 Hra Hw ltac:(lia) ltac:(lia) ltac:(lia)
                ltac:(change (2 ^ 10) with 1024; lia)) as Halo.
  pose proof (round_ratio_upper _ _ _ _ _ _ k' 10 Hra Hw ltac:(lia) ltac:(lia) ltac:(lia)
                ltac:(change (2 ^ 10) with 1024; lia)) as Hahi.
  fold Na Da in Halo, Hahi.
  (* number = 1024 * aspect *)
  unfold float_mul. cbn [xorb]. rewrite C3, C4. fold Na Da.
  rewrite round_fraction_pos by lia.
  assert (0 < 2 ^ 52 * Na) as Hp by lia.
  assert (0 < 2 ^ 42 * Da) as Hq by lia.
  destruct (round_ratio_finite false (2 ^ 52 * Na) (2 ^ 42 * Da) Hp Hq ltac:(lia))
    as (mn & en & Hrn & Hgn).
  rewrite Hrn.
  pose proof (round_ratio_lower _ _ _ _ _ _ k 0 Hrn Hp Hq ltac:(lia) ltac:(lia)) as Hnlo.
  pose proof (round_ratio_upper _ _ _ _ _ _ k' 0 Hrn Hp Hq ltac:(lia) ltac:(lia)) as Hnhi.
  change (2 ^ 0) with 1 in *. change (2 ^ 52) with (2 ^ 42 * 2 ^ 10) in Hnlo, Hnhi.
  pose proof (pow2_pos 42 ltac:(lia)) as H42. set (T := 2 ^ 42) in *.
  specialize (Hnlo ltac:(nia)). specialize (Hnhi ltac:(nia)).
  match goal with
  | |- context [round_aspect _ ?key] =>
      destruct (round_aspect_between mn en key k k' ltac:(lia) ltac:(lia))
        as (x & Hra' & Hx)
  end.
  { intros n Hn. destruct (int_truediv_nonneg n 1024 ltac:(lia) ltac:(lia) ltac:(lia))
      as [f ->].
    cbn [mbind outcome_bind]. eauto. }
  rewrite Hra'. cbn [mbind outcome_bind]. exists x. split; [reflexivity|].
  split; [lia|]. destruct (Z.eq_dec r 0) as [Hr|Hr].
  - specialize (Hexact Hr). subst k'. assert (1 <= k) by nia.
    assert (x = k) as -> by lia. split; [|intros _]; nia.
  - destruct (Hinexact Hr) as (H1 & H2 & ->). split; [|intros; lia].
    assert (x = k \/ x = k + 1) as [-> | ->] by lia; [|nia].
    assert (1 <= k \/ k = 0) as [Hk|Hk] by lia; [nia|subst k; lia].
Qed.

(** The image is wider than high, and the proportional height is not a
    whole number: the height is one of the two whole numbers around it. *)
Lemma thumbnail_size_landscape_inexact (width height : positive) :
  Z.pos height < Z.pos width -> 1024 < Z.pos width -> Z.pos width < 2 ^ 28 ->
  (1024 * Z.pos height) mod Z.pos width <> 0 ->
  exists y,
    thumbnail_size width height 1024 1024 = Return (Some (1024, y))
    /\ 1 <= y
    /\ Z.abs (y * Z.pos width - 1024 * Z.pos height) < Z.pos width.
Proof.
  intros Hwh Hbig Hsmall Hrem. unfold thumbnail_size.
  set (w := Z.pos width) in *. set (h := Z.pos height) in *.
  assert (0 < h) as Hh by (unfold h; lia).
  assert ((w <=? 1024) && (h <=? 1024) = false) as ->.
  { apply andb_false_iff. rewrite !Z.leb_gt. lia. }
  destruct float_consts as (C1 & C2 & C3 & C4).
  (* aspect *)
  destruct (int_truediv_pos w h ltac:(lia) Hh ltac:(lia)) as (ma & ea & -> & Hra & Hga).
  cbn [mbind outcome_bind]. rewrite int_truediv_1024_1024. cbn [mbind outcome_bind].
  pose proof (float_den_pos ea) as HDa.
  pose proof (round_ratio_lower _ _ _ _ _ _ (2 ^ 28 + 1) 28 Hra ltac:(lia) Hh ltac:(lia)
                ltac:(lia) ltac:(lia)) as Hone.
  pose proof (float_num_zero ma ea) as Hnz.
  set (Na := float_num false ma ea) in *. set (Da := float_den ea) in *.
  assert (Da < Na) as HNa by lia.
  assert (float_leb (FFinite false ma ea) (FFinite false (Z.to_N (2 ^ 52)) (- 52)) = false)
    as ->.
  { unfold float_leb. rewrite C1, C2. fold Na Da. apply Z.leb_gt. lia. }
  rewrite int_to_float_1024. cbn [mbind outcome_bind].
  (* the proportional height, between k and k + 1 *)
  pose proof (Z.div_mod (1024 * h) w ltac:(lia)) as Hdm.
  pose proof (Z.mod_pos_bound (1024 * h) w ltac:(lia)) as Hmod.
  set (k := (1024 * h) / w) in *. set (r := (1024 * h) mod w) in *.
  assert (0 <= k) as Hk0 by (apply Z.div_pos; lia).
  assert (k <= 1023) as Hk1 by nia.
  assert (k * w < 1024 * h) as Hlow by lia.
  assert (1024 * h < (k + 1) * w) as Hhigh by lia.
  (* number = 1024 / aspect *)
  unfold float_div, float_is_zero. rewrite Hnz by lia. cbn [xorb].
  rewrite C3, C4. fold Na Da.
  rewrite round_fraction_pos by lia.
  assert (0 < 2 ^ 52 * Da) as Hp by lia.
  assert (0 < 2 ^ 42 * Na) as Hq by lia.
  destruct (round_ratio_finite false (2 ^ 52 * Da) (2 ^ 42 * Na) Hp Hq ltac:(lia))
    as (mn & en & Hrn & Hgn).
  rewrite Hrn. cbn [mbind outcome_bind].
  pose proof (pow2_pos 42 ltac:(lia)) as H42.
  assert (2 ^ 52 = 2 ^ 42 * 1024) as E52 by reflexivity.
  assert (2 ^ 28 * 1024 < 2 ^ 42) as E28 by reflexivity.
  (* above: aspect >= M1 / 2^42 >= 1024 / (k + 1) *)
  assert (float_num false mn en <= (k + 1) * float_den en) as Hnhi.
  { pose proof (Z.div_mod (2 ^ 52 + k) (k + 1) ltac:(lia)) as Hd1.
    pose proof (Z.mod_pos_bound (2 ^ 52 + k) (k + 1) ltac:(lia)) as Hm1.
    set (M1 := (2 ^ 52 + k) / (k + 1)) in *.
    assert (0 <= M1) by (apply Z.div_pos; lia).
    assert (2 ^ 52 <= M1 * (k + 1)) as HM1 by lia.
    assert (M1 * (k + 1) <= 2 ^ 52 + k) as HM1' by lia.
    assert (M1 <= 2 ^ 52) by nia.
    assert (M1 * h <= w * 2 ^ 42) as Hin.
    { assert (M1 * h * (k + 1) < 2 ^ 42 * w * (k + 1)); [|nia].
      assert (M1 * (k + 1) * h <= (2 ^ 52 + k) * h) by nia.
      assert (k * h < 2 ^ 42).
      { apply Z.le_lt_trans with (1023 * h); [apply Z.mul_le_mono_nonneg_r; lia|lia]. }
      rewrite E52 in *. set (T := 2 ^ 42) in *. nia. }
    pose proof (round_ratio_lower _ _ _ _ _ _ M1 42 Hra ltac:(lia) Hh ltac:(lia)
                  ltac:(lia) Hin) as Ha.
    fold Na Da in Ha.
    pose proof (round_ratio_upper _ _ _ _ _ _ (k + 1) 0 Hrn Hp Hq ltac:(lia) ltac:(lia))
      as Hn.
    change (2 ^ 0) with 1 in Hn. rewrite !Z.mul_1_r in Hn. apply Hn.
    assert (2 ^ 52 * Da <= M1 * (k + 1) * Da) by nia.
    assert (M1 * Da * (k + 1) <= Na * 2 ^ 42 * (k + 1))
      by (apply Z.mul_le_mono_nonneg_r; lia).
    set (T := 2 ^ 42) in *. nia. }
  (* below: aspect <= M2 / 2^42 <= 1024 / k *)
  assert (k * float_den en <= float_num false mn en) as Hnlo.
  { destruct (Z.eq_dec k 0) as [->|Hk].
    { pose proof (float_num_nonneg mn en). lia. }
    pose proof (Z.div_mod (2 ^ 52) k ltac:(lia)) as Hd2.
    pose proof (Z.mod_pos_bound (2 ^ 52) k ltac:(lia)) as Hm2.
    set (M2 := 2 ^ 52 / k) in *.
    assert (0 <= M2) by (apply Z.div_pos; lia).
    assert (M2 * k <= 2 ^ 52) as HM2 by lia.
    assert (2 ^ 52 - k < M2 * k) as HM2' by lia.
    assert (M2 <= 2 ^ 52) by nia.
    assert (w * 2 ^ 42 <= M2 * h) as Hin.
    { assert (2 ^ 42 * w * k < M2 * h * k); [|nia].
      assert ((2 ^ 52 - k) * h < M2 * k * h) by nia.
      assert (k * h < 2 ^ 42).
      { apply Z.le_lt_trans with (1023 * h); [apply Z.mul_le_mono_nonneg_r; lia|lia]. }
      rewrite E52 in *. set (T := 2 ^ 42) in *. nia. }
    pose proof (round_ratio_upper _ _ _ _ _ _ M2 42 Hra ltac:(lia) Hh ltac:(lia)
                  ltac:(lia) Hin) as Ha.
    fold Na Da in Ha.
    pose proof (round_ratio_lower _ _ _ _ _ _ k 0 Hrn Hp Hq ltac:(lia) ltac:(lia))
      as Hn.
    change (2 ^ 0) with 1 in Hn. rewrite !Z.mul_1_r in Hn. apply Hn.
    assert (M2 * k * Da <= 2 ^ 52 * Da) by nia.
    assert (Na * 2 ^ 42 * k <= M2 * Da * k) by (apply Z.mul_le_mono_nonneg_r; lia).
    set (T := 2 ^ 42) in *. nia. }
  match goal with
  | |- context [round_aspect _ ?key] =>
      destruct (round_aspect_between mn en key k (k + 1) Hnlo Hnhi)
        as (y & Hy' & Hy)
  end.
  { intros n Hn. destruct (Z.eqb_spec n 0) as [_|Hn0]; [eauto|].
    destruct (int_truediv_pos 1024 n ltac:(lia) ltac:(lia) ltac:(lia))
      as (mq & eq & Hq' & _).
    rewrite Hq'. cbn [mbind outcome_bind]. eauto. }
  rewrite Hy'. cbn [mbind outcome_bind]. exists y. split; [reflexivity|].
  split; [lia|].
  assert (y = k + 1 \/ (y = k /\ 1 <= k)) as [-> | [-> Hk]] by lia; nia.
Qed.

(** The image is wider than high, and the proportional height is a whole
    number: that number is the height. *)
Lemma thumbnail_size_landscape_exact (width height : positive) :
  Z.pos height < Z.pos width -> 1024 < Z.pos width ->
  (1024 * Z.pos height) mod Z.pos width = 0 ->
  exists y,
    thumbnail_size width height 1024 1024 = Return (Some (1024, y))
    /\ 1 <= y
    /\ y * Z.pos width = 1024 * Z.pos height.
Proof.
  intros Hwh Hbig Hrem.
  set (w := Z.pos width) in *. set (h := Z.pos height) in *.
  assert (0 < h) as Hh by (unfold h; lia).
  pose proof (Z.div_mod (1024 * h) w ltac:(lia)) as Hdm. rewrite Hrem in Hdm.
  set (k := (1024 * h) / w) in *.
  assert (1 <= k <= 1023) as Hk by nia.
  exists k. split; [|split; [lia|lia]].
  rewrite <- (thumbnail_size_2048 k Hk).
  apply thumbnail_size_same_aspect.
  - fold w h. rewrite Z2Pos.id by lia.
    assert ((w <=? 1024) = false) as -> by lia. reflexivity.
  - fold w h. rewrite Z2Pos.id by lia.
    apply int_truediv_proportional; lia.
Qed.

(** The size that Pillow computes for an image with a side above 1024 that
    passed the check of [Image.open]. *)
Lemma thumbnail_size_large (width height : positive) :
  Z.pos width * Z.pos height <= 178956970 ->
  1024 < Z.max (Z.pos width) (Z.pos height) ->
  exists x y,
    thumbnail_size width height 1024 1024 = Return (Some (x, y))
    /\ 1 <= x <= Z.pos width /\ 1 <= y <= Z.pos height
    /\ Z.max x y = 1024
    /\ Z.abs (x * Z.pos height - Z.pos width * y) < Z.max (Z.pos width) (Z.pos height)
    /\ ((1024 * Z.min (Z.pos width) (Z.pos height))
          mod Z.max (Z.pos width) (Z.pos height) = 0 ->
        x * Z.pos height = Z.pos width * y).
Proof.
  intros Hpix Hbig.
  set (w := Z.pos width) in *. set (h := Z.pos height) in *.
  assert (0 < w) as Hw by (unfold w; lia).
  assert (0 < h) as Hh by (unfold h; lia).
  assert (w < 2 ^ 28 /\ h < 2 ^ 28) as [Hw28 Hh28].
  { change (2 ^ 28) with 268435456. nia. }
  destruct (Z_le_gt_dec w h) as [Hle|Hgt].
  - destruct (thumbnail_size_portrait width height Hle ltac:(fold h; lia) Hh28)
      as (x & Hsize & Hx & Habs & Hex).
    fold w h in Habs, Hex.
    exists x, 1024. split; [exact Hsize|].
    assert (Z.max w h = h) as -> by lia. assert (Z.min w h = w) as -> by lia.
    assert (x <= w /\ x <= 1024) as [Hxw Hx1] by nia.
    split; [lia|]. split; [lia|]. split; [lia|]. split.
    + replace (w * 1024) with (1024 * w) by lia. exact Habs.
    + intros Hdiv. specialize (Hex Hdiv). lia.
  - assert (Z.max w h = w) as Emax by lia. assert (Z.min w h = h) as Emin by lia.
    rewrite Emax, Emin. rewrite Emax in Hbig.
    destruct (Z.eq_dec ((1024 * h) mod w) 0) as [Hr|Hr].
    + destruct (thumbnail_size_landscape_exact width height ltac:(fold w h; lia) Hbig Hr)
        as (y & Hsize & Hy & Hex).
      fold w h in Hex.
      exists 1024, y. split; [exact Hsize|].
      assert (y <= h /\ y < 1024) as [Hyh Hy1] by nia.
      split; [lia|]. split; [lia|]. split; [lia|]. split; [|intros _]; lia.
    + destruct (thumbnail_size_landscape_inexact width height ltac:(fold w h; lia)
                  Hbig Hw28 Hr) as (y & Hsize & Hy & Habs).
      fold w h in Habs.
      exists 1024, y. split; [exact Hsize|].
      assert (y <= h /\ y <= 1024) as [Hyh Hy1] by nia.
      split; [lia|]. split; [lia|]. split; [lia|]. split; [|intros; lia].
      replace (1024 * h - w * y) with (- (y * w - 1024 * h)) by ring.
      rewrite Z.abs_opp. exact Habs.
Qed.

(** ** What is sent for an image *)

(** An image that [Image.open] returned passed the size check. *)
Lemma image_open_size (be : backend) (fp : list Byte.byte) (img : image) :
  image_open be fp = Return img ->
  Z.pos (im_width img) * Z.pos (im_height img) <= 178956970.
Proof.
  unfold image_open. destruct (image_plugin be fp) as [im|e]; [|discriminate].
  cbn [mbind outcome_bind]. cbv zeta.
  destruct (Z.ltb_spec (2 * MAX_IMAGE_PIXELS)
              (Z.pos (im_width im) * Z.pos (im_height im))) as [|Hle]; [discriminate|].
  intros [= <-]. unfold MAX_IMAGE_PIXELS in Hle. lia.
Qed.

(** [thumbnail] keeps the mode and gives the image the computed size. *)
Lemma thumbnail_fields (img : image) (x y x' y' : Z) (resample : resampling) :
  thumbnail_size (im_width img) (im_height img) x y = Return (Some (x', y')) ->
  0 < x' -> 0 < y' ->
  exists out,
    thumbnail img x y resample = Return out
    /\ im_mode out = im_mode img
    /\ Z.pos (im_width out) = x'
    /\ Z.pos (im_height out) = y'
    /\ (x' <> Z.pos (im_width img) \/ y' <> Z.pos (im_height img) ->
        im_pixels out
        = Resampled resample (im_width out) (im_height out) (im_pixels img)).
Proof.
  intros Hsize Hx Hy. unfold thumbnail. rewrite Hsize. cbn [mbind outcome_bind].
  eexists. split; [reflexivity|].
  destruct ((Z.to_pos x' =? im_width img)%positive
            && (Z.to_pos y' =? im_height img)%positive) eqn:Hsame.
  - apply andb_true_iff in Hsame as [Hs1 Hs2]. apply Pos.eqb_eq in Hs1, Hs2.
    assert (Z.pos (im_width img) = x') as E1 by (rewrite <- Hs1; apply Z2Pos.id; lia).
    assert (Z.pos (im_height img) = y') as E2 by (rewrite <- Hs2; apply Z2Pos.id; lia).
    repeat split; try assumption. intros [Hne|Hne]; congruence.
  - cbn [im_mode im_width im_height im_pixels]. rewrite !Z2Pos.id by lia.
    repeat split; reflexivity.
Qed.

(** What [prepare_image] does to an image that decodes, in full: the mode,
    the two sides and the history of the pixel data of what is sent. *)
Lemma prepare_image_sent (be : backend) (img_bytes : list Byte.byte) (img : image) :
  image_open be img_bytes = Return img ->
  exists out,
    prepare_image be img_bytes = Return (mk_part (lit "image/jpeg") (JpegData out))
    /\ im_mode out = rgb
    /\ (let width := Z.pos (im_width img) in
        let height := Z.pos (im_height img) in
        let width' := Z.pos (im_width out) in
        let height' := Z.pos (im_height out) in
        width' <= width /\ height' <= height
        /\ (Z.max width height <= 1024 -> width' = width /\ height' = height)
        /\ (1024 < Z.max width height ->
            Z.max width' height' = 1024
            /\ Z.abs (width' * height - width * height') < Z.max width height
            /\ ((1024 * Z.min width height) mod Z.max width height = 0 ->
                width' * height = width * height')))
    /\ im_pixels out
       = (let p := if str_eqb (im_mode img) rgb then im_pixels img
                   else Converted rgb (im_pixels img) in
          if 1024 <? Z.max (Z.pos (im_width img)) (Z.pos (im_height img))
          then Resampled LANCZOS (im_width out) (im_height out) p
          else p)
    /\ (im_mode img = rgb ->
        Z.max (Z.pos (im_width img)) (Z.pos (im_height img)) <= 1024 ->
        out = img).
Proof.
  intros Hopen. pose proof (image_open_size be img_bytes img Hopen) as Hpix.
  unfold prepare_image. rewrite Hopen. cbn [mbind outcome_bind].
  set (img1 := if negb (str_eqb (im_mode img) rgb) then convert img rgb else img).
  assert (im_mode img1 = rgb /\ im_width img1 = im_width img
          /\ im_height img1 = im_height img
          /\ im_pixels img1 = (if str_eqb (im_mode img) rgb then im_pixels img
                               else Converted rgb (im_pixels img))
          /\ (im_mode img = rgb -> img1 = img)) as (Hmode & Hw & Hh & Hpx & Hsame).
  { unfold img1. destruct (str_eqb (im_mode img) rgb) eqn:Heq; cbn [negb].
    - apply str_eqb_eq in Heq. auto.
    - repeat split; try reflexivity. intros Hrgb. apply str_eqb_eq in Hrgb. congruence. }
  clearbody img1. unfold max_size. cbv zeta. rewrite Hw, Hh.
  destruct (1024 <? Z.max (Z.pos (im_width img)) (Z.pos (im_height img))) eqn:Hbig.
  - apply Z.ltb_lt in Hbig.
    destruct (thumbnail_size_large _ _ Hpix Hbig)
      as (x & y & Hsize & Hx & Hy & Hmax & Habs & Hex).
    rewrite <- Hw, <- Hh in Hsize.
    destruct (thumbnail_fields img1 1024 1024 x y LANCZOS Hsize ltac:(lia) ltac:(lia))
      as (out & Hout & Hm' & Hw' & Hh' & Hpx').
    rewrite Hout. cbn [mbind outcome_bind mret outcome_ret].
    exists out. split; [reflexivity|]. split; [congruence|].
    rewrite Hw', Hh'. split.
    + split; [lia|]. split; [lia|]. split; [lia|]. intros _. auto.
    + split; [|intros _ Hsmall; lia].
      rewrite Hpx', Hpx; [reflexivity|]. rewrite Hw, Hh. lia.
  - apply Z.ltb_ge in Hbig. cbn [mbind outcome_bind mret outcome_ret].
    exists img1. split; [reflexivity|]. split; [exact Hmode|].
    rewrite Hw, Hh. split.
    + split; [lia|]. split; [lia|]. split; [auto|lia].
    + split; [exact Hpx|]. intros Hrgb _. auto.
Qed.

Lemma prepare_image_result (be : backend) (img_bytes : list Byte.byte) (img : image) :
  image_open be img_bytes = Return img ->
  exists out,
    prepare_image be img_bytes = Return (mk_part (lit "image/jpeg") (JpegData out))
    /\ im_mode out = rgb
    /\ Z.pos (im_width out) <= Z.pos (im_width img)
    /\ Z.pos (im_height out) <= Z.pos (im_height img)
    /\ Z.max (Z.pos (im_width out)) (Z.pos (im_height out)) <= 1024
    /\ im_pixels out
       = (let p := if str_eqb (im_mode img) rgb then im_pixels img
                   else Converted rgb (im_pixels img) in
          if 1024 <? Z.max (Z.pos (im_width img)) (Z.pos (im_height img))
          then Resampled LANCZOS (im_width out) (im_height out) p
          else p)
    /\ (im_mode img = rgb ->
        Z.max (Z.pos (im_width img)) (Z.pos (im_height img)) <= 1024 ->
        out = img).
Proof.
  intros Hopen.
  destruct (prepare_image_sent be img_bytes img Hopen)
    as (out & Hout & Hmode & (Hw & Hh & Hsmall & Hlarge) & Hpx & Hsame).
  exists out. repeat split; try assumption.
  destruct (Z_le_gt_dec (Z.max (Z.pos (im_width img)) (Z.pos (im_height img))) 1024)
    as [Hle|Hgt].
  - destruct (Hsmall Hle) as [-> ->]. exact Hle.
  - destruct (Hlarge ltac:(lia)) as [-> _]. lia.
Qed.





Local Open Scope N_scope.

(** * Further properties of the service *)

(** ** Failures, calls and log entries *)

Lemma startswith_prefix (p s : list N) : startswith p (p ++ s) = true.
Proof.
  induction p as [|x p IH]; [reflexivity|]. cbn [app startswith].
  unfold char_eqb. rewrite N.eqb_refl. exact IH.
Qed.

(** The first image that does not decode decides the outcome. *)
Lemma prepare_images_first_failure (be : backend) (pre post : list (list Byte.byte))
    (bad : list Byte.byte) (e : exn) :
  Forall (fun b => exists img, image_open be b = Return img) pre ->
  image_open be bad = Raise e ->
  prepare_images be (pre ++ bad :: post) = Raise e.
Proof.
  intros Hpre Hbad. induction Hpre as [|b pre [img Hb] _ IH]; cbn [app prepare_images].
  - unfold prepare_image. rewrite Hbad. reflexivity.
  - destruct (prepare_image_sent be b img Hb) as (out & -> & _).
    cbn [mbind outcome_bind mret outcome_ret]. rewrite IH. reflexivity.
Qed.

(** X1.  Whatever goes wrong in a method, the caller receives an exception
    of class [Exception] whose text starts with the label of that method;
    no other class and no bare library message leaves the service. *)
Theorem every_failure_is_labelled (be : backend) (op : operation) (w : world) (e : exn) :
  fst (perform be op w) = Raise e ->
  exn_cls e = Exception /\ startswith (label op) (exn_str e) = true.
Proof.
  assert (forall cause,
            exn_cls (during cause (Exception_ (label op ++ exn_str cause))) = Exception
            /\ startswith (label op)
                 (exn_str (during cause (Exception_ (label op ++ exn_str cause))))
               = true) as Hok.
  { intros cause. split; [reflexivity|]. apply startswith_prefix. }
  destruct op; cbn [perform].
  - unfold mbind, M_bind. rewrite run_transcribe. cbn zeta.
    destruct (generate_content be Model _) as [text|cause]; cbn [fst];
      [discriminate|]. intros [= <-]. apply (Hok cause).
  - rewrite run_vehicle. destruct (prepare_images be images) as [parts|cause]; cbn [fst].
    + cbn zeta. destruct (generate_content be Model _) as [text|cause]; cbn [fst].
      * destruct (json_loads (clean text)) as [v|cause]; [discriminate|].
        intros [= <-]. apply (Hok cause).
      * intros [= <-]. apply (Hok cause).
    + intros [= <-]. apply (Hok cause).
  - rewrite run_trip. cbn zeta.
    destruct (generate_content be ChatModel _) as [text|cause]; cbn [fst];
      [discriminate|]. intros [= <-]. apply (Hok cause).
  - rewrite run_earnings.
    destruct (generate_content be ChatModel _) as [text|cause]; cbn [fst].
    + destruct (json_loads (clean text)) as [v|cause]; [discriminate|].
      intros [= <-]. apply (Hok cause).
    + intros [= <-]. apply (Hok cause).
  - rewrite run_fatigue.
    destruct (generate_content be ChatModel _) as [text|cause]; cbn [fst].
    + destruct (json_loads (clean text)) as [v|cause]; [discriminate|].
      intros [= <-]. apply (Hok cause).
    + intros [= <-]. apply (Hok cause).
  - rewrite run_plan.
    destruct (generate_content be ChatModel _) as [text|cause]; cbn [fst].
    + destruct (json_loads (clean text)) as [v|cause]; [discriminate|].
      intros [= <-]. apply (Hok cause).
    + intros [= <-]. apply (Hok cause).
Qed.

Lemma every_failure_is_labelled_witness :
  exn_cls (during unidentified_image
             (Exception_
                (lit "Vehicle image analysis failed: cannot identify image file")))
  = Exception
  /\ startswith (label (VehicleImages [[]] None))
       (exn_str (during unidentified_image
                   (Exception_
                      (lit "Vehicle image analysis failed: cannot identify image file"))))
     = true.
Proof.
  apply (every_failure_is_labelled (answering (lit "{}")) (VehicleImages [[]] None) world0).
  vm_compute. reflexivity.
Defined.

(** X2.  [extract_trip_info] raises exactly when the call to the model
    raises; no answer of the model, however malformed, makes it raise. *)
Theorem trip_info_raises_iff_call_raises (be : backend) (transcription : list N)
    (w : world) (e : exn) :
  fst (extract_trip_info be transcription w) = Raise e
  <-> exists cause,
        generate_content be ChatModel (mk_request (TripPrompt transcription) [])
        = Raise cause
        /\ e = during cause
                  (Exception_ (lit "Trip info extraction failed: " ++ exn_str cause)).
Proof.
  rewrite run_trip. cbn zeta.
  destruct (generate_content be ChatModel _) as [text|cause]; cbn [fst]; split.
  - discriminate.
  - intros (cause & Hc & _). discriminate.
  - intros [= <-]. eauto.
  - intros (cause' & [= <-] & ->). reflexivity.
Qed.

(** X3.  A method calls the model once if its request could be built and not
    at all otherwise, whatever the answer is: a text that does not parse is
    not asked for again, and calls made earlier stay on record. *)
Theorem exactly_one_call_per_request (be : backend) (op : operation) (w : world) :
  calls (snd (perform be op w))
  = calls w ++ match request_for be op with
               | Return call => [call]
               | Raise _ => []
               end.
Proof.
  destruct op; cbn [perform request_for].
  - unfold mbind, M_bind. rewrite run_transcribe. cbn zeta.
    destruct (generate_content be Model _); reflexivity.
  - rewrite run_vehicle. destruct (prepare_images be images) as [parts|cause];
      cbn [mbind outcome_bind snd]; [reflexivity|]. rewrite app_nil_r. reflexivity.
  - rewrite run_trip. cbn zeta. destruct (generate_content be ChatModel _); reflexivity.
  - rewrite run_earnings. reflexivity.
  - rewrite run_fatigue. reflexivity.
  - rewrite run_plan. reflexivity.
Qed.

(** X4.  Only two methods write to the log.  The four plain use cases leave
    it as it is, also when they fail.  Trip info writes one warning, with the
    stripped answer in it, exactly when the model answered and neither the
    cleaned answer nor the text from its first to its last brace could be
    parsed, and it then returns the default record; when one of the two could
    be parsed, and when the call failed, it leaves the log as it is. *)
Theorem log_entries_of_structured_use_cases (be : backend) (op : operation) (w : world) :
  (parses_plainly op = true -> log (snd (perform be op w)) = log w)
  /\ (forall transcription, op = TripInfo transcription ->
      match generate_content be ChatModel (mk_request (TripPrompt transcription) []) with
      | Return text =>
          let unparsed :=
            parse_trip (clean text) = None
            /\ forall block, re_search_braces (strip text) = Some block ->
                             parse_trip block = None in
          (unparsed ->
           fst (perform be op w) = Return default_trip
           /\ log (snd (perform be op w))
              = log w ++ [(WARNING,
                           lit "Failed to parse JSON from Gemini extract_trip_info output: "
                             ++ strip text)])
          /\ (~ unparsed -> log (snd (perform be op w)) = log w)
      | Raise _ => log (snd (perform be op w)) = log w
      end).
Proof.
  split.
  - intros Hop. destruct op; try discriminate Hop; cbn [perform].
    + rewrite run_vehicle. destruct (prepare_images be images); reflexivity.
    + rewrite run_earnings. reflexivity.
    + rewrite run_fatigue. reflexivity.
    + rewrite run_plan. reflexivity.
  - intros transcription ->. cbn [perform]. rewrite run_trip. cbn zeta.
    destruct (generate_content be ChatModel _) as [text|cause]; [|reflexivity].
    cbn [fst snd log]. unfold trip_from_text, clean.
    destruct (parse_trip (remove_fences (strip text))) as [r|] eqn:Hclean; cbn [fst snd].
    { split; [intros [Hc _]; discriminate|intros _; reflexivity]. }
    destruct (re_search_braces (strip text)) as [block|] eqn:Hblock.
    + destruct (parse_trip block) as [r|] eqn:Hparse; cbn [fst snd].
      * split; [|intros _; reflexivity].
        intros [_ Hb]. specialize (Hb block eq_refl). congruence.
      * split; [intros _; split; reflexivity|].
        intros Hn. exfalso. apply Hn. split; [reflexivity|].
        intros b [= <-]. exact Hparse.
    + cbn [fst snd]. split; [intros _; split; reflexivity|].
      intros Hn. exfalso. apply Hn. split; [reflexivity|discriminate].
Qed.

Lemma log_entries_of_structured_use_cases_witness :
  let run := perform (answering (lit "nope")) (TripInfo (lit "to the airport")) world0 in
  fst run = Return default_trip
  /\ log (snd run)
     = [(WARNING, lit "Failed to parse JSON from Gemini extract_trip_info output: nope")].
Proof.
  cbv zeta.
  destruct (log_entries_of_structured_use_cases (answering (lit "nope"))
              (TripInfo (lit "to the airport")) world0) as [_ Htrip].
  specialize (Htrip (lit "to the airport") eq_refl).
  cbn [answering generate_content] in Htrip. cbv zeta in Htrip.
  destruct Htrip as [Hwarn _].
  destruct Hwarn as [Hresult Hlog].
  { split; [vm_compute; reflexivity|].
    intros block Hblock. vm_compute in Hblock. discriminate. }
  split; [exact Hresult|]. rewrite Hlog. vm_compute. reflexivity.
Defined.

(** X5.  Vehicle analysis: if an image does not decode, the method raises
    with the decoder's message, the first such image deciding which, and the
    model is never called; images after it are not looked at. *)
Theorem undecodable_image_stops_analysis (be : backend)
    (pre post : list (list Byte.byte)) (bad : list Byte.byte)
    (context : option (list N)) (e : exn) (w : world) :
  Forall (fun b => exists img, image_open be b = Return img) pre ->
  image_open be bad = Raise e ->
  analyze_vehicle_images be (pre ++ bad :: post) context w
  = (Raise (during e (Exception_ (lit "Vehicle image analysis failed: " ++ exn_str e))), w).
Proof.
  intros Hpre Hbad. rewrite run_vehicle.
  rewrite (prepare_images_first_failure be pre post bad e Hpre Hbad). reflexivity.
Qed.

Lemma undecodable_image_stops_analysis_witness :
  analyze_vehicle_images (decoding_nonempty photo_800x600 (lit "{}"))
    ([[Byte.x01]] ++ [] :: [[Byte.x02]]) None world0
  = (Raise (during unidentified_image
              (Exception_ (lit "Vehicle image analysis failed: "
                             ++ exn_str unidentified_image))), world0).
Proof.
  apply (undecodable_image_stops_analysis (decoding_nonempty photo_800x600 (lit "{}"))
           [[Byte.x01]] [[Byte.x02]] [] None unidentified_image world0).
  - constructor; [eexists; reflexivity|constructor].
  - reflexivity.
Defined.

(** ** Images *)

Local Open Scope Z_scope.

(** X6.  Preparation never enlarges an image: what is sent has no side
    longer than the side of the image it came from, nor longer than 1024. *)
Theorem prepared_image_is_not_larger (be : backend) (img_bytes : list Byte.byte)
    (img out : image) (mime : list N) :
  image_open be img_bytes = Return img ->
  prepare_image be img_bytes = Return (mk_part mime (JpegData out)) ->
  Z.pos (im_width out) <= Z.pos (im_width img)
  /\ Z.pos (im_height out) <= Z.pos (im_height img)
  /\ Z.max (Z.pos (im_width out)) (Z.pos (im_height out)) <= 1024.
Proof.
  intros Hopen Hprep.
  destruct (prepare_image_result be img_bytes img Hopen)
    as (out' & Hout & _ & Hw & Hh & Hmax & _).
  rewrite Hout in Hprep. injection Hprep as _ <-. auto.
Qed.

Lemma prepared_image_is_not_larger_witness :
  Z.pos (im_width (mk_image rgb 1024 768
                     (Resampled LANCZOS 1024 768 (Converted rgb (Decoded [])))))
  <= Z.pos (im_width photo_4000x3000)
  /\ Z.pos (im_height (mk_image rgb 1024 768
                         (Resampled LANCZOS 1024 768 (Converted rgb (Decoded [])))))
     <= Z.pos (im_height photo_4000x3000)
  /\ Z.max (Z.pos (im_width (mk_image rgb 1024 768
                               (Resampled LANCZOS 1024 768 (Converted rgb (Decoded []))))))
           (Z.pos (im_height (mk_image rgb 1024 768
                                (Resampled LANCZOS 1024 768 (Converted rgb (Decoded []))))))
     <= 1024.
Proof.
  apply (prepared_image_is_not_larger (decoding photo_4000x3000 (Return [])) []
           photo_4000x3000 _ (lit "image/jpeg")).
  - reflexivity.
  - reflexivity.
Defined.



Local Open Scope N_scope.



(** ** What trip extraction can return *)

Lemma normalize_fields_scalar (v : value) :
  match v with VDict _ | VList _ | VStr _ => False | _ => True end ->
  normalize_fields numeric_fields v = None.
Proof. destruct v; intros H; try destruct H; reflexivity. Qed.

Lemma parse_trip_cases (x : list N) (r : value) :
  parse_trip x = Some r ->
  (exists d, json_loads x = Return (VDict d) /\ r = VDict (normalize_dict d))
  \/ (exists l, json_loads x = Return (VList l) /\ r = VList l)
  \/ (exists s, json_loads x = Return (VStr s) /\ r = VStr s).
Proof.
  unfold parse_trip. destruct (json_loads x) as [v|e]; [|discriminate].
  destruct v as [| | | |s|l|d]; try (rewrite normalize_fields_scalar by exact I; discriminate).
  - intros H. apply normalize_fields_other in H as ->; [|discriminate]. eauto.
  - intros H. apply normalize_fields_other in H as ->; [|discriminate]. eauto.
  - rewrite normalize_fields_dict. intros [= <-]. left. eauto.
Qed.

(** The results of the two attempts, case by case. *)
Lemma trip_from_text_cases (text : list N) :
  let r := fst (trip_from_text text) in
  (exists d, json_loads (clean text) = Return (VDict d) /\ r = VDict (normalize_dict d))
  \/ (exists l, json_loads (clean text) = Return (VList l) /\ r = VList l)
  \/ (exists s, json_loads (clean text) = Return (VStr s) /\ r = VStr s)
  \/ (exists block d,
        re_search_braces (strip text) = Some block
        /\ json_loads block = Return (VDict d) /\ r = VDict (normalize_dict d))
  \/ r = default_trip.
Proof.
  cbv zeta. unfold trip_from_text. fold (clean text).
  destruct (parse_trip (clean text)) as [r|] eqn:H1.
  - apply parse_trip_cases in H1 as [H|[H|H]]; cbn [fst]; tauto.
  - destruct (re_search_braces (strip text)) as [block|] eqn:Hb; [|cbn [fst]; tauto].
    destruct (parse_trip block) as [r|] eqn:H2; [|cbn [fst]; tauto].
    cbn [fst]. right. right. right. left.
    destruct (re_search_braces_head _ _ Hb) as [rest ->].
    apply parse_trip_cases in H2 as [(d & Hd & ->)|[(l & Hl & _)|(s & Hs & _)]].
    + eauto.
    + apply json_loads_brace_dict in Hl as [d Hd]. discriminate.
    + apply json_loads_brace_dict in Hs as [d Hd]. discriminate.
Qed.

(** X9.  Where the result of trip extraction comes from.  It is the coerced
    object the cleaned text parses to, or the array or the text string the
    cleaned text parses to, unchanged, or the coerced object the brace block
    parses to, or the default record: never a number, a boolean or null, and
    after a failed first attempt never anything but an object. *)
Theorem trip_result_provenance (be : backend) (transcription text : list N) (w : world) :
  generate_content be ChatModel (mk_request (TripPrompt transcription) []) = Return text ->
  exists r, fst (extract_trip_info be transcription w) = Return r
  /\ ((exists d, json_loads (clean text) = Return (VDict d)
                 /\ r = VDict (normalize_dict d))
      \/ (exists l, json_loads (clean text) = Return (VList l) /\ r = VList l)
      \/ (exists s, json_loads (clean text) = Return (VStr s) /\ r = VStr s)
      \/ (exists block d,
            re_search_braces (strip text) = Some block
            /\ json_loads block = Return (VDict d) /\ r = VDict (normalize_dict d))
      \/ r = default_trip).
Proof.
  intros Hgen. exists (fst (trip_from_text text)).
  rewrite run_trip. cbn zeta. rewrite Hgen. split; [reflexivity|].
  exact (trip_from_text_cases text).
Qed.

Lemma trip_result_provenance_witness :
  exists r, fst (extract_trip_info (answering prose_trip_text) [] world0) = Return r
  /\ ((exists d, json_loads (clean prose_trip_text) = Return (VDict d)
                 /\ r = VDict (normalize_dict d))
      \/ (exists l, json_loads (clean prose_trip_text) = Return (VList l) /\ r = VList l)
      \/ (exists s, json_loads (clean prose_trip_text) = Return (VStr s) /\ r = VStr s)
      \/ (exists block d,
            re_search_braces (strip prose_trip_text) = Some block
            /\ json_loads block = Return (VDict d) /\ r = VDict (normalize_dict d))
      \/ r = default_trip).
Proof.
  apply (trip_result_provenance (answering prose_trip_text) [] prose_trip_text world0).
  reflexivity.
Defined.

(** X10.  Whatever the model answers, an object returned by trip extraction
    holds under each numeric field name either nothing or a float. *)
Theorem trip_object_numeric_fields_are_floats (text : list N)
    (d : gmap (list N) value) (num_field : list N) :
  fst (trip_from_text text) = VDict d ->
  num_field ∈ numeric_fields ->
  d !! num_field = None \/ exists x, d !! num_field = Some (VFloat x).
Proof.
  intros Hres Hin.
  assert (forall d0, d = normalize_dict d0 ->
                     d !! num_field = None \/ exists x, d !! num_field = Some (VFloat x))
    as Hnorm.
  { intros d0 ->. rewrite normalize_dict_lookup.
    destruct (decide (num_field ∈ numeric_fields)); [|tauto].
    destruct (d0 !! num_field); cbn; eauto. }
  destruct (trip_from_text_cases text)
    as [(d0 & _ & H)|[(l & _ & H)|[(s & _ & H)|[(b & d0 & _ & _ & H)|H]]]];
    rewrite Hres in H; try discriminate.
  - injection H as ->. eauto.
  - injection H as ->. eauto.
  - unfold default_trip in H. injection H as ->.
    right. unfold numeric_fields in Hin.
    repeat (apply elem_of_cons in Hin as [->|Hin]; [eexists; vm_compute; reflexivity|]).
    inversion Hin.
Qed.

Lemma trip_object_numeric_fields_are_floats_witness :
  normalize_dict (list_to_map [(lit "earnings", VStr (lit "5"));
                               (lit "notes", VStr (lit "x"))]) !! lit "fuel_cost" = None
  \/ exists x,
       normalize_dict (list_to_map [(lit "earnings", VStr (lit "5"));
                                    (lit "notes", VStr (lit "x"))]) !! lit "fuel_cost"
       = Some (VFloat x).
Proof.
  apply (trip_object_numeric_fields_are_floats prose_trip_text).
  - vm_compute. reflexivity.
  - vm_compute. right. left.
Defined.

(** X11.  The loop over the numeric fields neither adds nor removes a field:
    the object trip extraction returns for an object has exactly the keys of
    the parsed one. *)
Theorem trip_object_keeps_its_keys (be : backend) (transcription text : list N)
    (d : gmap (list N) value) (w : world) :
  generate_content be ChatModel (mk_request (TripPrompt transcription) []) = Return text ->
  json_loads (clean text) = Return (VDict d) ->
  exists d', fst (extract_trip_info be transcription w) = Return (VDict d')
             /\ dom d' = dom d.
Proof.
  intros Hgen Hparse. exists (normalize_dict d).
  rewrite run_trip. cbn zeta. rewrite Hgen, (trip_from_dict text d Hparse).
  split; [reflexivity|].
  apply set_eq. intros k. rewrite !elem_of_dom, normalize_dict_lookup.
  destruct (decide (k ∈ numeric_fields)); [|reflexivity].
  rewrite fmap_is_Some. reflexivity.
Qed.

Lemma trip_object_keeps_its_keys_witness :
  exists d', fst (extract_trip_info (answering sample_trip_text) [] world0)
             = Return (VDict d')
             /\ dom d' = dom (list_to_map [(lit "earnings", VStr (lit "250.5"));
                                           (lit "fuel_cost", VNone);
                                           (lit "notes", VStr (lit "airport run"))]
                              : gmap (list N) value).
Proof.
  apply (trip_object_keeps_its_keys (answering sample_trip_text) [] sample_trip_text).
  - reflexivity.
  - vm_compute. reflexivity.
Defined.

(** X12.  Running the loop over the numeric fields on its own result changes
    nothing, for every value it accepts. *)
Theorem numeric_loop_is_idempotent (v r : value) :
  normalize_fields numeric_fields v = Some r ->
  normalize_fields numeric_fields r = Some r.
Proof. apply normalize_fields_fixpoint. Qed.

Lemma numeric_loop_is_idempotent_witness :
  normalize_fields numeric_fields
    (VDict {[ lit "toll_cost" := VFloat (FFinite false 5629499534213120 (-50)) ]})
  = Some (VDict {[ lit "toll_cost" := VFloat (FFinite false 5629499534213120 (-50)) ]}).
Proof.
  apply (numeric_loop_is_idempotent (VDict {[ lit "toll_cost" := VStr (lit " 5 ") ]})).
  vm_compute. reflexivity.
Defined.

(** ** Empty answers *)

Lemma lstrip_spaces (s : list N) : Forall (fun c => py_isspace c = true) s -> lstrip s = [].
Proof. induction 1 as [|c s Hc _ IH]; [reflexivity|]. cbn. rewrite Hc. exact IH. Qed.

Lemma strip_spaces (s : list N) : Forall (fun c => py_isspace c = true) s -> strip s = [].
Proof. intros H. unfold strip, rstrip. rewrite (lstrip_spaces s H). reflexivity. Qed.

(** X13.  An answer that is empty or only white space: trip extraction
    returns the default record, and each of the four plain use cases raises
    with the parser's message for an empty document. *)
Theorem blank_answer (be : backend) (op : operation) (id : model_id) (req : request)
    (text : list N) (w : world) :
  Forall (fun c => py_isspace c = true) text ->
  request_for be op = Return (id, req) ->
  generate_content be id req = Return text ->
  (parses_plainly op = true ->
   fst (perform be op w)
   = Raise (during (json_decode_error expecting_value [] 0)
              (Exception_
                 (label op ++ lit "Expecting value: line 1 column 1 (char 0)"))))
  /\ (forall transcription, op = TripInfo transcription ->
        fst (perform be op w) = Return default_trip).
Proof.
  intros Hblank Hreq Hgen.
  assert (clean text = []) as Hclean.
  { unfold clean. rewrite (strip_spaces text Hblank). reflexivity. }
  split.
  - intros Hop. rewrite (perform_plain be op id req w Hop Hreq), Hgen, Hclean. reflexivity.
  - intros transcription ->. injection Hreq as <- <-. cbn [perform].
    rewrite run_trip. cbn zeta. rewrite Hgen. unfold trip_from_text.
    rewrite (strip_spaces text Hblank). reflexivity.
Qed.

Lemma blank_answer_witness :
  let be := answering [10; 32; 9] in
  (parses_plainly (TripInfo []) = true ->
   fst (perform be (TripInfo []) world0)
   = Raise (during (json_decode_error expecting_value [] 0)
              (Exception_ (label (TripInfo [])
                             ++ lit "Expecting value: line 1 column 1 (char 0)"))))
  /\ (forall transcription, TripInfo [] = TripInfo transcription ->
        fst (perform be (TripInfo []) world0) = Return default_trip).
Proof.
  cbv zeta.
  apply (blank_answer (answering [10; 32; 9]) (TripInfo []) ChatModel
           (mk_request (TripPrompt []) []) [10; 32; 9]).
  - repeat constructor.
  - reflexivity.
  - reflexivity.
Defined.

(** ** The clean-up and the brace pattern *)

Lemma str_contains_app_l (p a b : list N) :
  str_contains p (a ++ b) = false -> str_contains p a = false.
Proof.
  induction a as [|x a IH]; intros H.
  - cbn [str_contains]. rewrite orb_false_r. destruct p; [|reflexivity].
    destruct b; discriminate H.
  - cbn [app str_contains] in *. apply orb_false_iff in H as [H1 H2].
    rewrite (IH H2), orb_false_r.
    destruct (startswith p (x :: a)) eqn:Hs; [|reflexivity].
    apply (startswith_app _ _ b) in Hs. cbn [app] in Hs. congruence.
Qed.

Lemma str_contains_app_r (p a b : list N) :
  str_contains p (a ++ b) = false -> str_contains p b = false.
Proof.
  induction a as [|x a IH]; intros H; [exact H|].
  cbn [app str_contains] in H. apply orb_false_iff in H as [_ H2]. auto.
Qed.

Lemma fence_found (s : list N) :
  str_contains fence s = true -> exists a b, s = a ++ fence ++ b.
Proof.
  induction s as [|c s IH]; cbn [str_contains].
  - rewrite orb_false_r. discriminate.
  - intros H. apply orb_true_iff in H as [H|H].
    + exists []. rewrite fence_chars in *.
      destruct s as [|c1 [|c2 s]]; cbn [startswith] in H;
        try (rewrite ?andb_false_r in H; discriminate).
      apply andb_true_iff in H as [H0 H]. apply andb_true_iff in H as [H1 H].
      apply andb_true_iff in H as [H2 _].
      apply char_eqb_eq in H0, H1, H2. subst. exists s. reflexivity.
    + destruct (IH H) as (a & b & ->). exists (c :: a), b. reflexivity.
Qed.

Lemma no_fence_rev (s : list N) :
  str_contains fence s = false -> str_contains fence (rev s) = false.
Proof.
  intros H. destruct (str_contains fence (rev s)) eqn:Hr; [|reflexivity].
  destruct (fence_found _ Hr) as (a & b & Hab).
  apply (f_equal (@rev N)) in Hab. rewrite rev_involutive, !rev_app_distr in Hab.
  rewrite fence_chars in Hab. cbn [rev app] in Hab. subst s.
  rewrite <- app_assoc in H. apply str_contains_app_r in H.
  change ([96; 96; 96] ++ rev a) with (fence ++ rev a) in H.
  apply str_contains_app_l in H. discriminate.
Qed.

Lemma no_fence_lstrip (s : list N) :
  str_contains fence s = false -> str_contains fence (lstrip s) = false.
Proof.
  induction s as [|c s IH]; [reflexivity|]. cbn [lstrip]. intros H.
  destruct (py_isspace c); [|exact H].
  cbn [str_contains] in H. apply orb_false_iff in H as [_ H]. auto.
Qed.

Lemma no_fence_strip (s : list N) :
  str_contains fence s = false -> str_contains fence (strip s) = false.
Proof.
  intros H. unfold strip, rstrip.
  apply no_fence_rev, no_fence_lstrip, no_fence_rev, no_fence_lstrip, H.
Qed.

(** X14.  Cleaning a cleaned text removes no further marker: the second
    clean-up only strips the white space the first one uncovered. *)
Theorem clean_twice_only_strips (text : list N) :
  clean (clean text) = strip (clean text)
  /\ remove_fences (remove_fences text) = remove_fences text.
Proof.
  split.
  - unfold clean at 1. apply remove_fences_id, no_fence_strip, clean_no_fence.
  - apply remove_fences_id.
    unfold remove_fences. rewrite str_replace_fence. apply remove_fence_no_fence.
Qed.

Lemma drop_until_split (c : N) (s rest : list N) (x : N) :
  drop_until c s = x :: rest -> exists pre, s = pre ++ c :: rest /\ (c ∉ pre) /\ x = c.
Proof.
  induction s as [|y s IH]; [discriminate|]. cbn.
  destruct (char_eqb y c) eqn:Hy.
  - apply char_eqb_eq in Hy as ->. intros [= <- <-]. exists []. split; [reflexivity|].
    split; [apply not_elem_of_nil|reflexivity].
  - intros H. destruct (IH H) as (pre & -> & Hpre & ->). exists (y :: pre).
    split; [reflexivity|]. split; [|reflexivity].
    intros Hin. apply elem_of_cons in Hin as [->|Hin]; [|tauto].
    unfold char_eqb in Hy. rewrite N.eqb_refl in Hy. discriminate.
Qed.

(** X15.  The block the second attempt reads is exactly the stretch from the
    first opening brace of the text to its last closing brace; there is no
    block when no closing brace follows the first opening one. *)
Theorem brace_block_is_first_to_last (s block : list N) :
  re_search_braces s = Some block
  <-> exists pre mid post,
        s = pre ++ block ++ post
        /\ block = lbrace :: mid ++ [rbrace]
        /\ (lbrace ∉ pre) /\ (rbrace ∉ post).
Proof.
  split.
  - unfold re_search_braces.
    destruct (drop_until lbrace s) as [|b rest] eqn:Hd; [discriminate|].
    destruct (drop_until_split _ _ _ _ Hd) as (pre & -> & Hpre & ->).
    destruct (drop_until rbrace (rev rest)) as [|r q] eqn:Hr; [discriminate|].
    destruct (drop_until_split _ _ _ _ Hr) as (tail & Hrev & Htail & ->).
    intros [= <-]. exists pre, (rev q), (rev tail).
    apply (f_equal (@rev N)) in Hrev. rewrite rev_involutive, rev_app_distr in Hrev.
    cbn [rev] in Hrev. subst rest.
    cbn [rev]. split; [reflexivity|].
    split; [reflexivity|]. split; [exact Hpre|].
    intros Hin. apply Htail. apply list_elem_of_In, in_rev, list_elem_of_In. exact Hin.
  - intros (pre & mid & post & -> & -> & Hpre & Hpost).
    apply re_search_braces_block; assumption.
Qed.

(** The characters of a matched occurrence are the characters of the
    pattern. *)
Lemma startswith_take (p s : list N) :
  startswith p s = true -> take (length p) s = p.
Proof.
  revert s. induction p as [|x p IH]; intros s H; [reflexivity|].
  destruct s as [|y s]; [discriminate|]. cbn [startswith] in H.
  apply andb_true_iff in H as [Hxy H]. apply char_eqb_eq in Hxy as ->.
  cbn [length take]. rewrite (IH s H). reflexivity.
Qed.

Lemma replace_from_keeps (p : list N) (keep : N -> bool) :
  p <> [] ->
  Forall (fun c => keep c = false) p ->
  forall s k, Forall (fun c => keep c = false) (take k s) ->
    List.filter keep (replace_from p [] k s) = List.filter keep s.
Proof.
  intros Hne Hp. induction s as [|c s IH]; intros k Hk; [destruct k; reflexivity|].
  destruct k as [|k]; cbn [replace_from].
  - destruct (startswith p (c :: s)) eqn:Hs.
    + apply startswith_take in Hs. destruct p as [|x p]; [congruence|].
      cbn [length take] in Hs. injection Hs as -> Hs.
      apply Forall_cons in Hp as [Hx Hp]. cbn [app List.filter]. rewrite Hx.
      apply IH. cbn [length Nat.pred]. rewrite Hs. exact Hp.
    + cbn [List.filter]. rewrite (IH 0%nat) by constructor. reflexivity.
  - cbn [take] in Hk. apply Forall_cons in Hk as [Hc Hk].
    cbn [List.filter]. rewrite Hc. apply IH. exact Hk.
Qed.

(** X16.  Removing the fence markers deletes only backticks and letters of
    the tag: every other character of the text is kept, in its order. *)
Theorem remove_fences_keeps_other_characters (s : list N) :
  List.filter (fun c => negb (existsb (N.eqb c) fence_json)) (remove_fences s)
  = List.filter (fun c => negb (existsb (N.eqb c) fence_json)) s
  /\ (length (remove_fences s) <= length s)%nat.
Proof.
  split.
  - unfold remove_fences. rewrite str_replace_fence, str_replace_fence_json.
    rewrite replace_from_keeps; [|discriminate|repeat constructor|constructor].
    apply replace_from_keeps; [discriminate|repeat constructor|constructor].
  - assert (forall p t k, (length (replace_from p [] k t) <= length t)%nat) as Hlen.
    { intros p t. induction t as [|c s' IH]; intros k; [destruct k; cbn; lia|].
      destruct k as [|k]; cbn [replace_from].
      - destruct (startswith p (c :: s')); cbn [app length];
          [specialize (IH (Nat.pred (length p)))|specialize (IH 0%nat)]; lia.
      - specialize (IH k). cbn [length]. lia. }
    unfold remove_fences. rewrite str_replace_fence, str_replace_fence_json.
    etransitivity; [apply Hlen|apply Hlen].
Qed.

(** ** White space around the document

    [json.loads] skips JSON white space (space, tab, line feed, carriage
    return) before and after the document.  The lemmas below follow a
    successful scan of a text [s] through the scanner when more text [tail],
    made of such white space, stands after [s]. *)

Lemma json_ws_cases (c : N) : json_ws c = true -> c = 32 \/ c = 9 \/ c = 10 \/ c = 13.
Proof. unfold json_ws. rewrite !orb_true_iff, !N.eqb_eq. tauto. Qed.

Ltac ws_char H := apply json_ws_cases in H as [->|[->|[->| ->]]].

Lemma skip_ws_blank_app (ws s : list N) :
  forallb json_ws ws = true -> skip_ws (ws ++ s) = skip_ws s.
Proof.
  induction ws as [|c ws IH]; [reflexivity|]. cbn [forallb app skip_ws].
  intros H. apply andb_true_iff in H as [-> H]. exact (IH H).
Qed.

Lemma skip_ws_blank (ws : list N) : forallb json_ws ws = true -> skip_ws ws = [].
Proof.
  intros H. rewrite <- (app_nil_r ws). rewrite (skip_ws_blank_app ws [] H). reflexivity.
Qed.

Lemma skip_ws_app_cons (s : list N) (c : N) (r tail : list N) :
  skip_ws s = c :: r -> skip_ws (s ++ tail) = c :: r ++ tail.
Proof.
  induction s as [|x s IH]; [discriminate|]. cbn [app skip_ws].
  destruct (json_ws x); [exact IH|]. intros [= -> ->]. reflexivity.
Qed.

Lemma skip_ws_app_ne (s tail : list N) :
  skip_ws s <> [] -> skip_ws (s ++ tail) = skip_ws s ++ tail.
Proof.
  destruct (skip_ws s) as [|c r] eqn:H; [congruence|]. intros _.
  exact (skip_ws_app_cons s c r tail H).
Qed.

Lemma skip_ws_app_nil (rest tail : list N) :
  skip_ws rest = [] -> forallb json_ws tail = true -> skip_ws (rest ++ tail) = [].
Proof.
  intros Hr Ht. induction rest as [|x rest IH]; [exact (skip_ws_blank tail Ht)|].
  cbn [app skip_ws] in *. destruct (json_ws x); [exact (IH Hr)|discriminate].
Qed.

Lemma take_digits_app (tail : list N) :
  forallb json_ws tail = true ->
  forall s acc n,
    take_digits acc n (s ++ tail)
    = let '(a, k, r) := take_digits acc n s in (a, k, r ++ tail).
Proof.
  intros Ht. induction s as [|c s IH]; intros acc n.
  - cbn [app take_digits]. destruct tail as [|c r]; [reflexivity|].
    cbn [forallb] in Ht. apply andb_true_iff in Ht as [Hc _].
    ws_char Hc; reflexivity.
  - cbn [app take_digits]. destruct (is_digit c); [apply IH|reflexivity].
Qed.

Lemma parse_exponent_app (tail : list N) :
  forallb json_ws tail = true ->
  forall s,
    parse_exponent (s ++ tail) = let '(e, r) := parse_exponent s in (e, r ++ tail).
Proof.
  intros Ht s. destruct s as [|c s1].
  - cbn [app]. destruct tail as [|t r]; [reflexivity|].
    cbn [forallb] in Ht. apply andb_true_iff in Ht as [Hc _].
    ws_char Hc; reflexivity.
  - unfold parse_exponent. cbn [app].
    destruct ((c =? 101) || (c =? 69)); [|reflexivity].
    destruct s1 as [|d s2].
    + cbn [app]. destruct tail as [|t r]; [reflexivity|].
      cbn [forallb] in Ht. apply andb_true_iff in Ht as [Hc _].
      ws_char Hc; reflexivity.
    + cbn [app]. destruct (d =? 45).
      { rewrite (take_digits_app tail Ht).
        destruct (take_digits 0 0 s2) as [[e n] rest]. destruct n; reflexivity. }
      destruct (d =? 43).
      { rewrite (take_digits_app tail Ht).
        destruct (take_digits 0 0 s2) as [[e n] rest]. destruct n; reflexivity. }
      change (d :: s2 ++ tail) with ((d :: s2) ++ tail).
      rewrite (take_digits_app tail Ht).
      destruct (take_digits 0 0 (d :: s2)) as [[e n] rest]. destruct n; reflexivity.
Qed.

(** The fraction of a number. *)
Lemma fraction_app (tail : list N) (ip : N) :
  forallb json_ws tail = true ->
  forall s2,
    match s2 ++ tail with
    | c :: d :: _ =>
        if (c =? 46) && is_digit d then take_digits ip O (tl (s2 ++ tail))
        else (ip, O, s2 ++ tail)
    | _ => (ip, O, s2 ++ tail)
    end
    = let '(m, nf, s3) :=
        match s2 with
        | c :: d :: _ =>
            if (c =? 46) && is_digit d then take_digits ip O (tl s2) else (ip, O, s2)
        | _ => (ip, O, s2)
        end in
      (m, nf, s3 ++ tail).
Proof.
  intros Ht s2. destruct s2 as [|c [|d s2]].
  - cbn [app]. destruct tail as [|c [|d r]]; try reflexivity.
    cbn [forallb] in Ht. apply andb_true_iff in Ht as [Hc _].
    ws_char Hc; reflexivity.
  - cbn [app]. destruct tail as [|d r]; [reflexivity|].
    cbn [forallb] in Ht. apply andb_true_iff in Ht as [Hd _].
    ws_char Hd; cbn [is_digit]; rewrite andb_false_r; reflexivity.
  - cbn [app tl]. destruct ((c =? 46) && is_digit d); [|reflexivity].
    change (d :: s2 ++ tail) with ((d :: s2) ++ tail).
    rewrite (take_digits_app tail Ht).
    destruct (take_digits ip 0 (d :: s2)) as [[m nf] s3]. reflexivity.
Qed.

Lemma eqb_add_r (a b k : nat) : ((a + k =? b + k) = (a =? b))%nat.
Proof.
  destruct (Nat.eqb_spec a b) as [->|Hne]; [apply Nat.eqb_refl|].
  apply Nat.eqb_neq. lia.
Qed.

Lemma match_number_with_tail (tail s : list N) :
  forallb json_ws tail = true ->
  match_number (s ++ tail) = with_tail tail (match_number s).
Proof.
  intros Ht. unfold match_number.
  assert (forall neg ip ni s2,
    (let '(m, nf, s3) :=
       match s2 ++ tail with
       | c :: d :: _ =>
           if (c =? 46) && is_digit d then take_digits ip O (tl (s2 ++ tail))
           else (ip, O, s2 ++ tail)
       | _ => (ip, O, s2 ++ tail)
       end in
     let '(e, s4) := parse_exponent s3 in
     if (0 <? nf)%nat || negb (length s4 =? length s3)%nat then
       Scanned (VFloat (float_of_decimal neg m (e - Z.of_nat nf))) s4
     else if (4300 <? ni)%nat then IntTooLong ni
     else Scanned (VInt (if neg then - Z.of_N ip else Z.of_N ip)%Z) s4)
    = with_tail tail
        (let '(m, nf, s3) :=
           match s2 with
           | c :: d :: _ =>
               if (c =? 46) && is_digit d then take_digits ip O (tl s2) else (ip, O, s2)
           | _ => (ip, O, s2)
           end in
         let '(e, s4) := parse_exponent s3 in
         if (0 <? nf)%nat || negb (length s4 =? length s3)%nat then
           Scanned (VFloat (float_of_decimal neg m (e - Z.of_nat nf))) s4
         else if (4300 <? ni)%nat then IntTooLong ni
         else Scanned (VInt (if neg then - Z.of_N ip else Z.of_N ip)%Z) s4)) as Hrest.
  { intros neg ip ni s2. rewrite (fraction_app tail ip Ht s2).
    destruct (match s2 with
              | c :: d :: _ =>
                  if (c =? 46) && is_digit d then take_digits ip O (tl s2)
                  else (ip, O, s2)
              | _ => (ip, O, s2)
              end) as [[m nf] s3].
    rewrite (parse_exponent_app tail Ht s3).
    destruct (parse_exponent s3) as [e s4].
    rewrite !length_app, eqb_add_r.
    destruct ((0 <? nf)%nat || negb (length s4 =? length s3)%nat); [reflexivity|].
    destruct (4300 <? ni)%nat; reflexivity. }
  assert (forall neg s1,
    match
      match s1 ++ tail with
      | c :: s' =>
          if (49 <=? c) && (c <=? 57) then Some (take_digits 0 O (s1 ++ tail))
          else if c =? 48 then Some (0, 1%nat, s')
          else None
      | [] => None
      end
    with
    | None => ScanError expecting_value (length (s ++ tail))
    | Some (ip, ni, s2) =>
        let '(m, nf, s3) :=
          match s2 with
          | c :: d :: _ =>
              if (c =? 46) && is_digit d then take_digits ip O (tl s2) else (ip, O, s2)
          | _ => (ip, O, s2)
          end in
        let '(e, s4) := parse_exponent s3 in
        if (0 <? nf)%nat || negb (length s4 =? length s3)%nat then
          Scanned (VFloat (float_of_decimal neg m (e - Z.of_nat nf))) s4
        else if (4300 <? ni)%nat then IntTooLong ni
        else Scanned (VInt (if neg then - Z.of_N ip else Z.of_N ip)%Z) s4
    end
    = with_tail tail
        match
          match s1 with
          | c :: s' =>
              if (49 <=? c) && (c <=? 57) then Some (take_digits 0 O s1)
              else if c =? 48 then Some (0, 1%nat, s')
              else None
          | [] => None
          end
        with
        | None => ScanError expecting_value (length s)
        | Some (ip, ni, s2) =>
            let '(m, nf, s3) :=
              match s2 with
              | c :: d :: _ =>
                  if (c =? 46) && is_digit d then take_digits ip O (tl s2)
                  else (ip, O, s2)
              | _ => (ip, O, s2)
              end in
            let '(e, s4) := parse_exponent s3 in
            if (0 <? nf)%nat || negb (length s4 =? length s3)%nat then
              Scanned (VFloat (float_of_decimal neg m (e - Z.of_nat nf))) s4
            else if (4300 <? ni)%nat then IntTooLong ni
            else Scanned (VInt (if neg then - Z.of_N ip else Z.of_N ip)%Z) s4
        end) as Hint.
  { intros neg s1. rewrite length_app. destruct s1 as [|c s'].
    - cbn [app with_tail]. destruct tail as [|t r]; [reflexivity|].
      cbn [forallb] in Ht. apply andb_true_iff in Ht as [Hc _].
      ws_char Hc; reflexivity.
    - cbn [app]. destruct ((49 <=? c) && (c <=? 57)).
      + change (c :: s' ++ tail) with ((c :: s') ++ tail).
        rewrite (take_digits_app tail Ht).
        destruct (take_digits 0 0 (c :: s')) as [[ip ni] s2]. apply Hrest.
      + destruct (c =? 48); [apply Hrest|reflexivity]. }
  destruct s as [|c s'].
  - clear Hrest Hint. cbn [app]. destruct tail as [|t r]; [reflexivity|].
    cbn [forallb] in Ht. apply andb_true_iff in Ht as [Hc _].
    ws_char Hc; reflexivity.
  - cbn [app]. destruct (c =? 45); [apply (Hint true s')|apply (Hint false (c :: s'))].
Qed.

Lemma match_number_app (tail s : list N) (v : value) (rest : list N) :
  forallb json_ws tail = true ->
  match_number s = Scanned v rest ->
  match_number (s ++ tail) = Scanned v (rest ++ tail).
Proof. intros Ht H. rewrite (match_number_with_tail tail s Ht), H. reflexivity. Qed.

Lemma hex4_app (s tail : list N) (u : N) (r : list N) :
  hex4 s = Some (u, r) -> hex4 (s ++ tail) = Some (u, r ++ tail).
Proof.
  unfold hex4. destruct s as [|a [|b [|c [|d rest]]]]; try discriminate. cbn [app].
  destruct (hex_digit a), (hex_digit b), (hex_digit c), (hex_digit d); try discriminate.
  intros [= <- <-]. reflexivity.
Qed.

Lemma hex4_short (s : list N) : (length s < 4)%nat -> hex4 s = None.
Proof.
  destruct s as [|a [|b [|c [|d rest]]]]; cbn [length]; try reflexivity. lia.
Qed.

Lemma scanstring_nil (fuel begin : nat) (x r : list N) :
  scanstring fuel begin [] <> Scanned x r.
Proof. destruct fuel; discriminate. Qed.

(** A string that closes within [s] closes at the same place in [s ++ tail],
    whatever [tail] is. *)
Lemma scanstring_app (tail : list N) (fuel : nat) : forall begin s x r,
  scanstring fuel begin s = Scanned x r ->
  forall fuel' begin', (fuel <= fuel')%nat ->
    scanstring fuel' begin' (s ++ tail) = Scanned x (r ++ tail).
Proof.
  induction fuel as [|fuel IH]; intros begin s x r H fuel' begin' Hfuel; [discriminate|].
  destruct fuel' as [|fuel']; [lia|].
  assert (forall c rest0,
            match scanstring fuel begin rest0 with
            | Scanned y q => Scanned (c :: y) q
            | other => other
            end = Scanned x r ->
            match scanstring fuel' begin' (rest0 ++ tail) with
            | Scanned y q => Scanned (c :: y) q
            | other => other
            end = Scanned x (r ++ tail)) as Hcont.
  { intros c rest0. destruct (scanstring fuel begin rest0) as [y q| | |] eqn:E;
      try discriminate.
    intros [= <- <-]. rewrite (IH _ _ _ _ E fuel' begin') by lia. reflexivity. }
  revert H. destruct s as [|c s1]; [discriminate|].
  cbn [scanstring app].
  destruct (c =? 34); [intros [= <- <-]; reflexivity|].
  destruct (c =? 92); [|destruct (c <=? 31); [discriminate|apply Hcont]].
  destruct s1 as [|e s2]; [discriminate|]. cbn [app].
  destruct (e =? 117); [|destruct (escape_char e); [apply Hcont|discriminate]].
  destruct (hex4 s2) as [[u s3]|] eqn:Hu; [|discriminate].
  rewrite (hex4_app s2 tail u s3 Hu).
  destruct s3 as [|b [|v s4]].
  - discriminate.
  - cbn [app]. destruct tail as [|t tail']; [apply (Hcont u [b])|].
    destruct (is_high_surrogate u && (7 <=? length (b :: t :: tail'))%nat
              && (b =? 92) && (t =? 117)) eqn:Hcond; [|apply (Hcont u [b])].
    intros H. exfalso.
    apply andb_true_iff in Hcond as [Hcond _].
    apply andb_true_iff in Hcond as [_ Hb]. apply N.eqb_eq in Hb as ->.
    destruct fuel as [|fuel]; [discriminate|]. cbn in H. discriminate.
  - cbn [app].
    destruct (is_high_surrogate u && (7 <=? length (b :: v :: s4))%nat
              && (b =? 92) && (v =? 117)) eqn:Hcond.
    + assert (is_high_surrogate u && (7 <=? length (b :: v :: s4 ++ tail))%nat
              && (b =? 92) && (v =? 117) = true) as ->.
      { apply andb_true_iff in Hcond as [Hcond ->].
        apply andb_true_iff in Hcond as [Hcond ->].
        apply andb_true_iff in Hcond as [-> Hlen].
        apply Nat.leb_le in Hlen. cbn [andb]. rewrite !andb_true_r.
        apply Nat.leb_le. cbn [length] in *. rewrite length_app. lia. }
      destruct (hex4 s4) as [[u2 s5]|] eqn:Hu2; [|discriminate].
      rewrite (hex4_app s4 tail u2 s5 Hu2).
      destruct (is_low_surrogate u2); [apply Hcont|apply (Hcont u (b :: v :: s4))].
    + destruct (is_high_surrogate u && (7 <=? length (b :: v :: s4 ++ tail))%nat
                && (b =? 92) && (v =? 117)) eqn:Hcond';
        [|apply (Hcont u (b :: v :: s4))].
      intros H. exfalso.
      apply andb_true_iff in Hcond' as [Hcond' Hv]. apply N.eqb_eq in Hv as ->.
      apply andb_true_iff in Hcond' as [Hcond' Hb]. apply N.eqb_eq in Hb as ->.
      apply andb_true_iff in Hcond' as [Hhigh _]. rewrite Hhigh in Hcond.
      cbn [andb] in Hcond. rewrite !andb_true_r in Hcond.
      apply Nat.leb_gt in Hcond. cbn [length] in Hcond.
      destruct fuel as [|fuel]; [discriminate|].
      cbn [scanstring] in H. change (92 =? 34) with false in H.
      change (92 =? 92) with true in H. change (117 =? 117) with true in H.
      cbn iota in H.
      destruct (hex4 s4) as [[u2 s5]|] eqn:Hu2; [|discriminate].
      apply hex4_length in Hu2. destruct s5 as [|c5 s5]; [discriminate|].
      cbn [length] in Hu2. lia.
Qed.

Lemma scan_once_nil (fuel : nat) (v : value) (r : list N) :
  scan_once fuel [] <> Scanned v r.
Proof. destruct fuel; discriminate. Qed.

Lemma scan_members_nil (fuel : nat) (acc : gmap (list N) value) (v : value)
    (r : list N) :
  scan_members fuel acc [] <> Scanned v r.
Proof. destruct fuel; discriminate. Qed.

Lemma scan_elements_nil (fuel : nat) (v : value) (r : list N) :
  scan_elements fuel [] <> Scanned v r.
Proof.
  destruct fuel as [|fuel]; [discriminate|]. rewrite scan_elements_S.
  destruct fuel; discriminate.
Qed.

(** A literal that does not start [s] does not start [s ++ tail] either. *)
Lemma startswith_app_false (tail p : list N) :
  forallb json_ws tail = true ->
  forallb (fun c => negb (json_ws c)) p = true ->
  forall s, startswith p s = false -> startswith p (s ++ tail) = false.
Proof.
  intros Ht. induction p as [|x p IH]; intros Hp s; [discriminate|].
  cbn [forallb] in Hp. apply andb_true_iff in Hp as [Hx Hp].
  destruct s as [|y s].
  - intros _. cbn [app]. destruct tail as [|t r]; [reflexivity|].
    cbn [forallb] in Ht. apply andb_true_iff in Ht as [Hc _].
    cbn [startswith]. unfold char_eqb.
    destruct (N.eqb_spec x t) as [->|_]; [|reflexivity].
    rewrite Hc in Hx. discriminate.
  - cbn [app startswith]. destruct (char_eqb x y); cbn [andb]; [apply (IH Hp)|reflexivity].
Qed.

Lemma drop_app_startswith (p s tail : list N) :
  startswith p s = true -> drop (length p) (s ++ tail) = drop (length p) s ++ tail.
Proof. intros H. apply drop_app_le. exact (startswith_length p s H). Qed.

(** The scanner: a value that ends within [s] is the value read from
    [s ++ tail], with any larger fuel. *)
Lemma scan_app (tail : list N) (Ht : forallb json_ws tail = true) (fuel : nat) :
  (forall s v r, scan_once fuel s = Scanned v r ->
     forall fuel', (fuel <= fuel')%nat ->
       scan_once fuel' (s ++ tail) = Scanned v (r ++ tail))
  /\ (forall acc s v r, scan_members fuel acc s = Scanned v r ->
     forall fuel', (fuel <= fuel')%nat ->
       scan_members fuel' acc (s ++ tail) = Scanned v (r ++ tail))
  /\ (forall s v r, scan_elements fuel s = Scanned v r ->
     forall fuel', (fuel <= fuel')%nat ->
       scan_elements fuel' (s ++ tail) = Scanned v (r ++ tail)).
Proof.
  induction fuel as [|fuel (IHonce & IHmembers & IHelements)].
  { repeat split; intros; discriminate. }
  repeat split.
  - intros s v r H fuel' Hfuel. destruct fuel' as [|fuel']; [lia|].
    revert H. rewrite !scan_once_S.
    destruct s as [|c s1]; [discriminate|].
    change ((c :: s1) ++ tail) with (c :: (s1 ++ tail)). cbv beta iota.
    destruct (c =? 34).
    { destruct (scanstring (S (length s1)) (length (c :: s1)) s1) as [x q| | |] eqn:Hs;
        try discriminate.
      intros [= <- <-].
      rewrite (scanstring_app tail _ _ _ _ _ Hs (S (length (s1 ++ tail)))
                 (length (c :: s1 ++ tail))) by (rewrite length_app; lia).
      reflexivity. }
    destruct (c =? 123).
    { destruct (skip_ws s1) as [|d s2] eqn:Hskip.
      - intros H. destruct (scan_members_nil _ _ _ _ H).
      - rewrite (skip_ws_app_cons s1 d s2 tail Hskip).
        split_char d 125; [intros [= <- <-]; reflexivity|].
        other_char d ltac:(let Hm := fresh in intros Hm; apply (IHmembers _ _ _ _ Hm); lia). }
    destruct (c =? 91).
    { destruct (skip_ws s1) as [|d s2] eqn:Hskip.
      - intros H. destruct (scan_elements_nil _ _ _ H).
      - rewrite (skip_ws_app_cons s1 d s2 tail Hskip).
        split_char d 93; [intros [= <- <-]; reflexivity|].
        other_char d ltac:(let Hm := fresh in intros Hm; apply (IHelements _ _ _ Hm); lia). }
    repeat match goal with
           | |- (if startswith ?p (c :: s1) then _ else _) = _ -> _ =>
               let H := fresh in
               let H' := fresh in
               destruct (startswith p (c :: s1)) eqn:H;
               [pose proof (startswith_app p (c :: s1) tail H) as H';
                cbn [app] in H'; rewrite H';
                intros [= <- <-]; f_equal;
                exact (drop_app_startswith p (c :: s1) tail H)
               |pose proof (startswith_app_false tail p Ht eq_refl (c :: s1) H) as H';
                cbn [app] in H'; rewrite H'; clear H H']
           end.
    apply (match_number_app tail (c :: s1) v r Ht).
  - intros acc s v r H fuel' Hfuel. destruct fuel' as [|fuel']; [lia|].
    revert H. rewrite !scan_members_S.
    destruct s as [|c s1]; [discriminate|].
    change ((c :: s1) ++ tail) with (c :: (s1 ++ tail)).
    split_char c 34; [|other_char c ltac:(discriminate)].
    destruct (scanstring (S (length s1)) (length (34 :: s1)) s1) as [key s2| | |] eqn:Hs;
      try discriminate.
    rewrite (scanstring_app tail _ _ _ _ _ Hs (S (length (s1 ++ tail)))
               (length (34 :: s1 ++ tail))) by (rewrite length_app; lia).
    destruct (skip_ws s2) as [|d s3] eqn:Hskip; [discriminate|].
    rewrite (skip_ws_app_cons s2 d s3 tail Hskip).
    split_char d 58; [|other_char d ltac:(discriminate)].
    destruct (scan_once fuel (skip_ws s3)) as [v' s4| | |] eqn:Hv; try discriminate.
    rewrite (skip_ws_app_ne s3 tail)
      by (intros Hnil; rewrite Hnil in Hv; exact (scan_once_nil _ _ _ Hv)).
    rewrite (IHonce _ _ _ Hv fuel') by lia. cbv zeta.
    destruct (skip_ws s4) as [|e s5] eqn:Hskip4; [discriminate|].
    rewrite (skip_ws_app_cons s4 e s5 tail Hskip4).
    split_char e 125; [intros [= <- <-]; reflexivity|].
    split_char e 44; [|other_char e ltac:(discriminate)].
    intros Hm.
    rewrite (skip_ws_app_ne s5 tail)
      by (intros Hnil; rewrite Hnil in Hm; exact (scan_members_nil _ _ _ _ Hm)).
    apply (IHmembers _ _ _ _ Hm). lia.
  - intros s v r H fuel' Hfuel. destruct fuel' as [|fuel']; [lia|].
    revert H. rewrite !scan_elements_S.
    destruct (scan_once fuel s) as [v' s1| | |] eqn:Hv; try discriminate.
    rewrite (IHonce _ _ _ Hv fuel') by lia.
    destruct (skip_ws s1) as [|e s2] eqn:Hskip; [discriminate|].
    rewrite (skip_ws_app_cons s1 e s2 tail Hskip).
    split_char e 93; [intros [= <- <-]; reflexivity|].
    split_char e 44; [|other_char e ltac:(discriminate)].
    destruct (scan_elements fuel (skip_ws s2)) as [x q| | |] eqn:He; try discriminate.
    rewrite (skip_ws_app_ne s2 tail)
      by (intros Hnil; rewrite Hnil in He; exact (scan_elements_nil _ _ _ He)).
    rewrite (IHelements _ _ _ He fuel') by lia.
    destruct x; intros [= <- <-]; reflexivity.
Qed.

(** JSON white space before and after a document that parses does not change
    the value. *)
Lemma json_loads_padded (ws1 t ws2 : list N) (v : value) :
  forallb json_ws ws1 = true -> forallb json_ws ws2 = true ->
  json_loads t = Return v -> json_loads (ws1 ++ t ++ ws2) = Return v.
Proof.
  intros H1 H2. unfold json_loads.
  destruct (startswith [65279] t) eqn:Hbom; [discriminate|].
  assert (startswith [65279] (ws1 ++ t ++ ws2) = false) as ->.
  { destruct ws1 as [|c ws1].
    - exact (startswith_app_false ws2 [65279] H2 eq_refl t Hbom).
    - cbn [forallb] in H1. apply andb_true_iff in H1 as [Hc _].
      ws_char Hc; reflexivity. }
  rewrite (skip_ws_blank_app ws1 _ H1).
  destruct (scan_once (2 * length t + 2) (skip_ws t)) as [v' rest| | |] eqn:Hs;
    try discriminate.
  destruct (skip_ws rest) eqn:Hrest; [|discriminate]. intros [= <-].
  rewrite (skip_ws_app_ne t ws2)
    by (intros Hnil; rewrite Hnil in Hs; exact (scan_once_nil _ _ _ Hs)).
  rewrite (proj1 (scan_app ws2 H2 _) _ _ _ Hs (2 * length (ws1 ++ t ++ ws2) + 2)%nat)
    by (rewrite !length_app; lia).
  rewrite (skip_ws_app_nil rest ws2 Hrest H2). reflexivity.
Qed.

(** ** A document that does not parse

    The other direction: white space after a text that the scanner refuses
    does not make it acceptable. *)

Lemma hex_digit_ws (c : N) : json_ws c = true -> hex_digit c = None.
Proof. intros H. ws_char H; reflexivity. Qed.

Lemma hex4_blank_none (s tail : list N) :
  forallb json_ws tail = true -> hex4 s = None -> hex4 (s ++ tail) = None.
Proof.
  intros Ht. unfold hex4.
  destruct s as [|a [|b [|c [|d rest]]]]; cbn [app];
    [| | | |destruct (hex_digit a), (hex_digit b), (hex_digit c), (hex_digit d);
            intros H; (discriminate H || reflexivity)];
    intros _; destruct tail as [|t1 tail]; try reflexivity;
    cbn [forallb] in Ht; apply andb_true_iff in Ht as [Hc _];
    pose proof (hex_digit_ws t1 Hc) as Hnone.
  - destruct tail as [|t2 [|t3 [|t4 r]]]; try reflexivity. rewrite Hnone. reflexivity.
  - destruct tail as [|t2 [|t3 r]]; try reflexivity. rewrite Hnone.
    destruct (hex_digit a); reflexivity.
  - destruct tail as [|t2 r]; try reflexivity. rewrite Hnone.
    destruct (hex_digit a), (hex_digit b); reflexivity.
  - rewrite Hnone. destruct (hex_digit a), (hex_digit b), (hex_digit c); reflexivity.
Qed.

Lemma skip_ws_app_blank (s tail : list N) :
  forallb json_ws tail = true ->
  exists tail', forallb json_ws tail' = true /\ skip_ws (s ++ tail) = skip_ws s ++ tail'.
Proof.
  intros Ht. destruct (skip_ws s) as [|c r] eqn:H.
  - exists []. split; [reflexivity|]. exact (skip_ws_app_nil s tail H Ht).
  - exists tail. split; [exact Ht|]. exact (skip_ws_app_cons s c r tail H).
Qed.

Lemma scanstring_blank (tail : list N) :
  forallb json_ws tail = true ->
  forall fuel begin, no_value (scanstring fuel begin tail).
Proof.
  induction tail as [|c tail IH]; intros Ht fuel begin.
  - destruct fuel; exact I.
  - cbn [forallb] in Ht. apply andb_true_iff in Ht as [Hc Ht].
    destruct fuel as [|fuel]; [exact I|].
    specialize (IH Ht fuel begin).
    ws_char Hc; try exact I.
    cbn [scanstring]. change (32 =? 34) with false. change (32 =? 92) with false.
    change (32 <=? 31) with false. cbv iota.
    destruct (scanstring fuel begin tail); [destruct IH|exact I..].
Qed.

Lemma scanstring_fail_app (tail : list N) (Ht : forallb json_ws tail = true)
    (fuel : nat) : forall begin s,
  failed (scanstring fuel begin s) ->
  forall fuel' begin', (fuel <= fuel')%nat ->
    no_value (scanstring fuel' begin' (s ++ tail)).
Proof.
  induction fuel as [|fuel IH]; intros begin s H fuel' begin' Hfuel; [destruct H|].
  destruct fuel' as [|fuel']; [exact I|].
  assert (forall c rest0,
            failed (match scanstring fuel begin rest0 with
                    | Scanned y q => Scanned (c :: y) q
                    | other => other
                    end) ->
            no_value (match scanstring fuel' begin' (rest0 ++ tail) with
                      | Scanned y q => Scanned (c :: y) q
                      | other => other
                      end)) as Hcont.
  { intros c rest0 Hf.
    assert (failed (scanstring fuel begin rest0)) as Hf'
      by (destruct (scanstring fuel begin rest0); exact Hf).
    pose proof (IH _ _ Hf' fuel' begin' ltac:(lia)) as Hn.
    destruct (scanstring fuel' begin' (rest0 ++ tail)); [destruct Hn|exact I..]. }
  destruct s as [|c s1]; [exact (scanstring_blank tail Ht _ _)|].
  revert H. cbn [scanstring app].
  destruct (c =? 34); [intros []|].
  destruct (c =? 92); [|destruct (c <=? 31); [intros _; exact I|apply Hcont]].
  destruct s1 as [|e s2].
  { intros _. cbn [app]. destruct tail as [|t tail']; [exact I|].
    cbn [forallb] in Ht. apply andb_true_iff in Ht as [Hc _].
    ws_char Hc; exact I. }
  cbn [app].
  destruct (e =? 117); [|destruct (escape_char e); [apply Hcont|intros _; exact I]].
  destruct (hex4 s2) as [[u s3]|] eqn:Hu.
  2:{ intros _. rewrite (hex4_blank_none s2 tail Ht Hu). exact I. }
  rewrite (hex4_app s2 tail u s3 Hu).
  assert (forall d ws, forallb json_ws ws = true ->
            no_value (match scanstring fuel' begin' ws with
                      | Scanned y q => Scanned (d :: y) q
                      | other => other
                      end)) as Hblank.
  { intros d ws Hws. pose proof (scanstring_blank ws Hws fuel' begin') as Hn.
    destruct (scanstring fuel' begin' ws); [destruct Hn|exact I..]. }
  destruct s3 as [|b [|v s4]].
  - intros _. cbn [app]. destruct tail as [|t1 [|t2 tail']];
      [exact I|apply (Hblank u _ Ht)|].
    assert (is_high_surrogate u && (7 <=? length (t1 :: t2 :: tail'))%nat
            && (t1 =? 92) && (t2 =? 117) = false) as ->; [|apply (Hblank u _ Ht)].
    cbn [forallb] in Ht. apply andb_true_iff in Ht as [Hc _].
    ws_char Hc; rewrite andb_false_r; reflexivity.
  - cbn [app]. destruct tail as [|t tail']; [apply (Hcont u [b])|].
    assert (is_high_surrogate u && (7 <=? length (b :: t :: tail'))%nat
            && (b =? 92) && (t =? 117) = false) as ->; [|apply (Hcont u [b])].
    cbn [forallb] in Ht. apply andb_true_iff in Ht as [Hc _].
    ws_char Hc; apply andb_false_r.
  - cbn [app].
    destruct (is_high_surrogate u && (7 <=? length (b :: v :: s4))%nat
              && (b =? 92) && (v =? 117)) eqn:Hcond.
    + assert (is_high_surrogate u && (7 <=? length (b :: v :: s4 ++ tail))%nat
              && (b =? 92) && (v =? 117) = true) as ->.
      { apply andb_true_iff in Hcond as [Hcond ->].
        apply andb_true_iff in Hcond as [Hcond ->].
        apply andb_true_iff in Hcond as [-> Hlen].
        apply Nat.leb_le in Hlen. cbn [andb]. rewrite !andb_true_r.
        apply Nat.leb_le. cbn [length] in *. rewrite length_app. lia. }
      destruct (hex4 s4) as [[u2 s5]|] eqn:Hu2.
      2:{ intros _. rewrite (hex4_blank_none s4 tail Ht Hu2). exact I. }
      rewrite (hex4_app s4 tail u2 s5 Hu2).
      destruct (is_low_surrogate u2); [apply Hcont|apply (Hcont u (b :: v :: s4))].
    + destruct (is_high_surrogate u && (7 <=? length (b :: v :: s4 ++ tail))%nat
                && (b =? 92) && (v =? 117)) eqn:Hcond';
        [|apply (Hcont u (b :: v :: s4))].
      intros Hf.
      apply andb_true_iff in Hcond' as [Hcond' Hv].
      apply andb_true_iff in Hcond' as [Hcond' Hb].
      apply andb_true_iff in Hcond' as [Hhigh _]. rewrite Hhigh, Hb, Hv in Hcond.
      cbn [andb] in Hcond. rewrite !andb_true_r in Hcond.
      apply Nat.leb_gt in Hcond. cbn [length] in Hcond.
      destruct (hex4 s4) as [[u2 s5]|] eqn:Hu2.
      * rewrite (hex4_app s4 tail u2 s5 Hu2).
        apply hex4_length in Hu2. destruct s5 as [|c5 s5]; [|cbn [length] in Hu2; lia].
        cbn [app].
        destruct (is_low_surrogate u2);
          [apply (Hblank _ _ Ht)|apply (Hcont u (b :: v :: s4) Hf)].
      * rewrite (hex4_blank_none s4 tail Ht Hu2). exact I.
Qed.

Lemma scan_once_blank (tail : list N) :
  forallb json_ws tail = true -> forall fuel, no_value (scan_once fuel tail).
Proof.
  intros Ht fuel. destruct fuel as [|fuel]; [exact I|].
  destruct tail as [|c tail]; [exact I|].
  cbn [forallb] in Ht. apply andb_true_iff in Ht as [Hc _].
  ws_char Hc; exact I.
Qed.

Lemma scan_members_blank (tail : list N) :
  forallb json_ws tail = true ->
  forall fuel acc, no_value (scan_members fuel acc tail).
Proof.
  intros Ht fuel acc. destruct fuel as [|fuel]; [exact I|].
  destruct tail as [|c tail]; [exact I|].
  cbn [forallb] in Ht. apply andb_true_iff in Ht as [Hc _].
  ws_char Hc; exact I.
Qed.

Lemma scan_fail_app (fuel : nat) :
  (forall s tail, forallb json_ws tail = true -> failed (scan_once fuel s) ->
     forall fuel', (fuel <= fuel')%nat -> no_value (scan_once fuel' (s ++ tail)))
  /\ (forall acc s tail, forallb json_ws tail = true ->
        failed (scan_members fuel acc s) ->
        forall fuel', (fuel <= fuel')%nat -> no_value (scan_members fuel' acc (s ++ tail)))
  /\ (forall s tail, forallb json_ws tail = true -> failed (scan_elements fuel s) ->
        forall fuel', (fuel <= fuel')%nat -> no_value (scan_elements fuel' (s ++ tail))).
Proof.
  induction fuel as [|fuel (IHonce & IHmembers & IHelements)].
  { repeat split; intros;
      match goal with Hf : failed _ |- _ => exact (False_ind _ Hf) end. }
  repeat split.
  - intros s tail Ht H fuel' Hfuel. destruct fuel' as [|fuel']; [exact I|].
    destruct s as [|c s1]; [exact (scan_once_blank tail Ht _)|].
    revert H. rewrite !scan_once_S.
    change ((c :: s1) ++ tail) with (c :: (s1 ++ tail)). cbv beta iota.
    destruct (c =? 34).
    { intros Hf.
      assert (failed (scanstring (S (length s1)) (length (c :: s1)) s1)) as Hf'
        by (destruct (scanstring (S (length s1)) (length (c :: s1)) s1); exact Hf).
      pose proof (scanstring_fail_app tail Ht _ _ _ Hf' (S (length (s1 ++ tail)))
                    (length (c :: s1 ++ tail)) ltac:(rewrite length_app; lia)) as Hn.
      destruct (scanstring (S (length (s1 ++ tail))) (length (c :: s1 ++ tail))
                  (s1 ++ tail)); [destruct Hn|exact I..]. }
    destruct (c =? 123).
    { destruct (skip_ws s1) as [|d s2] eqn:Hskip.
      - intros _. rewrite (skip_ws_app_nil s1 tail Hskip Ht).
        exact (scan_members_blank [] eq_refl _ _).
      - rewrite (skip_ws_app_cons s1 d s2 tail Hskip).
        split_char d 125; [intros []|].
        other_char d ltac:(let Hm := fresh in
                           intros Hm; apply (IHmembers _ _ _ Ht Hm); lia). }
    destruct (c =? 91).
    { destruct (skip_ws s1) as [|d s2] eqn:Hskip.
      - intros Hf. rewrite (skip_ws_app_nil s1 tail Hskip Ht).
        apply (IHelements [] [] eq_refl Hf). lia.
      - rewrite (skip_ws_app_cons s1 d s2 tail Hskip).
        split_char d 93; [intros []|].
        other_char d ltac:(let Hm := fresh in
                           intros Hm; apply (IHelements _ _ Ht Hm); lia). }
    repeat match goal with
           | |- failed (if startswith ?p (c :: s1) then _ else _) -> _ =>
               let H := fresh in
               let H' := fresh in
               destruct (startswith p (c :: s1)) eqn:H;
               [intros []
               |pose proof (startswith_app_false tail p Ht eq_refl (c :: s1) H) as H';
                cbn [app] in H'; rewrite H'; clear H H']
           end.
    change (c :: s1 ++ tail) with ((c :: s1) ++ tail).
    rewrite (match_number_with_tail tail (c :: s1) Ht).
    destruct (match_number (c :: s1)); cbn [failed with_tail no_value]; tauto.
  - intros acc s tail Ht H fuel' Hfuel. destruct fuel' as [|fuel']; [exact I|].
    destruct s as [|c s1]; [exact (scan_members_blank tail Ht _ _)|].
    revert H. rewrite !scan_members_S.
    change ((c :: s1) ++ tail) with (c :: (s1 ++ tail)).
    split_char c 34; [|other_char c ltac:(intros; exact I)].
    destruct (scanstring (S (length s1)) (length (34 :: s1)) s1) as [key s2| | |] eqn:Hs.
    2,3: intros _;
      pose proof (scanstring_fail_app tail Ht _ _ _ ltac:(rewrite Hs; exact I)
                    (S (length (s1 ++ tail))) (length (34 :: s1 ++ tail))
                    ltac:(rewrite length_app; lia)) as Hn;
      destruct (scanstring (S (length (s1 ++ tail))) (length (34 :: s1 ++ tail))
                  (s1 ++ tail)); [destruct Hn|exact I..].
    2: intros [].
    rewrite (scanstring_app tail _ _ _ _ _ Hs (S (length (s1 ++ tail)))
               (length (34 :: s1 ++ tail))) by (rewrite length_app; lia).
    destruct (skip_ws s2) as [|d s3] eqn:Hskip.
    { intros _. rewrite (skip_ws_app_nil s2 tail Hskip Ht). exact I. }
    rewrite (skip_ws_app_cons s2 d s3 tail Hskip).
    split_char d 58; [|other_char d ltac:(intros; exact I)].
    destruct (scan_once fuel (skip_ws s3)) as [v' s4| | |] eqn:Hv.
    + rewrite (skip_ws_app_ne s3 tail)
        by (intros Hnil; rewrite Hnil in Hv; exact (scan_once_nil _ _ _ Hv)).
      rewrite (proj1 (scan_app tail Ht fuel) _ _ _ Hv fuel') by lia. cbv zeta.
      destruct (skip_ws s4) as [|e s5] eqn:Hskip4.
      { intros _. rewrite (skip_ws_app_nil s4 tail Hskip4 Ht). exact I. }
      rewrite (skip_ws_app_cons s4 e s5 tail Hskip4).
      split_char e 125; [intros []|].
      split_char e 44; [|other_char e ltac:(intros; exact I)].
      intros Hm. destruct (skip_ws_app_blank s5 tail Ht) as (tail5 & Ht5 & ->).
      apply (IHmembers _ _ _ Ht5 Hm). lia.
    + intros _. destruct (skip_ws_app_blank s3 tail Ht) as (tail3 & Ht3 & ->).
      pose proof (IHonce _ _ Ht3 ltac:(rewrite Hv; exact I) fuel' ltac:(lia)) as Hn.
      destruct (scan_once fuel' (skip_ws s3 ++ tail3)); [destruct Hn|exact I..].
    + intros _. destruct (skip_ws_app_blank s3 tail Ht) as (tail3 & Ht3 & ->).
      pose proof (IHonce _ _ Ht3 ltac:(rewrite Hv; exact I) fuel' ltac:(lia)) as Hn.
      destruct (scan_once fuel' (skip_ws s3 ++ tail3)); [destruct Hn|exact I..].
    + intros [].
  - intros s tail Ht H fuel' Hfuel. destruct fuel' as [|fuel']; [exact I|].
    revert H. rewrite !scan_elements_S.
    destruct (scan_once fuel s) as [v' s1| | |] eqn:Hv.
    + rewrite (proj1 (scan_app tail Ht fuel) _ _ _ Hv fuel') by lia.
      destruct (skip_ws s1) as [|e s2] eqn:Hskip.
      { intros _. rewrite (skip_ws_app_nil s1 tail Hskip Ht). exact I. }
      rewrite (skip_ws_app_cons s1 e s2 tail Hskip).
      split_char e 93; [intros []|].
      split_char e 44; [|other_char e ltac:(intros; exact I)].
      destruct (skip_ws_app_blank s2 tail Ht) as (tail2 & Ht2 & ->).
      intros Hf.
      assert (failed (scan_elements fuel (skip_ws s2))) as Hf'.
      { destruct (scan_elements fuel (skip_ws s2)) as [[]| | |]; exact Hf. }
      pose proof (IHelements _ _ Ht2 Hf' fuel' ltac:(lia)) as Hn.
      destruct (scan_elements fuel' (skip_ws s2 ++ tail2)) as [[]| | |];
        try destruct Hn; exact I.
    + intros _.
      pose proof (IHonce _ _ Ht ltac:(rewrite Hv; exact I) fuel' ltac:(lia)) as Hn.
      destruct (scan_once fuel' (s ++ tail)); [destruct Hn|exact I..].
    + intros _.
      pose proof (IHonce _ _ Ht ltac:(rewrite Hv; exact I) fuel' ltac:(lia)) as Hn.
      destruct (scan_once fuel' (s ++ tail)); [destruct Hn|exact I..].
    + intros [].
Qed.

(** JSON white space around a document that does not parse: it still does
    not parse. *)
Lemma json_loads_padded_raise (ws1 t ws2 : list N) (e : exn) :
  forallb json_ws ws1 = true -> forallb json_ws ws2 = true ->
  json_loads t = Raise e -> exists e', json_loads (ws1 ++ t ++ ws2) = Raise e'.
Proof.
  intros H1 H2.
  assert (forall doc (r : scan value), no_value r ->
            exists e',
              match r with
              | Scanned v rest =>
                  match skip_ws rest with
                  | [] => Return v
                  | extra =>
                      Raise (json_decode_error (lit "Extra data") doc
                               (length doc - length extra))
                  end
              | ScanError msg unread =>
                  Raise (json_decode_error msg doc (length doc - unread))
              | IntTooLong n => Raise (int_too_long n)
              | OutOfFuel => Raise recursion_error
              end = Raise e') as Hraise.
  { intros doc r Hn. destruct r; [destruct Hn|eauto..]. }
  unfold json_loads.
  destruct (startswith [65279] (ws1 ++ t ++ ws2)); [eauto|].
  rewrite (skip_ws_blank_app ws1 _ H1).
  destruct (startswith [65279] t) eqn:Hbom.
  { intros _. apply Hraise.
    destruct t as [|c t']; [discriminate|]. cbn [startswith] in Hbom.
    rewrite andb_true_r in Hbom. apply char_eqb_eq in Hbom as <-.
    cbn [app skip_ws]. change (json_ws 65279) with false. cbv iota.
    match goal with |- context [scan_once ?f _] => generalize f end. intros fuel.
    destruct fuel; exact I. }
  pose proof (json_loads_total t) as Htotal.
  destruct (scan_once (2 * length t + 2) (skip_ws t)) as [v rest| | |] eqn:Hs.
  - destruct (skip_ws rest) as [|x extra] eqn:Hrest; [discriminate|]. intros _.
    rewrite (skip_ws_app_ne t ws2)
      by (intros Hnil; rewrite Hnil in Hs; exact (scan_once_nil _ _ _ Hs)).
    rewrite (proj1 (scan_app ws2 H2 _) _ _ _ Hs (2 * length (ws1 ++ t ++ ws2) + 2)%nat)
      by (rewrite !length_app; lia).
    rewrite (skip_ws_app_cons rest x extra ws2 Hrest). eauto.
  - intros _. destruct (skip_ws_app_blank t ws2 H2) as (tail & Htail & ->).
    apply Hraise.
    apply (proj1 (scan_fail_app _) _ _ Htail ltac:(rewrite Hs; exact I)).
    rewrite !length_app. lia.
  - intros _. destruct (skip_ws_app_blank t ws2 H2) as (tail & Htail & ->).
    apply Hraise.
    apply (proj1 (scan_fail_app _) _ _ Htail ltac:(rewrite Hs; exact I)).
    rewrite !length_app. lia.
  - congruence.
Qed.

(** ** A fenced block with line breaks *)

Lemma json_ws_not_fence_char (c : N) : json_ws c = true -> c ∉ fence_json.
Proof. intros H. ws_char H; absent_char. Qed.

Lemma json_ws_not_backtick (c : N) : json_ws c = true -> c ∉ fence.
Proof. intros H. ws_char H; absent_char. Qed.

Lemma blank_Forall (P : N -> Prop) (ws : list N) :
  (forall c, json_ws c = true -> P c) -> forallb json_ws ws = true -> Forall P ws.
Proof.
  intros HP. induction ws as [|c ws IH]; [constructor|]. cbn [forallb].
  intros H. apply andb_true_iff in H as [Hc H]. constructor; auto.
Qed.

Lemma blank_absent (c : N) (ws : list N) :
  json_ws c = false -> forallb json_ws ws = true -> c ∉ ws.
Proof.
  intros Hc Hws Hin.
  pose proof (blank_Forall (fun x => json_ws x = true) ws (fun _ H => H) Hws) as Hall.
  rewrite Forall_forall in Hall. rewrite (Hall c Hin) in Hc. discriminate.
Qed.

Lemma startswith_app_other (p s : list N) (c : N) (r : list N) :
  c ∉ p -> startswith p (s ++ c :: r) = startswith p s.
Proof.
  revert s. induction p as [|x p IH]; intros s Hc; [reflexivity|].
  apply not_elem_of_cons in Hc as [Hx Hc].
  destruct s as [|y s]; cbn [app startswith].
  - unfold char_eqb. destruct (N.eqb_spec x c); [congruence|reflexivity].
  - rewrite (IH s Hc). reflexivity.
Qed.

(** Characters that do not occur in the pattern stay where they are, before
    and after the text. *)
Lemma replace_from_blank_l (p ws s : list N) :
  Forall (fun c => c ∉ p) ws -> p <> [] ->
  replace_from p [] 0 (ws ++ s) = ws ++ replace_from p [] 0 s.
Proof.
  intros Hws Hp. induction Hws as [|c ws Hc _ IH]; [reflexivity|].
  cbn [app]. rewrite replace_from_nomatch; [rewrite IH; reflexivity|].
  destruct p as [|x p]; [congruence|]. apply startswith_cons_ne.
  intros ->. apply Hc. left.
Qed.

Lemma replace_from_blank_r (p ws : list N) :
  Forall (fun c => c ∉ p) ws -> p <> [] ->
  forall t k, (k <= length t)%nat ->
    replace_from p [] k (t ++ ws) = replace_from p [] k t ++ ws.
Proof.
  intros Hws Hp. induction t as [|x t IH]; intros k Hk.
  - cbn [length] in Hk. replace k with O by lia.
    pose proof (replace_from_blank_l p ws [] Hws Hp) as H.
    cbn [replace_from] in H. rewrite !app_nil_r in H. exact H.
  - destruct k as [|k]; cbn [length] in Hk.
    + destruct ws as [|c r]; [rewrite !app_nil_r; reflexivity|].
      apply Forall_cons in Hws as Hws'. destruct Hws' as [Hc _].
      cbn [app replace_from].
      pose proof (startswith_app_other p (x :: t) c r Hc) as Hs. cbn [app] in Hs.
      rewrite Hs. destruct (startswith p (x :: t)) eqn:Hst.
      * cbn [app]. apply IH. apply startswith_length in Hst. cbn [length] in Hst. lia.
      * cbn [app]. rewrite (IH 0%nat) by lia. reflexivity.
    + cbn [app replace_from]. apply IH. lia.
Qed.

Lemma remove_fences_padded (ws1 t ws2 : list N) :
  forallb json_ws ws1 = true -> forallb json_ws ws2 = true ->
  remove_fences (ws1 ++ t ++ ws2) = ws1 ++ remove_fences t ++ ws2.
Proof.
  intros H1 H2. unfold remove_fences.
  rewrite !str_replace_fence_json, !str_replace_fence.
  rewrite (replace_from_blank_l fence_json ws1)
    by (try discriminate; exact (blank_Forall _ ws1 json_ws_not_fence_char H1)).
  rewrite (replace_from_blank_r fence_json ws2
             (blank_Forall _ ws2 json_ws_not_fence_char H2)) by (try discriminate; lia).
  rewrite (replace_from_blank_l fence ws1)
    by (try discriminate; exact (blank_Forall _ ws1 json_ws_not_backtick H1)).
  rewrite (replace_from_blank_r fence ws2
             (blank_Forall _ ws2 json_ws_not_backtick H2)) by (try discriminate; lia).
  reflexivity.
Qed.

Lemma re_search_braces_padded (ws1 t ws2 : list N) :
  forallb json_ws ws1 = true -> forallb json_ws ws2 = true ->
  re_search_braces (ws1 ++ t ++ ws2) = re_search_braces t.
Proof.
  intros H1 H2. unfold re_search_braces.
  rewrite drop_until_app, (drop_until_absent lbrace ws1 (blank_absent lbrace ws1 eq_refl H1)).
  rewrite drop_until_app.
  destruct (drop_until lbrace t) as [|b rest].
  - rewrite (drop_until_absent lbrace ws2 (blank_absent lbrace ws2 eq_refl H2)). reflexivity.
  - cbn [app]. rewrite rev_app_distr, drop_until_app.
    rewrite (drop_until_absent rbrace (rev ws2)); [reflexivity|].
    intros Hin. apply (blank_absent rbrace ws2 eq_refl H2).
    apply list_elem_of_In, in_rev, list_elem_of_In. exact Hin.
Qed.

Lemma json_loads_padded_iff (ws1 s ws2 : list N) (v : value) :
  forallb json_ws ws1 = true -> forallb json_ws ws2 = true ->
  json_loads (ws1 ++ s ++ ws2) = Return v <-> json_loads s = Return v.
Proof.
  intros H1 H2. split; [|apply json_loads_padded; assumption].
  destruct (json_loads s) as [v0|e] eqn:Hs.
  - rewrite (json_loads_padded ws1 s ws2 v0 H1 H2 Hs). auto.
  - destruct (json_loads_padded_raise ws1 s ws2 e H1 H2 Hs) as [e' ->]. discriminate.
Qed.

Lemma parse_trip_padded (ws1 s ws2 : list N) :
  forallb json_ws ws1 = true -> forallb json_ws ws2 = true ->
  parse_trip (ws1 ++ s ++ ws2) = parse_trip s.
Proof.
  intros H1 H2. unfold parse_trip. destruct (json_loads s) as [v|e] eqn:Hs.
  - rewrite (json_loads_padded ws1 s ws2 v H1 H2 Hs). reflexivity.
  - destruct (json_loads_padded_raise ws1 s ws2 e H1 H2 Hs) as [e' ->]. reflexivity.
Qed.

Lemma trip_from_fenced_block (ws1 t ws2 : list N) :
  forallb json_ws ws1 = true -> forallb json_ws ws2 = true ->
  strip t = t ->
  trip_from_text (fenced (ws1 ++ t ++ ws2)) = trip_from_text t.
Proof.
  intros H1 H2 Ht. unfold trip_from_text.
  rewrite strip_fenced, remove_fences_fenced, re_search_braces_fenced, Ht.
  rewrite (remove_fences_padded ws1 t ws2 H1 H2), (parse_trip_padded _ _ _ H1 H2).
  rewrite (re_search_braces_padded ws1 t ws2 H1 H2). reflexivity.
Qed.

(** X17.  A model usually answers with a fenced block on lines of its own:
    the [```json] marker, a line break, the document, a line break and the
    closing marker.  For a document [t] and any JSON white space between
    the markers and [t], every structured use case returns a result for the
    block exactly when it returns one for [t] alone, and it is the same
    result.  (When both raise, the messages differ in the position they
    name.) *)
Theorem fenced_block_with_line_breaks (be be' : backend) (op : operation) (id : model_id)
    (req : request) (ws1 t ws2 : list N) (v : value) (w : world) :
  forallb json_ws ws1 = true -> forallb json_ws ws2 = true ->
  strip t = t ->
  (forall audio_data, op <> Transcribe audio_data) ->
  request_for be op = Return (id, req) ->
  request_for be' op = Return (id, req) ->
  generate_content be id req = Return (fenced (ws1 ++ t ++ ws2)) ->
  generate_content be' id req = Return t ->
  fst (perform be op w) = Return v <-> fst (perform be' op w) = Return v.
Proof.
  intros H1 H2 Ht Hop Hreq Hreq' Hgen Hgen'.
  destruct (parses_plainly op) eqn:Hplain.
  - rewrite (perform_plain be op id req w Hplain Hreq), Hgen.
    rewrite (perform_plain be' op id req w Hplain Hreq'), Hgen'. cbn [fst].
    assert (clean (fenced (ws1 ++ t ++ ws2)) = ws1 ++ clean t ++ ws2) as ->.
    { unfold clean. rewrite strip_fenced, remove_fences_fenced, Ht.
      apply remove_fences_padded; assumption. }
    assert (forall r : outcome value,
              match r with
              | Return x => Return x
              | Raise e => Raise (during e (Exception_ (label op ++ exn_str e)))
              end = Return v <-> r = Return v) as Hret.
    { intros [x|e]; split; intros H; try discriminate H; exact H. }
    etransitivity; [apply Hret|]. etransitivity; [|symmetry; apply Hret].
    apply json_loads_padded_iff; assumption.
  - destruct op; try discriminate Hplain; [destruct (Hop audio_data eq_refl)|].
    cbn [perform request_for] in *. injection Hreq as <- <-.
    rewrite !run_trip. cbn zeta. rewrite Hgen, Hgen'.
    rewrite (trip_from_fenced_block ws1 t ws2 H1 H2 Ht). reflexivity.
Qed.

Lemma fenced_block_with_line_breaks_witness :
  let t := jlit "{'fatigue_level': 'low', 'risk_score': 12}" in
  let v := VDict (list_to_map [(lit "fatigue_level", VStr (lit "low"));
                               (lit "risk_score", VInt 12)]) in
  fst (perform (answering (fenced ([10] ++ t ++ [10]))) (Fatigue VNone) world0) = Return v
  <-> fst (perform (answering t) (Fatigue VNone) world0) = Return v.
Proof.
  cbv zeta.
  apply (fenced_block_with_line_breaks _ _ _ ChatModel (mk_request (FatiguePrompt VNone) [])
           [10] (jlit "{'fatigue_level': 'low', 'risk_score': 12}") [10]).
  - reflexivity.
  - reflexivity.
  - vm_compute. reflexivity.
  - discriminate.
  - reflexivity.
  - reflexivity.
  - reflexivity.
  - reflexivity.
Defined.

(** ** Numbers in the numeric fields *)

Local Open Scope Z_scope.

(** An integer below 2^53 is a binary64 number: the conversion shifts it
    into the mantissa and rounds nothing away. *)
Lemma round_ratio_small (neg : bool) (p : Z) :
  0 < p < 2 ^ 53 ->
  round_ratio neg p 1
  = FFinite neg (Z.to_N (p * 2 ^ (52 - Z.log2 p))) (Z.log2 p - 52).
Proof.
  intros Hp. unfold round_ratio.
  assert ((p =? 0) = false) as -> by (apply Z.eqb_neq; lia).
  change (Z.log2 1) with 0.
  pose proof (Z.log2_spec p ltac:(lia)) as [Hlo Hhi].
  assert (0 <= Z.log2 p <= 52) as Hlog.
  { split; [apply Z.log2_nonneg|]. apply Z.lt_succ_r. apply Z.log2_lt_pow2; lia. }
  set (l := Z.log2 p) in *.
  replace (l - 0 - 52) with (l - 52) by lia.
  assert (2 ^ 52 <= p * 2 ^ (52 - l) < 2 ^ 53) as Hm.
  { assert (2 ^ 52 = 2 ^ l * 2 ^ (52 - l)) as E52
      by (rewrite <- Z.pow_add_r by lia; f_equal; lia).
    assert (2 ^ 53 = 2 ^ Z.succ l * 2 ^ (52 - l)) as E53
      by (rewrite <- Z.pow_add_r by lia; f_equal; lia).
    assert (0 < 2 ^ (52 - l)) by (apply Z.pow_pos_nonneg; lia).
    rewrite E52 at 1. rewrite E53. nia. }
  cbv zeta.
  assert ((l - 52 <=? 0) = true) as -> by (apply Z.leb_le; lia).
  replace (- (l - 52)) with (52 - l) by lia.
  rewrite Z.div_1_r.
  assert ((p * 2 ^ (52 - l) <? 2 ^ 52) = false) as -> by (apply Z.ltb_ge; lia).
  rewrite Z.max_l by lia.
  assert ((l - 52 <=? 0) = true) as -> by (apply Z.leb_le; lia).
  replace (- (l - 52)) with (52 - l) by lia.
  rewrite Z.div_1_r, Z.mod_1_r.
  change (2 * 0) with 0. change (1 <? 0) with false. change (1 =? 0) with false.
  cbn [orb andb].
  assert ((p * 2 ^ (52 - l) =? 2 ^ 53) = false) as -> by (apply Z.eqb_neq; lia).
  assert ((971 <? l - 52) = false) as -> by (apply Z.ltb_ge; lia).
  assert ((p * 2 ^ (52 - l) =? 0) = false) as -> by (apply Z.eqb_neq; lia).
  reflexivity.
Qed.

Lemma float_of_int_small (z : Z) :
  Z.abs z < 2 ^ 53 ->
  exists m e, float_of_int z = Some (FFinite (z <? 0) m e)
              /\ e <= 0 /\ Z.of_N m = Z.abs z * 2 ^ (- e).
Proof.
  intros Hz. unfold float_of_int.
  destruct (Z.eq_dec z 0) as [->|Hne].
  - exists 0%N, 0. repeat split; reflexivity || lia.
  - rewrite round_ratio_small by lia.
    assert (0 <= Z.log2 (Z.abs z) <= 52) as Hlog.
    { split; [apply Z.log2_nonneg|]. apply Z.lt_succ_r. apply Z.log2_lt_pow2; lia. }
    eexists _, _. split; [reflexivity|]. split; [lia|].
    replace (- (Z.log2 (Z.abs z) - 52)) with (52 - Z.log2 (Z.abs z)) by lia.
    apply Z2N.id.
    assert (0 < 2 ^ (52 - Z.log2 (Z.abs z))) by (apply Z.pow_pos_nonneg; lia). nia.
Qed.

(** X18.  Trip extraction keeps the numbers the model gave: under a numeric
    field a JSON real number is returned as the same float, and a JSON
    integer of magnitude below 2^53 as the float of exactly that value (the
    mantissa times 2^e is the integer, with its sign). *)
Theorem numbers_in_numeric_fields_are_kept (be : backend) (transcription text : list N)
    (d : gmap (list N) value) (num_field : list N) (w : world) :
  generate_content be ChatModel (mk_request (TripPrompt transcription) []) = Return text ->
  json_loads (clean text) = Return (VDict d) ->
  num_field ∈ numeric_fields ->
  exists d', fst (extract_trip_info be transcription w) = Return (VDict d')
    /\ (forall x, d !! num_field = Some (VFloat x) -> d' !! num_field = Some (VFloat x))
    /\ (forall z, d !! num_field = Some (VInt z) -> Z.abs z < 2 ^ 53 ->
          exists m e, d' !! num_field = Some (VFloat (FFinite (z <? 0) m e))
                      /\ e <= 0 /\ Z.of_N m = Z.abs z * 2 ^ (- e)).
Proof.
  intros Hgen Hparse Hin. exists (normalize_dict d).
  rewrite run_trip. cbn zeta. rewrite Hgen, (trip_from_dict text d Hparse).
  split; [reflexivity|].
  rewrite normalize_dict_lookup. rewrite (decide_True _ _ Hin). split.
  - intros x ->. reflexivity.
  - intros z -> Hz. destruct (float_of_int_small z Hz) as (m & e & Hf & He & Hm).
    exists m, e. split; [|auto]. cbn [fmap option_fmap option_map].
    unfold float_or_zero. cbn [is_none py_float]. rewrite Hf. reflexivity.
Qed.

Lemma numbers_in_numeric_fields_are_kept_witness :
  exists d', fst (extract_trip_info (answering (jlit "{'earnings': 250, 'toll_cost': 12.5}"))
                    [] world0) = Return (VDict d')
    /\ (forall x, (list_to_map [(lit "earnings", VInt 250);
                                (lit "toll_cost",
                                 VFloat (FFinite false 7036874417766400 (-49)))]
                   : gmap (list N) value) !! lit "earnings" = Some (VFloat x) ->
                  d' !! lit "earnings" = Some (VFloat x))
    /\ (forall z, (list_to_map [(lit "earnings", VInt 250);
                                (lit "toll_cost",
                                 VFloat (FFinite false 7036874417766400 (-49)))]
                   : gmap (list N) value) !! lit "earnings" = Some (VInt z) ->
          Z.abs z < 2 ^ 53 ->
          exists m e, d' !! lit "earnings" = Some (VFloat (FFinite (z <? 0) m e))
                      /\ e <= 0 /\ Z.of_N m = Z.abs z * 2 ^ (- e)).
Proof.
  apply (numbers_in_numeric_fields_are_kept
           (answering (jlit "{'earnings': 250, 'toll_cost': 12.5}")) []
           (jlit "{'earnings': 250, 'toll_cost': 12.5}")).
  - reflexivity.
  - vm_compute. reflexivity.
  - vm_compute. left.
Defined.

Local Open Scope N_scope.
